(** * lean-architect conversion scripts: a shallow embedding

    The Python sources under [scripts/convert] ([common.py],
    [modify_lean.py], [parse_latex.py]) are embedded as Rocq functions.

    Conventions of the embedding:
    - a Python [str] is a [string]; every [ascii] stands for the code point of
      the same number (the Latin-1 range);
    - a Python [set[str]] is a [gset string]; wherever the source iterates over
      a set the order is given by a parameter [set_iter], about which the
      theorems only assume that it enumerates the members of the set;
    - a Python [dict] is a [gmap];
    - Python [int] is [Z];
    - exceptions, the logger and the file system are explicit: functions that
      can raise return an [outcome]; the functions of [modify_lean.py] thread a
      [World] (files, log, warning latch), those of [parse_latex.py] thread
      the list of logged warnings;
    - Python recursion is bounded by a [fuel] argument; running out of it is
      the separate outcome [OutOfFuel]. *)

From Stdlib Require Import ZArith Lia Ascii String Sorted.
From stdpp Require Import base option list relations gmap sets strings pretty.


(** ** Outcomes of fallible code *)

Inductive exn : Type :=
  | KeyError (key : string)
  | IndexError
  | FileNotFoundError (path : string)
  | AssertionError
  | ValueError.

Inductive outcome (A : Type) : Type :=
  | Done (a : A)
  | Raise (e : exn)
  | OutOfFuel.
Arguments Done {A} a.
Arguments Raise {A} e.
Arguments OutOfFuel {A}.

Definition obind {A B} (m : outcome A) (k : A → outcome B) : outcome B :=
  match m with
  | Done a => k a
  | Raise e => Raise e
  | OutOfFuel => OutOfFuel
  end.

(** [for x in l: body x] over a threaded state, stopping at the first
    exception. *)
Fixpoint for_each {A S} (body : A → S → outcome S) (l : list A) (s : S) : outcome S :=
  match l with
  | [] => Done s
  | x :: l' => obind (body x s) (for_each body l')
  end.

(** ** common.py: the data model *)

Record NodePart : Type := mkNodePart {
  lean_ok : bool;
  text : string;
  uses : gset string;
  uses_raw : gset string;
  latex_env : string;
}.

Record Node : Type := mkNode {
  name : string;
  statement : NodePart;
  proof : option NodePart;
  not_ready : bool;
  discussion : option Z;
  title : option string;
}.

(** The [uses] property of [Node]. *)
Definition node_uses (n : Node) : gset string :=
  uses (statement n) ∪ (match proof n with Some p => uses p | None => ∅ end).

Record Position : Type := mkPosition { line : Z; column : Z }.

Record DeclarationRange : Type := mkRange { pos : Position; end_pos : Position }.

Record DeclarationLocation : Type := mkLocation { module : string; range : DeclarationRange }.

(** [NodeWithPos] extends [Node]. *)
Record NodeWithPos : Type := mkNodeWithPos {
  base :> Node;
  has_lean : bool;
  location : option DeclarationLocation;
  file : option string;
}.

Global Instance NodePart_eq_dec : EqDecision NodePart.
Proof. solve_decision. Defined.
Global Instance Node_eq_dec : EqDecision Node.
Proof. solve_decision. Defined.
Global Instance Position_eq_dec : EqDecision Position.
Proof. solve_decision. Defined.
Global Instance DeclarationRange_eq_dec : EqDecision DeclarationRange.
Proof. solve_decision. Defined.
Global Instance DeclarationLocation_eq_dec : EqDecision DeclarationLocation.
Proof. solve_decision. Defined.
Global Instance NodeWithPos_eq_dec : EqDecision NodeWithPos.
Proof. solve_decision. Defined.

(** ** modify_lean.py: topological_sort *)

Section topological_sort.
Context (set_iter : gset string → list string).

Record SortState : Type := mkSortState {
  visited : gset string;
  result : list (NodeWithPos * string);
}.

(** [{node.name: (node, value) for node, value in data}]: a later entry
    with the same name replaces an earlier one. *)
Definition name_to_node_of (data : list (NodeWithPos * string))
  : gmap string (NodeWithPos * string) :=
  foldl (λ m (d : NodeWithPos * string), <[name d.1 := d]> m) ∅ data.

Section visit.
Context (name_to_node : gmap string (NodeWithPos * string)).

Fixpoint visit (fuel : nat) (nm : string) (st : SortState) : outcome SortState :=
  match fuel with
  | 0 => OutOfFuel
  | S fuel' =>
    if decide (nm ∈ visited st) then Done st
    else
      let st := mkSortState ({[nm]} ∪ visited st) (result st) in
      match (name_to_node !! nm : option (NodeWithPos * string)) with
      | None => Raise (KeyError nm)
      | Some (node, value) =>
        obind
          (for_each
             (λ used st,
                if decide (used ∈ dom name_to_node) then visit fuel' used st
                else Done st)
             (set_iter (node_uses node)) st)
          (λ st, Done (mkSortState (visited st) (result st ++ [(node, value)])))
      end
  end.
End visit.

Definition topological_sort_fuel (fuel : nat) (data : list (NodeWithPos * string))
  : outcome (list (NodeWithPos * string)) :=
  let name_to_node := name_to_node_of data in
  obind
    (for_each (λ (d : NodeWithPos * string) st, visit name_to_node fuel (name d.1) st) data
              (mkSortState ∅ []))
    (λ st, Done (result st)).

(** The recursion of [visit] is never deeper than the number of nodes. *)
Definition topological_sort (data : list (NodeWithPos * string))
  : outcome (list (NodeWithPos * string)) :=
  topological_sort_fuel (S (length data)) data.
End topological_sort.

(** ** Vocabulary for the statements about topological_sort *)

Definition names (l : list (NodeWithPos * string)) : list string :=
  map (λ d : NodeWithPos * string, name d.1) l.

(** A resolved edge [u → v] whose target is a known node: some input node
    named [u] lists [v] among its uses, and [v] names an input node. *)
Definition edge (data : list (NodeWithPos * string)) (u v : string) : Prop :=
  ∃ d : NodeWithPos * string,
    d ∈ data ∧ name d.1 = u ∧ v ∈ node_uses d.1 ∧ v ∈ names data.

Definition acyclic (data : list (NodeWithPos * string)) : Prop :=
  ∀ u, ¬ tc (edge data) u u.

(** [a] occurs in [l] at a position strictly before a position of [b]. *)
Definition before {A} (a b : A) (l : list A) : Prop :=
  ∃ i j : nat, l !! i = Some a ∧ l !! j = Some b ∧ i < j.

(** Nodes that are visited but not yet emitted: the current recursion path. *)
Definition gray (st : SortState) : gset string :=
  visited st ∖ list_to_set (names (result st)).

(** Every emitted node has all its known dependencies emitted before it. *)
Definition ordered (M : gmap string (NodeWithPos * string))
    (l : list (NodeWithPos * string)) : Prop :=
  ∀ l1 (d : NodeWithPos * string) l2, l = l1 ++ d :: l2 →
    ∀ v, v ∈ node_uses d.1 → v ∈ dom M → v ∈ names l1.

Record sort_inv (M : gmap string (NodeWithPos * string)) (st : SortState) : Prop := {
  inv_visited : visited st ⊆ dom M;
  inv_result : ∀ d : NodeWithPos * string, d ∈ result st → M !! name d.1 = Some d;
  inv_nodup : NoDup (names (result st));
  inv_sub : ∀ k, k ∈ names (result st) → k ∈ visited st;
}.

Definition visit_post (M : gmap string (NodeWithPos * string))
    (st st' : SortState) : Prop :=
  sort_inv M st' ∧ visited st ⊆ visited st' ∧ gray st' = gray st ∧
  ∃ new, result st' = result st ++ new.

(** What one call of [visit] guarantees when it is given enough fuel. *)
Definition visit_ok (set_iter : gset string → list string)
    (data : list (NodeWithPos * string)) (fuel : nat) : Prop :=
  let M := name_to_node_of data in
  ∀ nm st, nm ∈ dom M → sort_inv M st → size (dom M ∖ visited st) < fuel →
    ∃ st', visit set_iter M fuel nm st = Done st' ∧ visit_post M st st' ∧
      nm ∈ visited st' ∧
      ((∀ s x, x ∈ set_iter s ↔ x ∈ s) → acyclic data →
       (∀ g, g ∈ gray st → tc (edge data) g nm) →
       ordered M (result st) →
       ordered M (result st') ∧ nm ∈ names (result st')).

(** ** Small concrete graphs used to exercise the statements *)

Definition ex_node (nm : string) (deps : gset string) : NodeWithPos :=
  mkNodeWithPos
    (mkNode nm (mkNodePart true "" deps ∅ "theorem") None false None None)
    false None None.

(** [A] uses [B], [B] uses nothing. *)
Definition ex_chain : list (NodeWithPos * string) :=
  [(ex_node "A" {["B"]}, ""); (ex_node "B" ∅, "")].

(** [A] and [B] use each other; [C] uses [A]. *)
Definition ex_cycle : list (NodeWithPos * string) :=
  [(ex_node "C" {["A"]}, ""); (ex_node "A" {["B"]}, ""); (ex_node "B" {["A"]}, "")].

Definition ex_rank (s : string) : nat := if decide (s = "A") then 1 else 0.

(** ** Python string operations used by the scripts *)

Definition NL : ascii := "010"%char.
Definition nl : string := String NL "".
Definition DQUOTE : ascii := "034"%char.
Definition BACKSLASH : ascii := "092"%char.

(** [str.isspace] on one character, and the class [\s] of [re] for [str]
    patterns (Latin-1 range). *)
Definition is_space (c : ascii) : bool :=
  let n := nat_of_ascii c in
  bool_decide (9 ≤ n ≤ 13) || bool_decide (28 ≤ n ≤ 32)
  || bool_decide (n = 133) || bool_decide (n = 160).

(** The line boundaries of [str.splitlines] (Latin-1 range); the pair
    carriage return, line feed counts as one boundary. *)
Definition is_linebreak (c : ascii) : bool :=
  let n := nat_of_ascii c in
  bool_decide (10 ≤ n ≤ 13) || bool_decide (28 ≤ n ≤ 30) || bool_decide (n = 133).

Fixpoint str_take (n : nat) (s : string) : string :=
  match n, s with
  | S n', String c s' => String c (str_take n' s')
  | _, _ => ""
  end.

Fixpoint str_drop (n : nat) (s : string) : string :=
  match n, s with
  | S n', String _ s' => str_drop n' s'
  | _, _ => s
  end.

(** Normalisation of a slice bound: negative bounds count from the end, and
    every bound is clamped to the string. *)
Definition slice_bound (len : nat) (i : Z) : nat :=
  if decide (i < 0)%Z then Z.to_nat (Z.of_nat len + i)
  else Nat.min (Z.to_nat i) len.

(** [s[:i]], [s[i:]] and [s[i:j]]. *)
Definition slice_to (s : string) (i : Z) : string :=
  str_take (slice_bound (String.length s) i) s.
Definition slice_from (s : string) (i : Z) : string :=
  str_drop (slice_bound (String.length s) i) s.
Definition slice (s : string) (i j : Z) : string :=
  let a := slice_bound (String.length s) i in
  let b := slice_bound (String.length s) j in
  str_take (b - a) (str_drop a s).

(** [s.startswith(p)] *)
Fixpoint startswith (s p : string) {struct p} : bool :=
  match p, s with
  | "", _ => true
  | String a p', String b s' => if decide (a = b) then startswith s' p' else false
  | String _ _, "" => false
  end.

(** [s.removeprefix(p)] *)
Definition removeprefix (s p : string) : string :=
  if startswith s p then str_drop (String.length p) s else s.

(** [p in s] for strings *)
Fixpoint contains (p s : string) : bool :=
  startswith s p ||
  match s with
  | "" => false
  | String _ s' => contains p s'
  end.

Fixpoint lstrip (s : string) : string :=
  match s with
  | "" => ""
  | String c s' => if is_space c then lstrip s' else s
  end.

Fixpoint rstrip (s : string) : string :=
  match s with
  | "" => ""
  | String c s' =>
    match rstrip s' with
    | "" => if is_space c then "" else String c ""
    | r => String c r
    end
  end.

(** [s.strip()] *)
Definition strip (s : string) : string := rstrip (lstrip s).

(** The leading run of whitespace, as matched by a greedy [\s*]. *)
Fixpoint leading_space (s : string) : string :=
  match s with
  | "" => ""
  | String c s' => if is_space c then String c (leading_space s') else ""
  end.

(** [c * n] for a one-character string *)
Fixpoint repeat_char (c : ascii) (n : nat) : string :=
  match n with
  | 0 => ""
  | S n' => String c (repeat_char c n')
  end.

(** [s.replace(old, new)], leftmost non-overlapping occurrences.  [skip]
    counts the characters of an occurrence still to be passed over. *)
Fixpoint replace_go (old new : string) (skip : nat) (s : string) : string :=
  match s with
  | "" => ""
  | String c s' =>
    match skip with
    | S k => replace_go old new k s'
    | 0 =>
      if startswith s old then new +:+ replace_go old new (String.length old - 1) s'
      else String c (replace_go old new 0 s')
    end
  end.

Fixpoint intersperse_all (new s : string) : string :=
  match s with
  | "" => new
  | String c s' => new +:+ String c (intersperse_all new s')
  end.

Definition replace (old new s : string) : string :=
  match old with
  | "" => intersperse_all new s
  | _ => replace_go old new 0 s
  end.

(** [sep.join(l)] *)
Fixpoint join (sep : string) (l : list string) : string :=
  match l with
  | [] => ""
  | [x] => x
  | x :: l' => x +:+ sep +:+ join sep l'
  end.

(** [''.join(l)]: plain concatenation. *)
Fixpoint concat_str (l : list string) : string :=
  match l with
  | [] => ""
  | x :: l' => x +:+ concat_str l'
  end.

(** [s.splitlines(keepends=True)]; [cur] is the line being collected.  A
    carriage return directly followed by a line feed does not end the line:
    the line feed does. *)
Fixpoint splitlines_go (cur : string) (s : string) : list string :=
  match s with
  | "" => match cur with "" => [] | _ => [cur] end
  | String c s' =>
    let cur' := cur +:+ String c "" in
    if is_linebreak c
       && negb (bool_decide (c = "013"%char) && startswith s' nl)
    then cur' :: splitlines_go "" s'
    else splitlines_go cur' s'
  end.

Definition splitlines_keepends (s : string) : list string := splitlines_go "" s.

(** [s.split(sep)] for a one-character separator. *)
Fixpoint split_char_go (sep : ascii) (cur : string) (s : string) : list string :=
  match s with
  | "" => [cur]
  | String c s' =>
    if decide (c = sep) then cur :: split_char_go sep "" s'
    else split_char_go sep (cur +:+ String c "") s'
  end.

Definition split_char (sep : ascii) (s : string) : list string :=
  split_char_go sep "" s.

(** ** common.py: _quote, make_docstring, Node.to_lean_attribute *)

Definition hex_digit (n : nat) : ascii :=
  match n with
  | 0 => "0" | 1 => "1" | 2 => "2" | 3 => "3" | 4 => "4" | 5 => "5" | 6 => "6"
  | 7 => "7" | 8 => "8" | 9 => "9" | 10 => "a" | 11 => "b" | 12 => "c"
  | 13 => "d" | 14 => "e" | _ => "f"
  end%char.

(** One character of [json.dumps(s, ensure_ascii=False)]. *)
Definition json_escape_char (c : ascii) : string :=
  let n := nat_of_ascii c in
  if decide (c = DQUOTE) then String BACKSLASH (String DQUOTE "")
  else if decide (c = BACKSLASH) then String BACKSLASH (String BACKSLASH "")
  else if decide (n = 10) then String BACKSLASH "n"
  else if decide (n = 13) then String BACKSLASH "r"
  else if decide (n = 9) then String BACKSLASH "t"
  else if decide (n = 8) then String BACKSLASH "b"
  else if decide (n = 12) then String BACKSLASH "f"
  else if decide (n < 32) then
    String BACKSLASH ("u00" +:+ String (hex_digit (n / 16)) (String (hex_digit (n mod 16)) ""))
  else String c "".

Fixpoint json_escape (s : string) : string :=
  match s with
  | "" => ""
  | String c s' => json_escape_char c +:+ json_escape s'
  end.

(** [_quote] *)
Definition quote (s : string) : string :=
  String DQUOTE (json_escape s) +:+ String DQUOTE "".

Definition make_docstring (text : string) (indent : nat) : string :=
  let text := strip text in
  let text := replace nl (nl +:+ repeat_char " " indent) text in
  if contains nl text then
    "/--" +:+ nl +:+ repeat_char " " indent +:+ text +:+ nl
      +:+ repeat_char " " indent +:+ "-/"
  else "/-- " +:+ text +:+ " -/".

(** Truth value of a string, of a set and of an optional integer in an [if]. *)
Definition str_truthy (s : string) : bool := negb (bool_decide (s = "")).
Definition set_truthy (s : gset string) : bool := negb (bool_decide (s = ∅)).

(** [configs.append(x)] under a condition. *)
Definition append_if (b : bool) (x : string) (configs : list string) : list string :=
  if b then configs ++ [x] else configs.

Section to_lean_attribute.
Context (set_iter : gset string → list string).

Definition to_lean_attribute (self : Node)
    (add_statement_text add_uses add_uses_raw
     add_proof_text add_proof_uses add_proof_uses_raw : bool) : string :=
  let configs : list string := [] in
  let configs :=
    match title self with
    | Some t => append_if (str_truthy t) (quote t) configs
    | None => configs
    end in
  let configs :=
    append_if (add_statement_text && str_truthy (strip (text (statement self))))
      ("(statement := " +:+ make_docstring (text (statement self)) 2 +:+ ")")
      configs in
  let configs :=
    append_if (add_uses && set_truthy (uses (statement self)))
      ("(uses := [" +:+ join ", " (set_iter (uses (statement self))) +:+ "])")
      configs in
  let configs :=
    append_if (add_uses_raw && set_truthy (uses_raw (statement self)))
      ("(uses := [" +:+ join ", " (quote <$> set_iter (uses_raw (statement self)))
         +:+ "])")
      configs in
  let configs :=
    match proof self with
    | Some p =>
      let configs :=
        append_if (add_proof_text && str_truthy (strip (text p)))
          ("(proof := " +:+ make_docstring (text p) 2 +:+ ")") configs in
      let configs :=
        append_if (add_proof_uses && set_truthy (uses p))
          ("(proofUses := [" +:+ join ", " (set_iter (uses p)) +:+ "])") configs in
      append_if (add_proof_uses_raw && set_truthy (uses_raw p))
        ("(proofUses := [" +:+ join ", " (quote <$> set_iter (uses_raw p)) +:+ "])")
        configs
    | None => configs
    end in
  let configs := append_if (not_ready self) "(notReady := true)" configs in
  let configs :=
    match discussion self with
    | Some z => append_if (negb (bool_decide (z = 0%Z)))
                  ("(discussion := " +:+ pretty z +:+ ")") configs
    | None => configs
    end in
  let configs :=
    append_if
      (match proof self with
       | None => negb (bool_decide (latex_env (statement self) = "definition"))
       | Some _ => negb (bool_decide (latex_env (statement self) = "theorem"))
       end)
      ("(latexEnv := " +:+ quote (latex_env (statement self)) +:+ ")") configs in
  let config := concat_str ((λ config, nl +:+ "  " +:+ config) <$> configs) in
  "blueprint" +:+ config.
End to_lean_attribute.

(** ** The world the scripts act on: files, the log, one warning latch *)

Record World : Type := mkWorld {
  fs : gmap string string;          (* path ↦ content *)
  log : list string;                (* logger.warning messages, oldest first *)
  warned_to_additive : bool;        (* the global of modify_lean.py *)
}.

Definition read_text (path : string) (w : World) : outcome string :=
  match fs w !! path with
  | Some content => Done content
  | None => Raise (FileNotFoundError path)
  end.

Definition write_text (path content : string) (w : World) : World :=
  mkWorld (<[path := content]> (fs w)) (log w) (warned_to_additive w).

Definition warning (msg : string) (w : World) : World :=
  mkWorld (fs w) (log w ++ [msg]) (warned_to_additive w).

(** ** modify_lean.py: split_declaration *)

(** [sum(len(lines[i]) for i in idxs)]; a missing line raises. *)
Fixpoint sum_line_lengths (lines : list string) (idxs : list nat) : outcome Z :=
  match idxs with
  | [] => Done 0%Z
  | i :: idxs' =>
    match lines !! i with
    | None => Raise IndexError
    | Some l =>
      obind (sum_line_lengths lines idxs')
            (λ s, Done (Z.of_nat (String.length l) + s)%Z)
    end
  end.

(** [sum(len(lines[i]) for i in range(p.line - 1)) + p.column] *)
Definition offset_of (lines : list string) (p : Position) : outcome Z :=
  obind (sum_line_lengths lines (seq 0 (Z.to_nat (line p - 1))))
        (λ s, Done (s + column p)%Z).

Definition split_declaration (source : string) (pos end_pos : Position)
  : outcome (string * string * string) :=
  let lines := splitlines_keepends source in
  obind (offset_of lines pos) (λ start,
  obind (offset_of lines end_pos) (λ end_,
  Done (slice_to source start, slice source start end_, slice_from source end_))).

(** ** modify_lean.py: insert_docstring_and_attribute *)

Definition is_ident_char (c : ascii) : bool :=
  let n := nat_of_ascii c in
  bool_decide (65 ≤ n ≤ 90) || bool_decide (97 ≤ n ≤ 122) || bool_decide (n = 95).

(** The text cut after every line feed. *)
Fixpoint lines_nl_go (cur : string) (s : string) : list string :=
  match s with
  | "" => match cur with "" => [] | _ => [cur] end
  | String c s' =>
    if decide (c = NL) then (cur +:+ String c "") :: lines_nl_go "" s'
    else lines_nl_go (cur +:+ String c "") s'
  end.

Definition lines_nl (s : string) : list string := lines_nl_go "" s.

Fixpoint endswith (s p : string) : bool :=
  bool_decide (s = p) ||
  match s with
  | "" => false
  | String _ s' => endswith s' p
  end.

(** One iteration of [[a-zA-Z_]+.*?in\n]: a whole line that starts with a
    letter or underscore and ends in [in] followed by the line feed, the [in]
    not being its first character. *)
Definition modifier_line (l : string) : bool :=
  match l with
  | String c l' => is_ident_char c && endswith l' ("in" +:+ nl)
  | "" => false
  end.

Fixpoint take_while {A} (p : A → bool) (l : list A) : list A :=
  match l with
  | [] => []
  | x :: l' => if p x then x :: take_while p l' else []
  end.

(** [re.search(r"^(?:[a-zA-Z_]+.*?in\n)+", decl)]: group 0, if it matches. *)
Definition match_command_modifiers (decl : string) : option string :=
  match take_while modifier_line (lines_nl decl) with
  | [] => None
  | ls => Some (concat_str ls)
  end.

(** A lazy [.*?] (with DOTALL) followed by the two-character literal [a b]:
    the text before the first occurrence, and the text after it. *)
Fixpoint until_pair (a b : ascii) (s : string) : option (string * string) :=
  match s with
  | "" => None
  | String c s' =>
    if bool_decide (c = a) && startswith s' (String b "") then Some ("", str_drop 1 s')
    else match until_pair a b s' with
         | Some (body, rest) => Some (String c body, rest)
         | None => None
         end
  end.

(** A lazy [.*?] (with DOTALL) followed by the literal character [a]. *)
Fixpoint until_char (a : ascii) (s : string) : option (string * string) :=
  match s with
  | "" => None
  | String c s' =>
    if decide (c = a) then Some ("", s')
    else match until_char a s' with
         | Some (body, rest) => Some (String c body, rest)
         | None => None
         end
  end.

(** [re.search(r"^\s*/--(.*?)-/\s*", decl, flags=re.DOTALL)]: groups 0 and 1. *)
Definition match_docstring (decl : string) : option (string * string) :=
  let ws := leading_space decl in
  let s1 := str_drop (String.length ws) decl in
  if startswith s1 "/--" then
    match until_pair "-" "/" (str_drop 3 s1) with
    | Some (body, rest) =>
      Some (ws +:+ "/--" +:+ body +:+ "-/" +:+ leading_space rest, body)
    | None => None
    end
  else None.

(** [re.search(r"^\s*@\[(.*?)\]\s*", decl, flags=re.DOTALL)]: groups 0 and 1. *)
Definition match_attributes (decl : string) : option (string * string) :=
  let ws := leading_space decl in
  let s1 := str_drop (String.length ws) decl in
  if startswith s1 "@[" then
    match until_char "]" (str_drop 2 s1) with
    | Some (body, rest) =>
      Some (ws +:+ "@[" +:+ body +:+ "]" +:+ leading_space rest, body)
    | None => None
    end
  else None.

Definition to_additive_warning : string :=
  "Encountered additive declaration(s) generated from @[to_additive]. " +:+
  "This script currently adds a placeholder, which is likely incorrect. You may decide to:" +:+ nl +:+
  "- Add only the additive declaration in the blueprint by `attribute [blueprint] additive_name`" +:+ nl +:+
  "- Add only the multiplicative declaration in the blueprint by `@[to_additive, blueprint]`" +:+ nl +:+
  "- (Current) add both in the blueprint by `@[to_additive (attr := blueprint)]`".

Definition insert_docstring_and_attribute (decl new_docstring new_attr : string)
    (w : World) : string * World :=
  let '(command_modifiers, decl) :=
    match match_command_modifiers decl with
    | Some g0 => (g0, removeprefix decl g0)
    | None => ("", decl)
    end in
  let '(docstring, decl) :=
    match match_docstring decl with
    | Some (g0, g1) => (new_docstring +:+ nl +:+ nl +:+ strip g1, removeprefix decl g0)
    | None => (new_docstring, decl)
    end in
  let '(attrs, decl) :=
    match match_attributes decl with
    | Some (g0, g1) => (g1 +:+ ", " +:+ new_attr, removeprefix decl g0)
    | None => (new_attr, decl)
    end in
  let docstring :=
    if str_truthy (strip docstring) then make_docstring docstring 0 else docstring in
  if startswith decl "to_additive" then
    let w :=
      if warned_to_additive w then w
      else warning to_additive_warning (mkWorld (fs w) (log w) true) in
    let decl := strip (removeprefix decl "to_additive") in
    let decl := if str_truthy decl then decl +:+ " " else decl in
    ("to_additive (attr := " +:+ attrs +:+ ") " +:+ decl +:+ docstring, w)
  else
    (command_modifiers +:+ docstring +:+ nl +:+ "@[" +:+ attrs +:+ "]" +:+ nl +:+ decl, w).

(** ** modify_lean.py: modify_source *)

Section modify_lean.
Context (set_iter : gset string → list string).

Definition is_some {A} (o : option A) : bool :=
  match o with Some _ => true | None => false end.

Definition modify_source (node : Node) (file : string)
    (location : DeclarationLocation) (add_uses : bool)
    (prepend : option (list string)) (w : World) : outcome World :=
  obind (read_text file w) (λ source,
  obind (split_declaration source (pos (range location)) (end_pos (range location)))
    (λ '(pre, decl, post),
  let add_uses := add_uses || (negb (is_some (proof node)) && contains "sorry" decl) in
  let add_uses_raw := add_uses || set_truthy (uses_raw (statement node)) in
  let add_proof_uses := add_uses || (is_some (proof node) && contains "sorry" decl) in
  let add_proof_uses_raw :=
    add_uses ||
    match proof node with
    | Some p => set_truthy (uses_raw p)
    | None => false
    end in
  let attr :=
    to_lean_attribute set_iter node false add_uses add_uses_raw true
      add_proof_uses add_proof_uses_raw in
  let '(decl, w) :=
    insert_docstring_and_attribute decl (text (statement node)) attr w in
  let decl :=
    match prepend with
    | Some ps => concat_str ((λ p, p +:+ nl +:+ nl) <$> ps) +:+ decl
    | None => decl
    end in
  Done (write_text file (pre +:+ decl +:+ post) w))).

(** ** modify_lean.py: add_blueprint_gen_import *)

(** The index chosen by the loop over [enumerate(lines)]: that of the first
    line starting with [import ] or [public import ], else 0. *)
Fixpoint first_import_index_from (i : nat) (lines : list string) : nat :=
  match lines with
  | [] => 0
  | l :: lines' =>
    if startswith l "import " || startswith l "public import " then i
    else first_import_index_from (S i) lines'
  end.

Definition add_import_text (source : string) : string :=
  let lines := splitlines_keepends source in
  let first_import_index := first_import_index_from 0 lines in
  let lines :=
    take first_import_index lines ++ ["import Architect" +:+ nl]
      ++ drop first_import_index lines in
  concat_str lines.

Definition add_blueprint_gen_import (file : string) (w : World) : outcome World :=
  obind (read_text file w) (λ source,
  Done (write_text file (add_import_text source) w)).

(** ** modify_lean.py: write_blueprint_attributes *)

Definition location_key (n : NodeWithPos) : string * Z :=
  match location n with
  | Some loc => (module loc, line (pos (range loc)))
  | None => ("", 0%Z)
  end.

(** Order on the sort keys: tuples compare lexicographically, strings by
    code point. *)
Definition key_lt (a b : string * Z) : bool :=
  match String.compare a.1 b.1 with
  | Lt => true
  | Gt => false
  | Eq => (a.2 <? b.2)%Z
  end.

(** [sorted(nodes, key=..., reverse=True)]: descending, and stable. *)
Fixpoint insert_desc (x : NodeWithPos) (l : list NodeWithPos) : list NodeWithPos :=
  match l with
  | [] => [x]
  | y :: l' =>
    if key_lt (location_key x) (location_key y) then y :: insert_desc x l'
    else x :: l
  end.

Definition sorted_by_location_reverse (nodes : list NodeWithPos) : list NodeWithPos :=
  foldr insert_desc [] nodes.

Definition all_uses (p : NodePart) : list string :=
  set_iter (uses p) ++ (quote <$> set_iter (uses_raw p)).

Definition is_upstream_or_informal (modules : list string) (node : NodeWithPos) : bool :=
  match location node with
  | None => true
  | Some loc =>
    negb (existsb (λ m, bool_decide (hd "" (split_char "." (module loc)) = m)) modules)
  end.

Definition upstream_or_informal_to_lean (node : NodeWithPos) : string :=
  match location node with
  | Some _ =>
    "attribute [" +:+ to_lean_attribute set_iter node true true true true true true
      +:+ "] " +:+ name node
  | None =>
    let lean := "" in
    let lean :=
      if str_truthy (strip (text (statement node)))
      then lean +:+ make_docstring (text (statement node)) 0 +:+ nl
      else lean in
    let lean :=
      lean +:+ "@[" +:+
      to_lean_attribute set_iter node false false true false false true
      +:+ "]" +:+ nl in
    match proof node with
    | None =>
      let lean := lean +:+ "def " +:+ name node +:+ " : (sorry : Type) :=" +:+ nl in
      lean +:+ "  sorry_using [" +:+ join ", " (all_uses (statement node)) +:+ "]"
    | Some p =>
      let lean :=
        lean +:+ "theorem " +:+ name node +:+ " : (sorry_using ["
        +:+ join ", " (all_uses p) +:+ "] : Prop) := by" +:+ nl in
      let lean :=
        if str_truthy (strip (text p))
        then lean +:+ "  " +:+ make_docstring (text p) 2 +:+ nl
        else lean in
      lean +:+ "  sorry_using [" +:+ join ", " (all_uses (statement node)) +:+ "]"
    end
  end.
End modify_lean.

Section write_blueprint_attributes.
Context (set_iter : gset string → list string).

(** [l[l.index(x):]] *)
Fixpoint from_index (x : NodeWithPos) (l : list NodeWithPos)
  : outcome (list NodeWithPos) :=
  match l with
  | [] => Raise ValueError
  | y :: l' => if decide (y = x) then Done l else from_index x l'
  end.

Record Plan : Type := mkPlan {
  prepends : gmap string (list string);
  extra_nodes : list string;
}.

(** The body of the planning loop, for one node of the topological order. *)
Definition plan_node (modules : list string) (topo : list NodeWithPos)
    (node : NodeWithPos) (pl : Plan) : outcome Plan :=
  if is_upstream_or_informal modules node then
    obind (from_index node topo) (λ rest,
    match
      find (λ normal_node : NodeWithPos,
              negb (is_upstream_or_informal modules normal_node)
              && bool_decide (name node ∈ node_uses normal_node)) rest
    with
    | Some normal_node =>
      match prepends pl !! name normal_node with
      | Some ps =>
        Done (mkPlan (<[name normal_node :=
                         ps ++ [upstream_or_informal_to_lean set_iter node]]>
                        (prepends pl))
                     (extra_nodes pl))
      | None => Raise (KeyError (name normal_node))
      end
    | None =>
      Done (mkPlan (prepends pl)
                   (extra_nodes pl ++ [upstream_or_informal_to_lean set_iter node]))
    end)
  else Done pl.

Definition plan_prepends (modules : list string) (nodes topo : list NodeWithPos)
  : outcome Plan :=
  for_each (plan_node modules topo) topo
    (mkPlan (foldl (λ m (n : NodeWithPos), <[name n := []]> m) ∅ nodes) []).

(** The body of the main loop, for one node in reverse location order; the
    state is the set [modified_files] and the world. *)
Definition splice_node (modules : list string) (add_uses : bool) (pl : Plan)
    (node : NodeWithPos) (st : gset string * World) : outcome (gset string * World) :=
  if is_upstream_or_informal modules node then Done st
  else
    match has_lean node, file node, location node with
    | true, Some f, Some loc =>
      match prepends pl !! name node with
      | None => Raise (KeyError (name node))
      | Some ps =>
        obind (modify_source set_iter node f loc add_uses (Some ps) st.2)
              (λ w, Done ({[f]} ∪ st.1, w))
      end
    | _, _, _ => Raise AssertionError
    end.

Definition splice_loop (modules : list string) (add_uses : bool) (pl : Plan)
    (nodes_location_order : list NodeWithPos) (w : World)
  : outcome (gset string * World) :=
  for_each (splice_node modules add_uses pl) nodes_location_order (∅, w).

(** [for file in modified_files: add_blueprint_gen_import(Path(file))] *)
Definition import_loop (modified_files : gset string) (w : World) : outcome World :=
  for_each add_blueprint_gen_import (set_iter modified_files) w.

Definition write_extra_nodes (root_file : string) (extra : list string) (w : World)
  : World :=
  match extra with
  | [] => w
  | _ =>
    let w :=
      warning ("Outputting some nodes to" +:+ nl +:+ "  " +:+ root_file +:+ nl +:+
               "You may want to move them to appropriate locations.") w in
    let imports := "import Architect" in
    let existing := default "" (fs w !! root_file) in
    write_text root_file
      (existing +:+ imports +:+ nl +:+ nl +:+ join (nl +:+ nl) extra +:+ nl) w
  end.

Definition write_blueprint_attributes (nodes : list NodeWithPos)
    (modules : list string) (root_file : string)
    (convert_informal add_uses : bool) (w : World) : outcome World :=
  let nodes_location_order := sorted_by_location_reverse nodes in
  obind (topological_sort set_iter ((λ n, (n, "")) <$> nodes)) (λ sorted,
  let nodes_topological_order := fst <$> sorted in
  obind (plan_prepends modules nodes nodes_topological_order) (λ pl,
  obind (splice_loop modules add_uses pl nodes_location_order w) (λ '(modified_files, w),
  obind (import_loop modified_files w) (λ w,
  Done (write_extra_nodes root_file (extra_nodes pl) w))))).
End write_blueprint_attributes.

(** ** Vocabulary for the statements about the source splicer *)

(** The absolute offset of a position: the lengths of all full lines before
    its (1-indexed) line, plus its column. *)
Definition absolute_offset (source : string) (p : Position) : nat :=
  sum_list (String.length <$> take (Z.to_nat (line p - 1)) (splitlines_keepends source))
  + Z.to_nat (column p).

Definition ex_source : string :=
  "import Foo" +:+ nl +:+ nl +:+ "theorem a : True := by" +:+ nl +:+ "  trivial" +:+ nl
  +:+ nl +:+ "def tail := 1" +:+ nl.

Definition ex_location : DeclarationLocation :=
  mkLocation "Proj.Basic" (mkRange (mkPosition 3 0) (mkPosition 4 9)).

Definition ex_world : World := mkWorld {["Proj/Basic.lean" := ex_source]} [] false.

(** ** Regular-expression scanning

    Every pattern of the scripts is embedded as a matcher that, given the text
    at the current position, returns what the pattern captures there and the
    (positive) length of the match.  The functions below are the left-to-right
    scans of [re.sub] and [re.findall] over non-overlapping matches; [skip]
    counts the characters of the current match still to be passed over. *)

Fixpoint re_findall_go {A} (matcher : string → option (A * nat)) (skip : nat)
    (s : string) : list A :=
  match s with
  | "" => []
  | String _ s' =>
    match skip with
    | S k => re_findall_go matcher k s'
    | 0 =>
      match matcher s with
      | Some (g, len) => g :: re_findall_go matcher (len - 1) s'
      | None => re_findall_go matcher 0 s'
      end
    end
  end.

Definition re_findall {A} (matcher : string → option (A * nat)) (s : string) : list A :=
  re_findall_go matcher 0 s.

(** [re.sub(pattern, repl, s, count)] where [repl] is a function of the
    capture; [limit = None] stands for [count=0] (replace all). *)
Fixpoint re_sub_go {A} (matcher : string → option (A * nat)) (repl : A → string)
    (limit : option nat) (skip : nat) (s : string) : string :=
  match s with
  | "" => ""
  | String c s' =>
    match skip with
    | S k => re_sub_go matcher repl limit k s'
    | 0 =>
      match limit with
      | Some 0 => s
      | _ =>
        match matcher s with
        | Some (g, len) =>
          repl g +:+ re_sub_go matcher repl (Nat.pred <$> limit) (len - 1) s'
        | None => String c (re_sub_go matcher repl limit 0 s')
        end
      end
    end
  end.

Definition re_sub {A} (matcher : string → option (A * nat)) (repl : A → string)
    (limit : option nat) (s : string) : string :=
  re_sub_go matcher repl limit 0 s.

(** [re.sub] with a replacement callback that has effects on a state. *)
Fixpoint re_sub_with_go {A S} (matcher : string → option (A * nat))
    (repl : A → S → outcome (string * S)) (skip : nat) (s : string) (st : S)
  : outcome (string * S) :=
  match s with
  | "" => Done ("", st)
  | String c s' =>
    match skip with
    | S k => re_sub_with_go matcher repl k s' st
    | 0 =>
      match matcher s with
      | Some (g, len) =>
        obind (repl g st) (λ '(r, st),
        obind (re_sub_with_go matcher repl (len - 1) s' st) (λ '(out, st),
        Done (r +:+ out, st)))
      | None =>
        obind (re_sub_with_go matcher repl 0 s' st) (λ '(out, st),
        Done (String c out, st))
      end
    end
  end.

(** The pattern for a directive with an argument, at the start of [s]: a
    backslash, the command name, optional whitespace and a brace group that
    runs to the first closing brace.  Returns the captured argument and the
    length of the match. *)
Definition match_command_argument (command : string) (s : string)
  : option (string * nat) :=
  let head := String BACKSLASH command in
  if startswith s head then
    let r := str_drop (String.length head) s in
    let ws := leading_space r in
    match str_drop (String.length ws) r with
    | String c r' =>
      if decide (c = "{"%char) then
        match until_char "}" r' with
        | Some (arg, _) =>
          Some (arg, String.length head + String.length ws + 1 + String.length arg + 1)
        | None => None
        end
      else None
    | "" => None
    end
  else None.

(** ** parse_latex.py: read_latex_file *)

Section read_latex_file.
Context {Path : Type} `{Countable Path}.
Context (parent : Path → Path) (joinpath : Path → string → Path).
Context (show_path : Path → string).

Record ReadState : Type := mkReadState {
  seen : gset Path;
  read_log : list string;
}.

Section with_files.
Context (files : gmap Path string) (root_dir : Path).

Fixpoint _read (fuel : nat) (file : Path) (st : ReadState)
  : outcome (string * ReadState) :=
  match fuel with
  | 0 => OutOfFuel
  | S fuel' =>
    if decide (file ∈ seen st) then
      Done ("", mkReadState (seen st)
                  (read_log st ++
                   ["Circular \input detected for file: " +:+ show_path file]))
    else
      let st := mkReadState ({[file]} ∪ seen st) (read_log st) in
      match files !! file with
      | None => Raise (FileNotFoundError (show_path file))
      | Some text =>
        let replace_input (group1 : string) (st : ReadState) :=
          let input_path := strip group1 in
          let input_path :=
            if endswith input_path ".tex" then input_path
            else input_path +:+ ".tex" in
          let input_file := joinpath root_dir input_path in
          match files !! input_file with
          | None =>
            Done ("", mkReadState (seen st)
                        (read_log st ++
                         ["\input file not found: " +:+ show_path input_file]))
          | Some _ => _read fuel' input_file st
          end in
        re_sub_with_go (match_command_argument "input") replace_input 0 text st
      end
  end.
End with_files.

Definition read_latex_file_fuel (fuel : nat) (files : gmap Path string) (file : Path)
  : outcome (string * list string) :=
  let root_dir := parent file in
  obind (_read files root_dir fuel file (mkReadState ∅ []))
        (λ '(text, st), Done (text, read_log st)).

(** Every nested call adds a file of the file system to [seen]. *)
Definition read_latex_file (files : gmap Path string) (file : Path)
  : outcome (string * list string) :=
  read_latex_file_fuel (S (size files)) files file.
End read_latex_file.

(** A concrete reading of paths for the examples: a path is its text, the
    parent is the text before the last slash, joining puts a slash between. *)
Fixpoint ex_parent (p : string) : string :=
  match p with
  | "" => ""
  | String c p' =>
    if contains "/" p' then String c (ex_parent p') else ""
  end.

Definition ex_join (dir p : string) : string := dir +:+ "/" +:+ p.

Definition ex_files : gmap string string :=
  {[ "doc/web.tex" := String BACKSLASH "input{a}-" +:+ String BACKSLASH "input{a}";
     "doc/a.tex" := "X" ]}.

(** A nested file in a sub-directory names [part] in its inclusion. *)
Definition ex_nested (stray : string) : gmap string string :=
  {[ "doc/web.tex" := "<" +:+ String BACKSLASH "input{sub/ch}>";
     "doc/sub/ch.tex" := "[" +:+ String BACKSLASH "input{part}]";
     "doc/part.tex" := "root" ;
     "doc/sub/part.tex" := stray ]}.

(** ** parse_latex.py: the directive extractor *)

(** The class [\w] of [re] for [str] patterns (Latin-1 range). *)
Definition is_word_char (c : ascii) : bool :=
  let n := nat_of_ascii c in
  bool_decide (48 ≤ n ≤ 57) || bool_decide (65 ≤ n ≤ 90) || bool_decide (97 ≤ n ≤ 122)
  || bool_decide (n = 95) || bool_decide (n = 170) || bool_decide (n = 178)
  || bool_decide (n = 179) || bool_decide (n = 181) || bool_decide (n = 185)
  || bool_decide (n = 186) || bool_decide (188 ≤ n ≤ 190)
  || bool_decide (192 ≤ n ≤ 214) || bool_decide (216 ≤ n ≤ 246)
  || bool_decide (248 ≤ n ≤ 255).

Fixpoint last_char (s : string) : option ascii :=
  match s with
  | "" => None
  | String c "" => Some c
  | String _ s' => last_char s'
  end.

Definition word_at (c : option ascii) : bool :=
  match c with Some c => is_word_char c | None => false end.

Definition first_char (s : string) : option ascii :=
  match s with String c _ => Some c | "" => None end.

(** The pattern for a marker directive at the start of [s]: a backslash, the
    command name, and a word boundary. *)
Definition match_command (command : string) (s : string) : option (unit * nat) :=
  let head := String BACKSLASH command in
  if startswith s head
     && xorb (word_at (last_char head))
             (word_at (first_char (str_drop (String.length head) s)))
  then Some ((), String.length head)
  else None.

Definition find_and_remove_command (command source : string) : bool * string :=
  let found :=
    match re_findall (match_command command) source with
    | [] => false
    | _ => true
    end in
  (found, re_sub (match_command command) (λ _, "") None source).

Definition find_and_remove_command_arguments (command source : string)
    (sub_count : nat) : list string * string :=
  let matches := re_findall (match_command_argument command) source in
  let values := mjoin ((λ m, strip <$> split_char "," m) <$> matches) in
  let source :=
    re_sub (match_command_argument command) (λ _, "")
      (match sub_count with 0 => None | n => Some n end) source in
  (values, source).

(** Returns the first argument, the remaining source and the extended log. *)
Definition find_and_remove_command_argument (command source : string)
    (log : list string) : option string * string * list string :=
  let '(args, source) := find_and_remove_command_arguments command source 1 in
  let log :=
    if decide (1 < length args) then
      log ++ ["Multiple " +:+ String BACKSLASH command +:+ " arguments found: "
              +:+ join ", " args +:+ "; only using the first one."]
    else log in
  (head args, source, log).

Record SourceInfo : Type := mkSourceInfo {
  info_label : option string;
  info_uses : list string;
  info_alsoIn : list string;
  info_proves : option string;
  info_leanok : bool;
  info_notready : bool;
  info_mathlibok : bool;
  info_lean : option string;
  info_discussion : option Z;
}.

(** The closing of an environment named [nm] at the start of [s]: the text
    [\end], optional whitespace, and the name in braces.  Returns its length. *)
Definition match_end_at (nm : string) (s : string) : option nat :=
  let head := String BACKSLASH "end" in
  if startswith s head then
    let r := str_drop (String.length head) s in
    let ws := leading_space r in
    let closing := "{" +:+ nm +:+ "}" in
    if startswith (str_drop (String.length ws) r) closing
    then Some (String.length head + String.length ws + String.length closing)
    else None
  else None.

(** A lazy run of arbitrary characters up to the first closing of [nm]: the
    number of characters up to the end of that closing. *)
Fixpoint find_end (nm : string) (s : string) : option nat :=
  match match_end_at nm s with
  | Some n => Some n
  | None =>
    match s with
    | "" => None
    | String _ s' => S <$> find_end nm s'
    end
  end.

(** The lazy group for the environment name, with its back-reference: the
    name is the shortest text [cur] before a closing brace for which a closing
    of [cur] follows.  Returns the number of characters from the start of the
    name to the end of the match. *)
Fixpoint match_env_name (cur : string) (s : string) : option nat :=
  match s with
  | "" => None
  | String c s' =>
    let longer := S <$> match_env_name (cur +:+ String c "") s' in
    if decide (c = "}"%char) then
      match find_end cur s' with
      | Some n => Some (S n)
      | None => longer
      end
    else longer
  end.

(** The pattern of [remove_environments] at the start of [s]: [\begin],
    optional whitespace, a braced name, anything, and the closing of that
    name. *)
Definition match_environment (s : string) : option (unit * nat) :=
  let head := String BACKSLASH "begin" in
  if startswith s head then
    let r := str_drop (String.length head) s in
    let ws := leading_space r in
    match str_drop (String.length ws) r with
    | String c r' =>
      if decide (c = "{"%char) then
        match match_env_name "" r' with
        | Some n => Some ((), String.length head + String.length ws + 1 + n)
        | None => None
        end
      else None
    | "" => None
    end
  else None.

Definition remove_environments (source : string) : string :=
  re_sub match_environment (λ _, "") None source.

(** [int(s)] for a string: surrounding whitespace, an optional sign, decimal
    digits with single underscores between digits.  [ValueError] otherwise, and
    beyond the interpreter's default limit of 4300 digits. *)
Definition digit_value (c : ascii) : option Z :=
  let n := nat_of_ascii c in
  if bool_decide (48 ≤ n ≤ 57) then Some (Z.of_nat (n - 48)) else None.

Fixpoint parse_digits (acc : Z) (after_digit : bool) (s : string) : option Z :=
  match s with
  | "" => if after_digit then Some acc else None
  | String c s' =>
    match digit_value c with
    | Some d => parse_digits (10 * acc + d) true s'
    | None =>
      if bool_decide (c = "_"%char) && after_digit then parse_digits acc false s'
      else None
    end
  end.

Fixpoint count_digits (s : string) : nat :=
  match s with
  | "" => 0
  | String c s' => (if is_some (digit_value c) then 1 else 0) + count_digits s'
  end.

Definition py_int (s : string) : outcome Z :=
  let t := strip s in
  let parsed :=
    match t with
    | String c r =>
      if decide (c = "-"%char) then Z.opp <$> parse_digits 0 false r
      else if decide (c = "+"%char) then parse_digits 0 false r
      else parse_digits 0 false t
    | "" => None
    end in
  match parsed with
  | Some z => if decide (count_digits t ≤ 4300) then Done z else Raise ValueError
  | None => Raise ValueError
  end.

Definition try_int (s : option string) : outcome (option Z) :=
  match s with
  | None => Done None
  | Some s =>
    match py_int s with
    | Done z => Done (Some z)
    | Raise ValueError => Done None
    | Raise e => Raise e
    | OutOfFuel => OutOfFuel
    end
  end.

(** The text the f-string puts between the braces of [\label{...}]. *)
Definition show_optional (o : option string) : string := default "None" o.

Definition parse_and_remove_blueprint_commands (source : string) (log : list string)
  : outcome (SourceInfo * string * list string) :=
  let '(label, _, log) :=
    find_and_remove_command_argument "label" (remove_environments source) log in
  let source :=
    replace (String BACKSLASH "label{" +:+ show_optional label +:+ "}") "" source in
  let '(uses, source) := find_and_remove_command_arguments "uses" source 0 in
  let '(alsoIn, source) := find_and_remove_command_arguments "alsoIn" source 0 in
  let '(proves, source, log) := find_and_remove_command_argument "proves" source log in
  let '(leanok, source) := find_and_remove_command "leanok" source in
  let '(notready, source) := find_and_remove_command "notready" source in
  let '(mathlibok, source) := find_and_remove_command "mathlibok" source in
  let '(lean, source, log) := find_and_remove_command_argument "lean" source log in
  let '(discussion, source, log) :=
    find_and_remove_command_argument "discussion" source log in
  let source := strip source in
  obind (try_int discussion) (λ discussion,
  Done (mkSourceInfo label uses alsoIn proves leanok notready mathlibok lean discussion,
        source, log)).

(** [(?<!\\)~] replaced by a space: a tilde not preceded by a backslash. *)
Fixpoint replace_tildes (after_backslash : bool) (s : string) : string :=
  match s with
  | "" => ""
  | String c s' =>
    String (if bool_decide (c = "~"%char) && negb after_backslash then " "%char else c)
           (replace_tildes (bool_decide (c = BACKSLASH)) s')
  end.

Definition remove_nonbreaking_spaces (source : string) : string :=
  strip (replace_tildes false source).

Definition process_source (source : string) (log : list string)
  : outcome (SourceInfo * string * list string) :=
  parse_and_remove_blueprint_commands (remove_nonbreaking_spaces source) log.

(** ** parse_latex.py: the label resolver *)

Section label_resolver.
Context (set_iter : gset string → list string).

(** The alternation of reference commands, tried in the order written. *)
Definition ref_commands : list string :=
  ["ref"; "cref"; "Cref"; "vref"; "eqref"; "autoref"].

Fixpoint match_first_command (commands : list string) (s : string)
  : option (string * nat) :=
  match commands with
  | [] => None
  | c :: commands' =>
    match match_command_argument c s with
    | Some r => Some r
    | None => match_first_command commands' s
    end
  end.

(** [label_to_node] maps a label to the name of its node: a node object is
    identified by its (unique) name. *)
Definition replace_ref (label_to_node : gmap string string) (group1 : string) : string :=
  let labels := strip <$> split_char "," group1 in
  let output :=
    (λ label,
       match label_to_node !! label with
       | Some nm => String BACKSLASH "verb|" +:+ nm +:+ "|"
       | None =>
         if contains "_" label then String BACKSLASH "verb|" +:+ label +:+ "|"
         else String BACKSLASH "ref{" +:+ label +:+ "}"
       end) <$> labels in
  join ", " output.

Definition convert_ref_to_verb (source : string) (label_to_node : gmap string string)
  : string :=
  strip (re_sub (match_first_command ref_commands) (replace_ref label_to_node) None source).

Definition convert_latex_label_to_lean_name (node_part : NodePart)
    (label_to_node : gmap string string) : NodePart :=
  let '(uses', uses_raw') :=
    foldl (λ '(us, raw) use,
             match label_to_node !! use with
             | Some used => ({[used]} ∪ us, raw ∖ {[use]})
             | None => (us, raw)
             end)
          (uses node_part, uses_raw node_part)
          (set_iter (uses_raw node_part)) in
  mkNodePart (lean_ok node_part)
    (convert_ref_to_verb (text node_part) label_to_node)
    uses' uses_raw' (latex_env node_part).
End label_resolver.

(** ** parse_latex.py: parse_nodes

    The scan of the document by [ENV_PATTERN.finditer] is an input of the
    embedding: [matches] lists its matches in document order, each with the
    three groups, the matched text, and the text that precedes the match on
    its line.  So is the list [depgraph_thm_types] read from the document's
    package options, and the random naming of [generate_new_lean_name]. *)

Record EnvMatch : Type := mkEnvMatch {
  m_env : string;
  m_title : option string;
  m_content : string;
  m_group0 : string;
  m_line_before : string;
}.

Record ParseState : Type := mkParseState {
  nodes : list string;                           (* names, in order of creation *)
  name_to_node : gmap string Node;               (* the node objects *)
  label_to_node : gmap string string;            (* label ↦ name of the node *)
  match_idx_to_node : gmap Z (option string);
  name_to_raw_sources : gmap string (list string);
  parse_log : list string;
}.

Section parse_nodes.
Context (set_iter : gset string → list string).
Context (generate_new_lean_name : gset string → option string → string).
Context (depgraph_thm_types : list string) (convert_informal : bool).

Definition commented_out (m : EnvMatch) : bool :=
  contains "%" (strip (m_line_before m)).

(** The body of the first loop, for the match of index [i]. *)
Definition parse_statement (i : Z) (m : EnvMatch) (st : ParseState)
  : outcome ParseState :=
  if negb (bool_decide (m_env m ∈ depgraph_thm_types)) then Done st
  else if commented_out m then Done st
  else
    obind (process_source (m_content m) (parse_log st))
      (λ '(source_info, node_source, log),
    let named :=
      match info_lean source_info with
      | Some nm =>
        Some (nm,
              match info_label source_info with
              | None => log ++ ["Did not find a LaTeX label for " +:+ nm]
              | Some _ => log
              end)
      | None =>
        if negb convert_informal then None
        else Some (generate_new_lean_name (dom (name_to_node st))
                     (info_label source_info), log)
      end in
    match named with
    | None =>
      Done (mkParseState (nodes st) (name_to_node st) (label_to_node st)
              (<[i := None]> (match_idx_to_node st))
              (name_to_raw_sources st) log)
    | Some (nm, log) =>
      let raw :=
        <[nm := default [] (name_to_raw_sources st !! nm) ++ [m_group0 m]]>
          (name_to_raw_sources st) in
      let '(nodes', name_to_node', log) :=
        match name_to_node st !! nm with
        | Some _ =>
          (nodes st, name_to_node st,
           log ++ ["Lean name " +:+ quote nm
                   +:+ " occurs in blueprint multiple times; only keeping the first."])
        | None =>
          let statement :=
            mkNodePart (info_leanok source_info) node_source ∅
              (list_to_set (info_uses source_info)) (m_env m) in
          let node :=
            mkNode nm statement None (info_notready source_info)
              (info_discussion source_info) (m_title m) in
          (nodes st ++ [nm], <[nm := node]> (name_to_node st), log)
        end in
      Done (mkParseState nodes' name_to_node'
              (match info_label source_info with
               | Some l => <[l := nm]> (label_to_node st)
               | None => label_to_node st
               end)
              (<[i := Some nm]> (match_idx_to_node st))
              raw log)
    end).

(** The body of the second loop, for the match of index [i]. *)
Definition parse_proof (i : Z) (m : EnvMatch) (st : ParseState)
  : outcome ParseState :=
  if negb (bool_decide (m_env m = "proof")) then Done st
  else if commented_out m then Done st
  else
    obind (process_source (m_content m) (parse_log st))
      (λ '(source_info, node_source, log),
    let st := mkParseState (nodes st) (name_to_node st) (label_to_node st)
                (match_idx_to_node st) (name_to_raw_sources st) log in
    let attach (proved : string) : outcome ParseState :=
      match name_to_node st !! proved, name_to_raw_sources st !! proved with
      | Some node, Some raws =>
        let proof_part :=
          mkNodePart (info_leanok source_info) node_source ∅
            (list_to_set (info_uses source_info)) (m_env m) in
        let node :=
          mkNode (name node) (statement node) (Some proof_part) (not_ready node)
            (discussion node) (title node) in
        Done (mkParseState (nodes st) (<[proved := node]> (name_to_node st))
                (label_to_node st) (match_idx_to_node st)
                (<[proved := raws ++ [m_group0 m]]> (name_to_raw_sources st))
                (parse_log st))
      | _, _ => Raise (KeyError proved)
      end in
    match info_proves source_info with
    | Some proves =>
      match label_to_node st !! proves with
      | Some proved => attach proved
      | None => Raise (KeyError proves)
      end
    | None =>
      match match_idx_to_node st !! (i - 1)%Z with
      | Some (Some proved) => attach proved
      | Some None => Done st
      | None =>
        Done (mkParseState (nodes st) (name_to_node st) (label_to_node st)
                (match_idx_to_node st) (name_to_raw_sources st)
                (parse_log st ++
                 ["Cannot determine the statement proved by: " +:+ node_source]))
      end
    end).

(** [for i, match in enumerate(matches)] *)
Fixpoint for_enumerate (body : Z → EnvMatch → ParseState → outcome ParseState)
    (i : Z) (matches : list EnvMatch) (st : ParseState) : outcome ParseState :=
  match matches with
  | [] => Done st
  | m :: matches' => obind (body i m st) (for_enumerate body (i + 1)%Z matches')
  end.

Definition resolve_node (label_to_node : gmap string string) (node : Node) : Node :=
  mkNode (name node)
    (convert_latex_label_to_lean_name set_iter (statement node) label_to_node)
    ((λ p, convert_latex_label_to_lean_name set_iter p label_to_node) <$> proof node)
    (not_ready node) (discussion node) (title node).

Definition parse_nodes (matches : list EnvMatch)
  : outcome (list Node * gmap string (list string) * gmap string string * list string) :=
  obind (for_enumerate parse_statement 0 matches (mkParseState [] ∅ ∅ ∅ ∅ []))
    (λ st,
  obind (for_enumerate parse_proof 0 matches st) (λ st,
  let resolved := resolve_node (label_to_node st) <$> name_to_node st in
  Done (omap (λ nm, resolved !! nm) (nodes st),
        name_to_raw_sources st, label_to_node st, parse_log st))).
End parse_nodes.

Definition default_thm_types : list string :=
  ["definition"; "lemma"; "proposition"; "theorem"; "corollary"].

(** ** Vocabulary for the statements about the annotation synthesizer *)

(** The fields of an attribute, in the order the specification fixes. *)
Inductive Field : Type :=
  | FTitle | FStatementText | FStatementUses | FStatementRawUses
  | FProofText | FProofUses | FProofRawUses
  | FNotReady | FDiscussion | FLatexEnv.

Definition field_order : list Field :=
  [FTitle; FStatementText; FStatementUses; FStatementRawUses;
   FProofText; FProofUses; FProofRawUses; FNotReady; FDiscussion; FLatexEnv].

Record Flags : Type := mkFlags {
  add_statement_text : bool;
  add_uses : bool;
  add_uses_raw : bool;
  add_proof_text : bool;
  add_proof_uses : bool;
  add_proof_uses_raw : bool;
}.

(** The environment kind implied by the absence or presence of a proof. *)
Definition default_env (n : Node) : string :=
  match proof n with None => "definition" | Some _ => "theorem" end.

(** Inclusion of the six flag-controlled fields: the flag is set and the
    field's content is not empty. *)
Definition flagged_field_included (fl : Flags) (n : Node) (f : Field) : bool :=
  match f with
  | FStatementText => add_statement_text fl && str_truthy (strip (text (statement n)))
  | FStatementUses => add_uses fl && set_truthy (uses (statement n))
  | FStatementRawUses => add_uses_raw fl && set_truthy (uses_raw (statement n))
  | FProofText =>
    match proof n with
    | Some p => add_proof_text fl && str_truthy (strip (text p))
    | None => false
    end
  | FProofUses =>
    match proof n with Some p => add_proof_uses fl && set_truthy (uses p) | None => false end
  | FProofRawUses =>
    match proof n with
    | Some p => add_proof_uses_raw fl && set_truthy (uses_raw p)
    | None => false
    end
  | _ => false
  end.

(** Inclusion as the specification words it: the title whenever present, the
    not-ready flag whenever set, the discussion handle whenever set, the
    environment kind exactly when it deviates from the default. *)
Definition field_included_as_specified (fl : Flags) (n : Node) (f : Field) : bool :=
  match f with
  | FTitle => is_some (title n)
  | FNotReady => not_ready n
  | FDiscussion => is_some (discussion n)
  | FLatexEnv => negb (bool_decide (latex_env (statement n) = default_env n))
  | _ => flagged_field_included fl n f
  end.

(** Inclusion as the code decides it: an empty title and a discussion handle
    equal to zero count as absent. *)
Definition field_included (fl : Flags) (n : Node) (f : Field) : bool :=
  match f with
  | FTitle => match title n with Some t => str_truthy t | None => false end
  | FNotReady => not_ready n
  | FDiscussion =>
    match discussion n with Some z => negb (bool_decide (z = 0%Z)) | None => false end
  | FLatexEnv => negb (bool_decide (latex_env (statement n) = default_env n))
  | _ => flagged_field_included fl n f
  end.

Section render.
Context (set_iter : gset string → list string).

(** The configuration line of one field. *)
Definition render_field (n : Node) (f : Field) : string :=
  match f with
  | FTitle => quote (default "" (title n))
  | FStatementText =>
    "(statement := " +:+ make_docstring (text (statement n)) 2 +:+ ")"
  | FStatementUses =>
    "(uses := [" +:+ join ", " (set_iter (uses (statement n))) +:+ "])"
  | FStatementRawUses =>
    "(uses := [" +:+ join ", " (quote <$> set_iter (uses_raw (statement n))) +:+ "])"
  | FProofText =>
    match proof n with
    | Some p => "(proof := " +:+ make_docstring (text p) 2 +:+ ")"
    | None => ""
    end
  | FProofUses =>
    match proof n with
    | Some p => "(proofUses := [" +:+ join ", " (set_iter (uses p)) +:+ "])"
    | None => ""
    end
  | FProofRawUses =>
    match proof n with
    | Some p => "(proofUses := [" +:+ join ", " (quote <$> set_iter (uses_raw p)) +:+ "])"
    | None => ""
    end
  | FNotReady => "(notReady := true)"
  | FDiscussion => "(discussion := " +:+ pretty (default 0%Z (discussion n)) +:+ ")"
  | FLatexEnv => "(latexEnv := " +:+ quote (latex_env (statement n)) +:+ ")"
  end.

(** The attribute text that lists, in the fixed order, the fields selected
    by [included]. *)
Definition attribute_of_fields (included : Field → bool) (n : Node) : string :=
  "blueprint" +:+
  concat_str
    ((λ f, nl +:+ "  " +:+ render_field n f) <$> List.filter included field_order).
End render.

(** A node whose discussion handle is zero, and one whose title is empty. *)
Definition ex_discussion_zero : Node :=
  mkNode "n" (mkNodePart true "" ∅ ∅ "definition") None false (Some 0%Z) None.

Definition ex_empty_title : Node :=
  mkNode "n" (mkNodePart true "" ∅ ∅ "definition") None false None (Some "").

Definition all_flags : Flags := mkFlags true true true true true true.

(** ** Vocabulary for the statements about insert_docstring_and_attribute *)

(** The splicer run on a declaration, and run again on its own output. *)
Definition insert_twice (decl d1 a1 d2 a2 : string) (w : World) : string * World :=
  let '(decl1, w1) := insert_docstring_and_attribute decl d1 a1 w in
  insert_docstring_and_attribute decl1 d2 a2 w1.

(** What [make_docstring] puts between the comment delimiters. *)
Definition docstring_body (text : string) (indent : nat) : string :=
  let text := replace nl (nl +:+ repeat_char " " indent) (strip text) in
  if contains nl text then
    nl +:+ repeat_char " " indent +:+ text +:+ nl +:+ repeat_char " " indent
  else " " +:+ text +:+ " ".



(** ** Vocabulary for the statements about the import line *)





(** Two declarations in one file of the target module. *)
Definition ex_two_source : string :=
  "import Foo" +:+ nl +:+ nl +:+ "theorem a : True := by" +:+ nl +:+ "  trivial" +:+ nl
  +:+ nl +:+ "theorem b : True := by" +:+ nl +:+ "  trivial" +:+ nl.

Definition ex_decl (nm : string) (first_line last_line : Z) : NodeWithPos :=
  mkNodeWithPos
    (mkNode nm (mkNodePart true "" ∅ ∅ "theorem")
            (Some (mkNodePart true "" ∅ ∅ "proof")) false None None)
    true
    (Some (mkLocation "Proj.Basic"
             (mkRange (mkPosition first_line 0) (mkPosition last_line 9))))
    (Some "Proj/Basic.lean").


Definition ex_two_world : World :=
  mkWorld {["Proj/Basic.lean" := ex_two_source]} [] false.

Definition ex_two_spliced : string :=
  "import Foo" +:+ nl +:+ nl +:+ nl +:+ "@[blueprint]" +:+ nl
  +:+ "theorem a : True := by" +:+ nl +:+ "  trivial" +:+ nl
  +:+ nl +:+ nl +:+ "@[blueprint]" +:+ nl
  +:+ "theorem b : True := by" +:+ nl +:+ "  trivial" +:+ nl.


(** ** Vocabulary for the statements about the include resolver *)

Section include_spec.
Context {Path : Type} `{Countable Path}.
Context (show_path : Path → string).

(** The path text of a directive: stripped, with the extension defaulted. *)
Definition default_tex (group1 : string) : string :=
  let input_path := strip group1 in
  if endswith input_path ".tex" then input_path else input_path +:+ ".tex".

(** An include resolver in which the file named by a directive is given by
    [resolve], from the file that contains the directive and the path text
    of the directive; everything else as in [read_latex_file]. *)
Fixpoint expand_inputs (resolve : Path → string → Path)
    (files : gmap Path string) (fuel : nat) (file : Path) (st : ReadState)
  : outcome (string * ReadState) :=
  match fuel with
  | 0 => OutOfFuel
  | S fuel' =>
    if decide (file ∈ seen st) then
      Done ("", mkReadState (seen st)
                  (read_log st ++
                   ["Circular \input detected for file: " +:+ show_path file]))
    else
      let st := mkReadState ({[file]} ∪ seen st) (read_log st) in
      match files !! file with
      | None => Raise (FileNotFoundError (show_path file))
      | Some text =>
        re_sub_with_go (match_command_argument "input")
          (λ group1 st,
             let input_file := resolve file (default_tex group1) in
             match files !! input_file with
             | None =>
               Done ("", mkReadState (seen st)
                           (read_log st ++
                            ["\input file not found: " +:+ show_path input_file]))
             | Some _ => expand_inputs resolve files fuel' input_file st
             end)
          0 text st
      end
  end.

Definition expand_document (resolve : Path → string → Path)
    (files : gmap Path string) (file : Path) : outcome (string * list string) :=
  obind (expand_inputs resolve files (S (size files)) file (mkReadState ∅ []))
        (λ '(text, st), Done (text, read_log st)).
End include_spec.

(** ** Vocabulary for the statements about the directive extractor *)



(** ** Concrete documents used to exercise parse_nodes *)

Definition ex_statement : EnvMatch :=
  mkEnvMatch "theorem" None
    (String BACKSLASH "label{thm:a}" +:+ String BACKSLASH "lean{foo} Statement.")
    "(theorem block)" "".

(** A proof that names, with [\proves], a label no statement carries. *)
Definition ex_proof_unknown_label : EnvMatch :=
  mkEnvMatch "proof" None (String BACKSLASH "proves{thm:b} Proof text.")
    "(proof block)" "".

(** A proof without [\proves]. *)
Definition ex_proof_plain : EnvMatch :=
  mkEnvMatch "proof" None "Proof text." "(proof block)" "".

Section opened_files.
Context {Path : Type} `{Countable Path}.
Context (joinpath : Path → string → Path).

(** [p] is named from the directory [root_dir] by an inclusion directive that
    occurs in the text of one of the files [opened]. *)
Definition named_from (files : gmap Path string) (root_dir : Path)
    (opened : gset Path) (p : Path) : Prop :=
  ∃ containing content group1,
    containing ∈ opened ∧ files !! containing = Some content ∧
    group1 ∈ re_findall (match_command_argument "input") content ∧
    p = joinpath root_dir (default_tex group1).

(** Every directive of the file [containing] has its target, the directive's
    path joined to [root_dir], among the files [opened], if that file exists. *)
Definition directives_resolved (files : gmap Path string) (root_dir : Path)
    (opened : gset Path) (containing : Path) : Prop :=
  ∀ content group1,
    files !! containing = Some content →
    group1 ∈ re_findall (match_command_argument "input") content →
    is_Some (files !! joinpath root_dir (default_tex group1)) →
    joinpath root_dir (default_tex group1) ∈ opened.
End opened_files.

Definition ex_nested_state : @ReadState string _ _ :=
  mkReadState (list_to_set ["doc/web.tex"; "doc/sub/ch.tex"; "doc/part.tex"]) [].

(** ** Vocabulary for further statements about the source splicer *)

(** The splicer run on a sequence of declarations, each with its docstring
    and attribute, threading the world; the texts produced are dropped. *)
Fixpoint insert_many (calls : list (string * string * string)) (w : World) : World :=
  match calls with
  | [] => w
  | (decl, new_docstring, new_attr) :: calls' =>
    insert_many calls' (insert_docstring_and_attribute decl new_docstring new_attr w).2
  end.

(** The text that [modify_source] puts in the place of the declaration text
    [decl]: the prepended blocks, and the declaration with its docstring and
    attribute. *)
Definition modified_declaration (set_iter : gset string → list string) (node : Node)
    (add_uses : bool) (prepend : option (list string)) (decl : string) : string :=
  let add_uses := add_uses || (negb (is_some (proof node)) && contains "sorry" decl) in
  let add_uses_raw := add_uses || set_truthy (uses_raw (statement node)) in
  let add_proof_uses := add_uses || (is_some (proof node) && contains "sorry" decl) in
  let add_proof_uses_raw :=
    add_uses ||
    match proof node with
    | Some p => set_truthy (uses_raw p)
    | None => false
    end in
  let attr :=
    to_lean_attribute set_iter node false add_uses add_uses_raw true
      add_proof_uses add_proof_uses_raw in
  let decl :=
    (insert_docstring_and_attribute decl (text (statement node)) attr
       (mkWorld ∅ [] false)).1 in
  match prepend with
  | Some ps => concat_str ((λ p, p +:+ nl +:+ nl) <$> ps) +:+ decl
  | None => decl
  end.

(** The carriage return. *)
Definition CR : string := String "013" "".

(** The position [p] has a column that is not negative and a line that is a
    line of [source] ([position_on_line]), or at most the line after the last
    one ([position_in]). *)
Definition position_in (source : string) (p : Position) : Prop :=
  (0 ≤ column p)%Z ∧ (line p - 1 ≤ Z.of_nat (length (splitlines_keepends source)))%Z.

Definition position_on_line (source : string) (p : Position) : Prop :=
  (0 ≤ column p)%Z ∧ (line p - 1 < Z.of_nat (length (splitlines_keepends source)))%Z.

(** ** Vocabulary for further statements about parse_nodes *)

(** What the two loops of [parse_nodes] maintain: the list of nodes has no
    name twice and lists exactly the keys of [name_to_node]; a node is filed
    under its own name; labels and match indices point to listed nodes; every
    listed node has raw sources; and no node has resolved uses yet. *)
Definition parse_inv (st : ParseState) : Prop :=
  NoDup (nodes st) ∧
  (∀ nm, nm ∈ nodes st ↔ is_Some (name_to_node st !! nm)) ∧
  (∀ nm n, name_to_node st !! nm = Some n →
     name n = nm ∧ uses (statement n) = ∅ ∧ ∀ p, proof n = Some p → uses p = ∅) ∧
  (∀ l nm, label_to_node st !! l = Some nm → nm ∈ nodes st) ∧
  (∀ i nm, match_idx_to_node st !! i = Some (Some nm) → nm ∈ nodes st) ∧
  (∀ nm, nm ∈ nodes st → is_Some (name_to_raw_sources st !! nm)).

(** A proof environment among the matches names, by its proves directive, the
    label [l]. *)
Definition proves_label (matches : list EnvMatch) (l : string) : Prop :=
  ∃ m log info rest log',
    m ∈ matches ∧ m_env m = "proof" ∧
    process_source (m_content m) log = Done (info, rest, log') ∧
    info_proves info = Some l.

(** A lemma that uses the label of [ex_statement] and an unknown label. *)
Definition ex_using : EnvMatch :=
  mkEnvMatch "lemma" None
    (String BACKSLASH "label{lem:b}" +:+ String BACKSLASH "lean{bar}" +:+
     String BACKSLASH "uses{thm:a, other} Uses.")
    "(lemma block)" "".

(** ** Vocabulary for further statements about write_blueprint_attributes *)

(** All the placeholder declarations of a plan: those of the overflow file
    and those prepended to some declaration. *)
Definition planned_stubs (pl : Plan) : list string :=
  extra_nodes pl ++ mjoin ((map_to_list (prepends pl)).*2).

(** An informal node that the first declaration of [ex_two_nodes] uses, and
    one that nothing uses. *)
Definition ex_informal (nm : string) : NodeWithPos :=
  mkNodeWithPos
    (mkNode nm (mkNodePart false "Informal." ∅ ∅ "definition") None false None None)
    false None None.

Definition ex_user : NodeWithPos :=
  mkNodeWithPos
    (mkNode "a" (mkNodePart true "" {["i"]} ∅ "theorem")
            (Some (mkNodePart true "" ∅ ∅ "proof")) false None None)
    true
    (Some (mkLocation "Proj.Basic" (mkRange (mkPosition 3 0) (mkPosition 4 9))))
    (Some "Proj/Basic.lean").

Definition ex_plan_nodes : list NodeWithPos := [ex_informal "i"; ex_user; ex_informal "j"].

(** The placeholder [s] is that of an upstream or informal node [up], and the
    node named [nm] is a node of the given modules that stands at or after
    [up] in the order [topo] and uses [up]. *)
Definition stub_target (set_iter : gset string → list string) (modules : list string)
    (topo : list NodeWithPos) (nm s : string) : Prop :=
  ∃ (up normal : NodeWithPos) (rest : list NodeWithPos),
    is_upstream_or_informal modules up = true ∧
    s = upstream_or_informal_to_lean set_iter up ∧
    from_index up topo = Done rest ∧ normal ∈ rest ∧
    is_upstream_or_informal modules normal = false ∧
    name up ∈ node_uses normal ∧ name normal = nm.

(** The placeholder [s] is that of an upstream or informal node that no node
    of the given modules at or after it in the order [topo] uses. *)
Definition stub_overflow (set_iter : gset string → list string) (modules : list string)
    (topo : list NodeWithPos) (s : string) : Prop :=
  ∃ (up : NodeWithPos) (rest : list NodeWithPos),
    is_upstream_or_informal modules up = true ∧
    s = upstream_or_informal_to_lean set_iter up ∧
    from_index up topo = Done rest ∧
    ∀ normal : NodeWithPos, normal ∈ rest →
      is_upstream_or_informal modules normal = false → name up ∉ node_uses normal.

(** Every character of [s] satisfies [P]. *)
Fixpoint str_forall (P : ascii → bool) (s : string) : bool :=
  match s with
  | "" => true
  | String c s' => P c && str_forall P s'
  end.

(** ** parse_latex.py: generate_new_lean_name

    The random identifiers are drawn from a stream [rand] of numbers; the
    state [k] counts the draws. *)

Module Naming.

(** [uuid.uuid4().hex]: the 32 hexadecimal digits of a 128-bit number. *)
Fixpoint hex_digits (n : nat) (x : N) (acc : string) : string :=
  match n with
  | 0 => acc
  | S n' => hex_digits n' (x / 16)%N (String (hex_digit (N.to_nat (x mod 16)%N)) acc)
  end.

Definition uuid4_hex (x : N) : string := hex_digits 32 x "".

(** [c.isdigit()] for one character (Latin-1 range): the decimal digits and
    the superscript digits. *)
Definition isdigit (c : ascii) : bool :=
  let n := nat_of_ascii c in
  bool_decide (48 ≤ n ≤ 57) || bool_decide (n = 178) || bool_decide (n = 179)
  || bool_decide (n = 185).

(** [base.split(":")[-1].replace("-", "_").replace(" ", "_")], with an
    underscore put before a leading digit. *)
Definition sanitize (base : string) : string :=
  let base := default "" (last (split_char ":" base)) in
  let base := replace " " "_" (replace "-" "_" base) in
  match base with
  | String c _ => if isdigit c then "_" +:+ base else base
  | "" => base
  end.

Fixpoint generate_new_lean_name (fuel : nat) (rand : nat → N)
    (visited_names : gset string) (base : option string) (k : nat)
  : outcome (string * nat) :=
  match fuel with
  | 0 => OutOfFuel
  | S fuel' =>
    let '(base, k) :=
      match base with
      | None => ("node_" +:+ uuid4_hex (rand k), S k)
      | Some base => (sanitize base, k)
      end in
    if decide (base ∈ visited_names) then
      generate_new_lean_name fuel' rand visited_names
        (Some (base +:+ "_" +:+ uuid4_hex (rand k))) (S k)
    else Done (base, k)
  end.

(** ** Vocabulary for the statements about generate_new_lean_name *)

(** No colon, hyphen or space. *)
Definition plain_char (c : ascii) : bool :=
  negb (bool_decide (c = ":"%char)) && negb (bool_decide (c = "-"%char))
  && negb (bool_decide (c = " "%char)).

(** The shape of a generated name: plain characters, no leading digit. *)
Definition well_formed (s : string) : bool :=
  str_forall plain_char s
  && match s with String c _ => negb (isdigit c) | "" => true end.

End Naming.

(** ** Vocabulary for the statements about quoting and the text filters *)





(** Every tilde of [s] follows a backslash; [after_backslash] tells whether
    the character before [s] is one. *)
Fixpoint tildes_escaped (after_backslash : bool) (s : string) : bool :=
  match s with
  | "" => true
  | String c s' =>
    (negb (bool_decide (c = "~"%char)) || after_backslash)
    && tildes_escaped (bool_decide (c = BACKSLASH)) s'
  end.

(** The sort key of [a] is not below that of [b]. *)
Definition key_ge (a b : NodeWithPos) : Prop :=
  key_lt (location_key a) (location_key b) = false.

(** * Basic facts about the string operations *)

Lemma str_app_cons c (a b : string) : String c a +:+ b = String c (a +:+ b).
Proof. reflexivity. Qed.

Lemma str_app_nil_l (a : string) : "" +:+ a = a.
Proof. reflexivity. Qed.

Ltac str_norm := rewrite ?str_app_cons, ?str_app_nil_l.

Lemma str_app_assoc (a b c : string) : (a +:+ b) +:+ c = a +:+ b +:+ c.
Proof. induction a as [|x a IH]; str_norm; [done | by rewrite IH]. Qed.

Lemma str_app_nil_r (a : string) : a +:+ "" = a.
Proof. induction a as [|x a IH]; str_norm; [done | by rewrite IH]. Qed.




Ltac str_eq :=
  unfold nl;
  repeat rewrite ?str_app_assoc, ?str_app_cons, ?str_app_nil_l, ?str_app_nil_r;
  reflexivity.


(** * Properties of topological_sort *)

Lemma name_to_node_of_snoc l (d : NodeWithPos * string) :
  name_to_node_of (l ++ [d]) = <[name d.1 := d]> (name_to_node_of l).
Proof. unfold name_to_node_of. by rewrite foldl_app. Qed.

Lemma name_to_node_of_Some data k (d : NodeWithPos * string) :
  name_to_node_of data !! k = Some d → d ∈ data ∧ name d.1 = k.
Proof.
  induction data as [|x l IH] using rev_ind.
  - unfold name_to_node_of; simpl. by rewrite lookup_empty.
  - rewrite name_to_node_of_snoc, lookup_insert.
    case_decide as Hk.
    + intros [= <-]. split; [set_solver | done].
    + intros H. destruct (IH H). split; [set_solver | done].
Qed.

Lemma dom_name_to_node_of data :
  dom (name_to_node_of data) = list_to_set (names data).
Proof.
  induction data as [|x l IH] using rev_ind.
  - unfold name_to_node_of. simpl. by rewrite dom_empty_L.
  - rewrite name_to_node_of_snoc, dom_insert_L, IH.
    unfold names. rewrite map_app, list_to_set_app_L. simpl. set_solver.
Qed.

Lemma elem_of_dom_name_to_node_of data k :
  k ∈ dom (name_to_node_of data) ↔ k ∈ names data.
Proof. rewrite dom_name_to_node_of. by rewrite elem_of_list_to_set. Qed.

Lemma name_to_node_of_NoDup data (d : NodeWithPos * string) :
  NoDup (names data) → d ∈ data → name_to_node_of data !! name d.1 = Some d.
Proof.
  induction data as [|x l IH] using rev_ind; [by intros _ ?%elem_of_nil|].
  unfold names. rewrite map_app. simpl. intros [Hl [Hx _]]%NoDup_app Hd.
  rewrite name_to_node_of_snoc.
  apply elem_of_app in Hd as [Hd | ->%list_elem_of_singleton].
  - rewrite lookup_insert_ne; [by apply IH|].
    intros E. apply (Hx (name d.1)); [|rewrite E; set_solver].
    apply list_elem_of_fmap. by exists d.
  - by rewrite lookup_insert_eq.
Qed.

Lemma size_list_to_set_le (l : list string) :
  size (list_to_set (C:=gset string) l) ≤ length l.
Proof.
  induction l as [|x l IH].
  - by rewrite list_to_set_nil, size_empty.
  - rewrite list_to_set_cons, size_union_alt, size_singleton. simpl.
    assert (list_to_set (C:=gset string) l ∖ {[x]} ⊆ list_to_set l) as Hs
      by set_solver.
    apply subseteq_size in Hs. lia.
Qed.

Lemma ordered_snoc M l (d : NodeWithPos * string) :
  ordered M l →
  (∀ v, v ∈ node_uses d.1 → v ∈ dom M → v ∈ names l) →
  ordered M (l ++ [d]).
Proof.
  intros Hl Hd l1 x l2 E v Hv Hk.
  destruct l2 as [|y l2 _] using rev_ind.
  - apply app_inj_tail in E as [-> ->]. by apply Hd.
  - rewrite app_comm_cons, app_assoc in E.
    apply app_inj_tail in E as [-> _]. by eapply Hl.
Qed.

Lemma names_app l1 l2 : names (l1 ++ l2) = names l1 ++ names l2.
Proof. unfold names. apply map_app. Qed.

Lemma gray_extend st k :
  k ∉ visited st →
  (∀ x, x ∈ names (result st) → x ∈ visited st) →
  gray (mkSortState ({[k]} ∪ visited st) (result st)) = {[k]} ∪ gray st.
Proof.
  intros Hk Hsub. unfold gray; simpl.
  apply set_eq. intros x.
  rewrite !elem_of_union, !elem_of_difference, elem_of_union,
    elem_of_singleton, elem_of_list_to_set.
  split; [tauto|]. intros [-> | ?]; [|tauto]. split; [tauto|]. naive_solver.
Qed.

Lemma gray_emit st (d : NodeWithPos * string) :
  gray (mkSortState (visited st) (result st ++ [d])) = gray st ∖ {[name d.1]}.
Proof.
  unfold gray; simpl. rewrite names_app, list_to_set_app_L. simpl. set_solver.
Qed.

Section visit_facts.
Context (set_iter : gset string → list string).
Context (data : list (NodeWithPos * string)).
Local Abbreviation M := (name_to_node_of data).

Local Abbreviation visit_ok := (visit_ok set_iter data).

Lemma visit_post_refl st : sort_inv M st → visit_post M st st.
Proof.
  intros ?. split; [done|]. split; [done|]. split; [done|].
  exists []. by rewrite app_nil_r.
Qed.

Lemma visit_post_trans st1 st2 st3 :
  visit_post M st1 st2 → visit_post M st2 st3 → visit_post M st1 st3.
Proof.
  intros (_ & Hv1 & Hg1 & n1 & Hr1) (Hi & Hv2 & Hg2 & n2 & Hr2).
  split; [done|]. split; [set_solver|]. split; [congruence|].
  exists (n1 ++ n2). by rewrite Hr2, Hr1, app_assoc.
Qed.

Lemma visit_post_size st st' fuel :
  visit_post M st st' → size (dom M ∖ visited st) < fuel →
  size (dom M ∖ visited st') < fuel.
Proof.
  intros (_ & Hv & _) Hlt.
  assert (dom M ∖ visited st' ⊆ dom M ∖ visited st) as Hs by set_solver.
  apply subseteq_size in Hs. lia.
Qed.

(** The loop [for used in node.uses: if used in name_to_node: visit(used)]. *)
Lemma uses_loop_ok fuel us :
  visit_ok fuel →
  ∀ st, sort_inv M st → size (dom M ∖ visited st) < fuel →
    ∃ st',
      for_each
        (λ used st, if decide (used ∈ dom M) then visit set_iter M fuel used st
                    else Done st) us st = Done st' ∧
      visit_post M st st' ∧
      ((∀ s x, x ∈ set_iter s ↔ x ∈ s) → acyclic data →
       (∀ u, u ∈ us → u ∈ dom M → ∀ g, g ∈ gray st → tc (edge data) g u) →
       ordered M (result st) →
       ordered M (result st') ∧
       ∀ u, u ∈ us → u ∈ dom M → u ∈ names (result st')).
Proof.
  intros IH. induction us as [|u us IHus]; intros st Hinv Hsz.
  - exists st. split; [done|]. split; [by apply visit_post_refl|].
    intros _ _ _ Ho. split; [done|]. by intros ? ?%elem_of_nil.
  - simpl. case_decide as Hu.
    + destruct (IH u st Hu Hinv Hsz) as (st1 & -> & Hp1 & _ & Hc1). simpl.
      destruct (IHus st1) as (st2 & -> & Hp2 & Hc2);
        [apply Hp1 | by eapply visit_post_size|].
      exists st2. split; [done|]. split; [by eapply visit_post_trans|].
      intros Hiter Hac Hpath Ho.
      destruct Hc1 as [Ho1 Hu1]; [done | done | | done |].
      { intros g Hg. apply Hpath; [set_solver | done | done]. }
      destruct Hc2 as [Ho2 Hu2]; [done | done | | done |].
      { intros v Hv Hvk g Hg. apply Hpath; [set_solver | done |].
        destruct Hp1 as (_ & _ & <- & _). done. }
      split; [done|]. intros v [-> | Hv]%elem_of_cons Hvk; [|by apply Hu2].
      destruct Hp2 as (_ & _ & _ & new & ->). rewrite names_app. set_solver.
    + simpl. destruct (IHus st) as (st2 & -> & Hp2 & Hc2); [done..|].
      exists st2. split; [done|]. split; [done|].
      intros Hiter Hac Hpath Ho.
      destruct Hc2 as [Ho2 Hu2]; [done | done | | done |].
      { intros v Hv Hvk g Hg. apply Hpath; [set_solver | done..]. }
      split; [done|]. intros v [-> | Hv]%elem_of_cons Hvk; [done|by apply Hu2].
Qed.

Lemma visit_spec fuel : visit_ok fuel.
Proof.
  induction fuel as [|fuel IH]; intros nm st Hnm Hinv Hsz; [lia|].
  simpl. case_decide as Hvis.
  - exists st. split; [done|]. split; [by apply visit_post_refl|].
    split; [done|]. intros _ Hac Hpath Ho. split; [done|].
    destruct (decide (nm ∈ names (result st))) as [|Hn]; [done|].
    destruct (Hac nm). apply Hpath. unfold gray.
    rewrite elem_of_difference, elem_of_list_to_set. done.
  - destruct (M !! nm) as [d|] eqn:Hd; last first.
    { apply elem_of_dom in Hnm as [? ?]. congruence. }
    destruct d as [node value].
    pose proof (name_to_node_of_Some _ _ _ Hd) as [Hin Hname]. simpl in Hname.
    set (st1 := mkSortState ({[nm]} ∪ visited st) (result st)).
    assert (sort_inv M st1) as Hinv1.
    { destruct Hinv. split; simpl; [set_solver | done | done | set_solver]. }
    assert (size (dom M ∖ visited st1) < fuel) as Hsz1.
    { assert (dom M ∖ visited st1 ⊂ dom M ∖ visited st) as Hs.
      { simpl. apply strict_spec_alt. split; [set_solver|].
        intros E. assert (nm ∈ dom M ∖ visited st) as Hx by set_solver.
        rewrite <- E in Hx. set_solver. }
      apply subset_size in Hs. lia. }
    assert (gray st1 = {[nm]} ∪ gray st) as Hg1.
    { apply gray_extend; [done | apply Hinv]. }
    destruct (uses_loop_ok fuel (set_iter (node_uses node)) IH st1 Hinv1 Hsz1)
      as (st2 & -> & Hp2 & Hc2). simpl.
    pose proof Hp2 as (Hinv2 & Hv2 & Hg2 & new & Hr2).
    assert (nm ∉ names (result st2)) as Hfresh.
    { assert (nm ∈ gray st2) as Hx by (rewrite Hg2, Hg1; set_solver).
      unfold gray in Hx. rewrite elem_of_difference, elem_of_list_to_set in Hx.
      tauto. }
    eexists. split; [done|]. split; [|split].
    + split; [split; simpl|split; [|split]].
      * apply Hinv2.
      * intros d' [Hd' | ->%list_elem_of_singleton]%elem_of_app.
        -- by apply Hinv2.
        -- simpl. by rewrite Hname.
      * rewrite names_app. apply NoDup_app. split; [apply Hinv2|].
        split; [|apply NoDup_singleton].
        simpl. intros x Hx ->%list_elem_of_singleton. by rewrite Hname in Hx.
      * rewrite names_app. simpl. intros k [Hk | ->%list_elem_of_singleton]%elem_of_app.
        -- by apply Hinv2.
        -- rewrite Hname. set_solver.
      * simpl. set_solver.
      * rewrite gray_emit, Hg2, Hg1. simpl. rewrite Hname.
        assert (nm ∉ gray st) by (unfold gray; set_solver). set_solver.
      * simpl. exists (new ++ [(node, value)]). by rewrite Hr2, app_assoc.
    + simpl. set_solver.
    + simpl. intros Hiter Hac Hpath Ho.
      destruct Hc2 as [Ho2 Hu2]; [done | done | | done |].
      { intros u Hu Huk g Hg.
        assert (edge data nm u) as He.
        { exists (node, value). repeat split; [done | done | |].
          - by apply Hiter.
          - by apply elem_of_dom_name_to_node_of. }
        rewrite Hg1 in Hg. apply elem_of_union in Hg as [->%elem_of_singleton | Hg].
        - by apply tc_once.
        - eapply tc_r; [by apply Hpath | done]. }
      split.
      * apply ordered_snoc; [done|]. simpl. intros v Hv Hvk.
        apply Hu2; [by apply Hiter | done].
      * rewrite names_app. simpl. rewrite Hname. set_solver.
Qed.
End visit_facts.

Section sort_facts.
Context (set_iter : gset string → list string).
Context (data : list (NodeWithPos * string)).
Local Abbreviation M := (name_to_node_of data).

(** The outer loop [for node, _ in data: visit(node.name)]. *)
Lemma data_loop_ok fuel l :
  length data < fuel → (∀ d, d ∈ l → d ∈ data) →
  ∀ st, sort_inv M st → gray st = ∅ →
    ∃ st',
      for_each (λ (d : NodeWithPos * string) st,
                  visit set_iter M fuel (name d.1) st) l st = Done st' ∧
      visit_post M st st' ∧
      (∀ d : NodeWithPos * string, d ∈ l → name d.1 ∈ visited st') ∧
      ((∀ s x, x ∈ set_iter s ↔ x ∈ s) → acyclic data →
       ordered M (result st) → ordered M (result st')).
Proof.
  intros Hfuel. induction l as [|d l IH]; intros Hl st Hinv Hg.
  - exists st. split; [done|]. split; [by apply visit_post_refl|].
    split; [by intros ? ?%elem_of_nil | done].
  - simpl.
    assert (name d.1 ∈ dom M) as Hd.
    { apply elem_of_dom_name_to_node_of, list_elem_of_fmap.
      exists d. split; [done|]. apply Hl. set_solver. }
    assert (∀ st, size (dom M ∖ visited st) < fuel) as Hsz.
    { intros st0. pose proof (size_list_to_set_le (names data)) as Hle.
      rewrite <- dom_name_to_node_of in Hle. unfold names in Hle.
      rewrite length_map in Hle.
      assert (dom M ∖ visited st0 ⊆ dom M) as Hs by set_solver.
      apply subseteq_size in Hs. lia. }
    destruct (visit_spec set_iter data fuel (name d.1) st Hd Hinv (Hsz st))
      as (st1 & -> & Hp1 & Hv1 & Hc1). simpl.
    destruct (IH (λ x Hx, Hl x (list_elem_of_further _ _ _ Hx)) st1)
      as (st2 & -> & Hp2 & Hv2 & Hc2).
    { apply Hp1. }
    { destruct Hp1 as (_ & _ & -> & _). done. }
    exists st2. split; [done|]. split; [by eapply visit_post_trans|]. split.
    + intros x [-> | Hx]%elem_of_cons; [|by apply Hv2].
      destruct Hp2 as (_ & Hsub & _). set_solver.
    + intros Hiter Hac Ho. apply Hc2; [done..|].
      apply Hc1; [done | done | | done]. rewrite Hg. set_solver.
Qed.

Lemma topological_sort_fuel_spec fuel :
  length data < fuel →
  ∃ res, topological_sort_fuel set_iter fuel data = Done res ∧
    NoDup (names res) ∧
    (∀ d : NodeWithPos * string, d ∈ res → M !! name d.1 = Some d) ∧
    (∀ k, k ∈ names data → k ∈ names res) ∧
    ((∀ s x, x ∈ set_iter s ↔ x ∈ s) → acyclic data → ordered M res).
Proof.
  intros Hfuel. unfold topological_sort_fuel.
  destruct (data_loop_ok fuel data Hfuel (λ _ H, H) (mkSortState ∅ []))
    as (st & -> & (Hinv & _ & Hg & _) & Hv & Hc).
  { split; simpl; [set_solver | by intros ? ?%elem_of_nil | constructor
                   | by intros ? ?%elem_of_nil]. }
  { unfold gray. simpl. set_solver. }
  simpl. exists (result st). split; [done|]. split; [apply Hinv|].
  split; [apply Hinv|]. split.
  - intros k (d & -> & Hd)%list_elem_of_fmap.
    specialize (Hv d Hd).
    destruct (decide (name d.1 ∈ names (result st))) as [|Hn]; [done|].
    assert (name d.1 ∈ gray st) as Hx.
    { unfold gray. rewrite elem_of_difference, elem_of_list_to_set. done. }
    rewrite Hg in Hx. unfold gray in Hx. simpl in Hx. set_solver.
  - intros Hiter Hac. apply Hc; [done..|].
    intros l1 d l2 E. by destruct l1.
Qed.
End sort_facts.

Lemma for_each_more_fuel {A S} (f1 f2 : A → S → outcome S) l :
  (∀ x st, f1 x st ≠ OutOfFuel → f2 x st = f1 x st) →
  ∀ st, for_each f1 l st ≠ OutOfFuel → for_each f2 l st = for_each f1 l st.
Proof.
  intros Hf. induction l as [|x l IH]; intros st; simpl; [done|].
  destruct (f1 x st) as [st1| |] eqn:E1; simpl.
  - rewrite Hf, E1 by (by rewrite E1). simpl. apply IH.
  - by rewrite Hf, E1 by (by rewrite E1).
  - done.
Qed.

Lemma visit_S set_iter (M : gmap string (NodeWithPos * string)) fuel nm st :
  visit set_iter M (S fuel) nm st =
  if decide (nm ∈ visited st) then Done st
  else
    match (M !! nm : option (NodeWithPos * string)) with
    | None => Raise (KeyError nm)
    | Some (node, value) =>
      obind
        (for_each
           (λ used st, if decide (used ∈ dom M) then visit set_iter M fuel used st
                       else Done st)
           (set_iter (node_uses node))
           (mkSortState ({[nm]} ∪ visited st) (result st)))
        (λ st, Done (mkSortState (visited st) (result st ++ [(node, value)])))
    end.
Proof. reflexivity. Qed.

(** More fuel does not change a result that did not run out of fuel. *)
Lemma visit_more_fuel set_iter (M : gmap string (NodeWithPos * string)) fuel :
  ∀ nm st, visit set_iter M fuel nm st ≠ OutOfFuel →
    visit set_iter M (S fuel) nm st = visit set_iter M fuel nm st.
Proof.
  induction fuel as [|fuel IH]; intros nm st; [done|].
  rewrite (visit_S _ _ (S fuel)), (visit_S _ _ fuel).
  case_decide; [done|]. destruct (M !! nm) as [[node value]|]; [|done].
  intros Hne.
  rewrite (for_each_more_fuel
             (λ used st, if decide (used ∈ dom M) then visit set_iter M fuel used st
                         else Done st)
             (λ used st, if decide (used ∈ dom M) then visit set_iter M (S fuel) used st
                         else Done st)); [done| |].
  - intros used st0. case_decide; [apply IH | done].
  - intros E. by rewrite E in Hne.
Qed.

Lemma visit_fuel_le set_iter (M : gmap string (NodeWithPos * string)) fuel fuel' nm st :
  fuel ≤ fuel' → visit set_iter M fuel nm st ≠ OutOfFuel →
  visit set_iter M fuel' nm st = visit set_iter M fuel nm st.
Proof.
  induction 1 as [|fuel' Hle IH]; [done|]. intros Hne.
  rewrite visit_more_fuel; [by apply IH|]. by rewrite IH.
Qed.

(** Any recursion bound beyond the number of nodes gives the same result. *)
Lemma topological_sort_fuel_enough set_iter data fuel :
  length data < fuel →
  topological_sort_fuel set_iter fuel data = topological_sort set_iter data.
Proof.
  intros Hfuel. unfold topological_sort.
  destruct (topological_sort_fuel_spec set_iter data (S (length data)))
    as (res & Hres & _); [lia|].
  revert Hres. unfold topological_sort_fuel.
  destruct (for_each _ data _) as [st| |] eqn:E; simpl; [|done..].
  intros _.
  rewrite (for_each_more_fuel
             (λ (d : NodeWithPos * string) st,
                visit set_iter (name_to_node_of data) (S (length data)) (name d.1) st)
             (λ (d : NodeWithPos * string) st,
                visit set_iter (name_to_node_of data) fuel (name d.1) st)).
  - by rewrite E.
  - intros d st0 Hne. apply visit_fuel_le; [lia | done].
  - by rewrite E.
Qed.

(** A graph whose every known dependency has a strictly smaller rank has no
    cycle. *)
Lemma acyclic_by_rank (rank : string → nat) data :
  (∀ d : NodeWithPos * string, d ∈ data →
     ∀ v, v ∈ node_uses d.1 → v ∈ names data → rank v < rank (name d.1)) →
  acyclic data.
Proof.
  intros Hrank.
  assert (∀ u v, tc (edge data) u v → rank v < rank u) as Htc.
  { induction 1 as [u v (d & Hd & <- & Hv & Hk) | u v w (d & Hd & <- & Hv & Hk) _ IH].
    - by apply Hrank.
    - specialize (Hrank d Hd v Hv Hk). lia. }
  intros u Hu. apply Htc in Hu. lia.
Qed.

(** C2. For every input graph (node names are unique, as the data model
    requires), cyclic or not, [topological_sort] returns, under every recursion
    bound beyond the number of nodes, and its output is a rearrangement of the
    input: every input node occurs in it exactly once. *)
Theorem topological_sort_total_permutation
    (set_iter : gset string → list string) (data : list (NodeWithPos * string)) :
  NoDup (names data) →
  ∃ res, topological_sort set_iter data = Done res ∧ res ≡ₚ data ∧
    ∀ fuel, length data < fuel → topological_sort_fuel set_iter fuel data = Done res.
Proof.
  intros Hnd.
  assert (∃ res, topological_sort set_iter data = Done res ∧ res ≡ₚ data)
    as (res & Hrun & Hperm); last first.
  { exists res. split; [done|]. split; [done|]. intros fuel Hfuel.
    by rewrite topological_sort_fuel_enough. }
  unfold topological_sort.
  destruct (topological_sort_fuel_spec set_iter data (S (length data)))
    as (res & -> & Hres & Hlook & Hall & _); [lia|].
  exists res. split; [done|].
  apply NoDup_Permutation.
  - eapply NoDup_fmap_1. apply Hres.
  - eapply NoDup_fmap_1. apply Hnd.
  - intros d. split.
    + intros Hd. by apply (name_to_node_of_Some data (name d.1)), Hlook.
    + intros Hd.
      assert (name d.1 ∈ names res) as (d' & E & Hd')%list_elem_of_fmap.
      { apply Hall, list_elem_of_fmap. by exists d. }
      pose proof (Hlook d' Hd') as H1.
      pose proof (name_to_node_of_NoDup data d Hnd Hd) as H2.
      rewrite E in H2. congruence.
Qed.

(** C1. For every acyclic dependency graph, every node is emitted strictly
    after each of its resolved dependencies that names an input node. *)
Theorem topological_sort_dependencies_first
    (set_iter : gset string → list string) (data : list (NodeWithPos * string)) :
  (∀ s x, x ∈ set_iter s ↔ x ∈ s) →
  NoDup (names data) →
  acyclic data →
  ∃ res, topological_sort set_iter data = Done res ∧
    ∀ (u : NodeWithPos) (value v : string),
      (u, value) ∈ data → v ∈ node_uses u → v ∈ names data →
      before v (name u) (names res).
Proof.
  intros Hiter Hnd Hac. unfold topological_sort.
  destruct (topological_sort_fuel_spec set_iter data (S (length data)))
    as (res & -> & Hres & Hlook & Hall & Ho); [lia|].
  specialize (Ho Hiter Hac).
  exists res. split; [done|]. intros u value v Hu Hv Hk.
  assert (name u ∈ names res) as (d' & E & Hd')%list_elem_of_fmap.
  { apply Hall, list_elem_of_fmap. by exists (u, value). }
  assert (d' = (u, value)) as ->.
  { pose proof (Hlook d' Hd') as H1.
    pose proof (name_to_node_of_NoDup data (u, value) Hnd Hu) as H2.
    simpl in H2. rewrite E in H2. congruence. }
  apply list_elem_of_split in Hd' as (l1 & l2 & ->).
  assert (v ∈ names l1) as (i & Hi)%list_elem_of_lookup.
  { eapply Ho; [done | done |]. by apply elem_of_dom_name_to_node_of. }
  exists i, (length (names l1)). rewrite names_app.
  pose proof (lookup_lt_Some _ _ _ Hi).
  split; [by apply lookup_app_l_Some|]. split; [|done].
  rewrite lookup_app_r by lia. by rewrite Nat.sub_diag.
Qed.

Example topological_sort_chain :
  topological_sort elements ex_chain
  = Done [(ex_node "B" ∅, ""); (ex_node "A" {["B"]}, "")].
Proof. vm_compute. reflexivity. Qed.

Example topological_sort_cycle :
  names <$> (match topological_sort elements ex_cycle with
             | Done res => Some res | _ => None end)
  = Some ["B"; "A"; "C"].
Proof. vm_compute. reflexivity. Qed.

Lemma topological_sort_total_permutation_witness :
  ∃ res, topological_sort elements ex_cycle = Done res ∧ res ≡ₚ ex_cycle ∧
    ∀ fuel, length ex_cycle < fuel → topological_sort_fuel elements fuel ex_cycle = Done res.
Proof.
  apply (topological_sort_total_permutation elements ex_cycle).
  apply (bool_decide_unpack _). vm_compute. reflexivity.
Defined.

Lemma topological_sort_dependencies_first_witness :
  ∃ res, topological_sort elements ex_chain = Done res ∧
    ∀ (u : NodeWithPos) (value v : string),
      (u, value) ∈ ex_chain → v ∈ node_uses u → v ∈ names ex_chain →
      before v (name u) (names res).
Proof.
  apply (topological_sort_dependencies_first elements ex_chain).
  - intros s x. apply elem_of_elements.
  - apply (bool_decide_unpack _). vm_compute. reflexivity.
  - apply (acyclic_by_rank ex_rank).
    intros d Hd v Hv _. unfold ex_chain in Hd.
    apply elem_of_cons in Hd as [-> | Hd].
    + simpl in *. unfold node_uses in Hv. simpl in Hv.
      assert (v = "B") as -> by set_solver. vm_compute. lia.
    + apply list_elem_of_singleton in Hd as ->.
      unfold node_uses in Hv. simpl in Hv. set_solver.
Defined.

(** * Properties of the source splicer *)

Lemma str_take_min n s : str_take (Nat.min n (String.length s)) s = str_take n s.
Proof.
  revert n. induction s as [|c s IH]; intros [|n]; simpl; try done.
  by rewrite IH.
Qed.

Lemma str_drop_min n s : str_drop (Nat.min n (String.length s)) s = str_drop n s.
Proof.
  revert n. induction s as [|c s IH]; intros [|n]; simpl; try done.
Qed.

Lemma sum_line_lengths_seq lines n k :
  k + n ≤ length lines →
  sum_line_lengths lines (seq k n)
  = Done (Z.of_nat (sum_list (String.length <$> take n (drop k lines)))).
Proof.
  revert k. induction n as [|n IH]; intros k Hk; simpl; [done|].
  destruct (lines !! k) as [l|] eqn:Hl; last first.
  { apply lookup_ge_None in Hl. lia. }
  rewrite IH by lia. simpl.
  rewrite (drop_S _ _ _ Hl). simpl. by rewrite Nat2Z.inj_add.
Qed.

Lemma offset_of_absolute source p :
  (0 ≤ column p)%Z →
  (line p - 1 ≤ Z.of_nat (length (splitlines_keepends source)))%Z →
  offset_of (splitlines_keepends source) p
  = Done (Z.of_nat (absolute_offset source p)).
Proof.
  intros Hc Hl. unfold offset_of, absolute_offset.
  rewrite sum_line_lengths_seq by (simpl; lia). simpl.
  rewrite drop_0. f_equal. lia.
Qed.

Lemma slice_to_nat s n : slice_to s (Z.of_nat n) = str_take n s.
Proof.
  unfold slice_to, slice_bound. case_decide; [lia|].
  by rewrite Nat2Z.id, str_take_min.
Qed.

Lemma slice_from_nat s n : slice_from s (Z.of_nat n) = str_drop n s.
Proof.
  unfold slice_from, slice_bound. case_decide; [lia|].
  by rewrite Nat2Z.id, str_drop_min.
Qed.



Example modify_source_example :
  (λ w, fs w !! "Proj/Basic.lean") <$>
    (match modify_source elements (ex_node "a" ∅) "Proj/Basic.lean" ex_location
             false (Some []) ex_world with Done w => Some w | _ => None end)
  = Some (Some ("import Foo" +:+ nl +:+ nl +:+ nl +:+ "@[blueprint" +:+ nl
                +:+ "  (latexEnv := " +:+ quote "theorem" +:+ ")]" +:+ nl
                +:+ "theorem a : True := by" +:+ nl +:+ "  trivial" +:+ nl
                +:+ nl +:+ "def tail := 1" +:+ nl)).
Proof. vm_compute. reflexivity. Qed.

(** * Properties of the annotation synthesizer *)

Lemma append_if_app b x configs :
  append_if b x configs = configs ++ (if b then [x] else []).
Proof. destruct b; simpl; [done | by rewrite app_nil_r]. Qed.

Lemma filter_cons_if {A} (p : A → bool) x l :
  List.filter p (x :: l) = (if p x then [x] else []) ++ List.filter p l.
Proof. simpl. by destruct (p x). Qed.

Lemma fmap_if_singleton {A B} (f : A → B) (b : bool) x :
  f <$> (if b then [x] else []) = if b then [f x] else [].
Proof. by destruct b. Qed.

(** C8, as the code has it. The attribute text lists the included fields in
    the fixed order title, statement text, statement uses, statement raw uses,
    proof text, proof uses, proof raw uses, not-ready, discussion, environment
    kind; the title is included when present and not empty, the not-ready flag
    when set, the discussion handle when set and not zero, the environment
    kind exactly when it differs from the default. *)
Theorem to_lean_attribute_fields
    (set_iter : gset string → list string) (n : Node) (fl : Flags) :
  to_lean_attribute set_iter n (add_statement_text fl) (add_uses fl) (add_uses_raw fl)
    (add_proof_text fl) (add_proof_uses fl) (add_proof_uses_raw fl)
  = attribute_of_fields set_iter (field_included fl n) n.
Proof.
  unfold to_lean_attribute, attribute_of_fields, field_order.
  f_equal. f_equal.
  rewrite !filter_cons_if. simpl List.filter. rewrite app_nil_r.
  rewrite !fmap_app, !fmap_if_singleton.
  unfold field_included, flagged_field_included, render_field, default_env.
  destruct n as [nm st pf nr disc ttl]; simpl.
  rewrite !append_if_app.
  destruct ttl as [t|], pf as [p|], disc as [z|]; simpl;
    rewrite ?append_if_app; simpl;
    rewrite ?fmap_app, ?fmap_if_singleton, ?app_nil_r, <- ?app_assoc; simpl;
    reflexivity.
Qed.

(** C8, as worded, fails: a discussion handle that is set to zero is left out
    of the attribute (and so is a title that is present but empty). *)
Lemma to_lean_attribute_not_as_specified :
  to_lean_attribute elements ex_discussion_zero true true true true true true
    = "blueprint" ∧
  attribute_of_fields elements (field_included_as_specified all_flags ex_discussion_zero)
    ex_discussion_zero
    = "blueprint" +:+ nl +:+ "  (discussion := 0)" ∧
  to_lean_attribute elements ex_discussion_zero true true true true true true
    ≠ attribute_of_fields elements
        (field_included_as_specified all_flags ex_discussion_zero) ex_discussion_zero ∧
  to_lean_attribute elements ex_empty_title true true true true true true
    ≠ attribute_of_fields elements
        (field_included_as_specified all_flags ex_empty_title) ex_empty_title.
Proof. vm_compute. repeat split; discriminate. Qed.

(** * Properties of insert_docstring_and_attribute *)



Lemma until_pair_app (a b : ascii) (x r : string) :
  a ≠ b →
  contains (String a (String b "")) x = false →
  until_pair a b (x +:+ String a (String b r)) = Some (x, r).
Proof.
  intros Hab. induction x as [|c x IH]; str_norm; simpl.
  - intros _. rewrite bool_decide_eq_true_2 by done. simpl.
    by rewrite decide_True.
  - intros Hx. apply orb_false_elim in Hx as [Hs Hx]. rewrite (IH Hx).
    destruct (decide (a = c)) as [<-|Hc].
    + rewrite bool_decide_eq_true_2 by done. simpl.
      destruct x as [|d x]; str_norm; simpl in *.
      * by rewrite decide_False by done.
      * destruct (decide (b = d)) as [<-|Hd]; [done|]. done.
    + rewrite bool_decide_eq_false_2 by done. done.
Qed.






Lemma lstrip_head s :
  lstrip s = "" ∨ ∃ c r, lstrip s = String c r ∧ is_space c = false.
Proof.
  induction s as [|c s IH]; simpl; [by left|].
  destruct (is_space c) eqn:E; [done|]. right. by eexists _, _.
Qed.


Lemma make_docstring_body t i : make_docstring t i = "/--" +:+ docstring_body t i +:+ "-/".
Proof.
  unfold make_docstring, docstring_body.
  destruct (contains nl _); rewrite ?str_app_assoc; str_norm;
    rewrite ?str_app_assoc; by str_norm.
Qed.

Lemma replace_nl_id t : replace nl (nl +:+ repeat_char " " 0) t = t.
Proof.
  unfold replace. simpl. str_norm.
  induction t as [|c t IH]; simpl; [done|].
  case_decide as E; str_norm; rewrite IH; [by subst c | done].
Qed.

Lemma contains_lstrip p s : contains p s = false → contains p (lstrip s) = false.
Proof.
  induction s as [|c s IH]; [done|].
  intros Hs. simpl. destruct (is_space c); [|done].
  apply IH. simpl in Hs. by apply orb_false_elim in Hs as [_ ?].
Qed.

Lemma startswith_app_l x y p : startswith x p = true → startswith (x +:+ y) p = true.
Proof.
  revert x. induction p as [|a p IH]; intros x; simpl; [done|].
  destruct x as [|b x]; [done|]. str_norm. case_decide; [apply IH | done].
Qed.

Lemma contains_app_l p x y : contains p (x +:+ y) = false → contains p x = false.
Proof.
  induction x as [|c x IH]; str_norm.
  - intros Hy. simpl. destruct p; [|done].
    destruct y; simpl in Hy; done.
  - simpl. intros [Hs Hx]%orb_false_elim. rewrite (IH Hx), orb_false_r.
    destruct (startswith (String c x) p) eqn:E; [|done].
    pose proof (startswith_app_l (String c x) y p E) as E'.
    rewrite str_app_cons in E'. congruence.
Qed.

Lemma rstrip_prefix s : ∃ t, s = rstrip s +:+ t.
Proof.
  induction s as [|c s [t IH]]; [by exists ""|]. simpl.
  destruct (rstrip s) as [|d r] eqn:E.
  - destruct (is_space c); [by eexists | exists s; by str_norm].
  - exists t. str_norm. by rewrite <- str_app_cons, <- IH.
Qed.

Lemma contains_strip p s : contains p s = false → contains p (strip s) = false.
Proof.
  intros Hs%contains_lstrip. unfold strip.
  destruct (rstrip_prefix (lstrip s)) as [t Ht]. rewrite Ht in Hs.
  by apply contains_app_l in Hs.
Qed.

(** Padding with one character on each side that is neither a dash nor a
    slash creates no comment terminator. *)
Lemma contains_close_pad c1 c2 t :
  c1 ≠ "-"%char → c2 ≠ "/"%char → c2 ≠ "-"%char →
  contains "-/" t = false →
  contains "-/" (String c1 (t +:+ String c2 "")) = false.
Proof.
  intros H1 H2 H3 Ht. simpl. rewrite (decide_False (P := "-"%char = c1)) by done.
  simpl. clear H1. induction t as [|c t IH]; str_norm; simpl.
  - rewrite (decide_False (P := "-"%char = c2)) by done. done.
  - simpl in Ht. apply orb_false_elim in Ht as [Hs Ht]. rewrite (IH Ht), orb_false_r.
    destruct (decide ("-"%char = c)) as [<-|]; [|done].
    destruct t as [|d t]; str_norm; simpl in *.
    + by rewrite decide_False by done.
    + by destruct (decide ("/"%char = d)).
Qed.

Lemma contains_close_body d :
  contains "-/" d = false → contains "-/" (docstring_body d 0) = false.
Proof.
  intros Hd%contains_strip. unfold docstring_body. rewrite replace_nl_id.
  destruct (contains nl (strip d)); simpl repeat_char; str_norm.
  - rewrite str_app_nil_r. by apply contains_close_pad.
  - by apply contains_close_pad.
Qed.




(** A docstring at the start is recognised up to its first terminator, with
    the whitespace that follows it. *)
Lemma match_docstring_existing body c s :
  contains "-/" body = false → is_space c = false →
  match_docstring ("/--" +:+ body +:+ "-/" +:+ nl +:+ String c s)
  = Some ("/--" +:+ body +:+ "-/" +:+ nl, body).
Proof.
  intros Hb Hc. unfold match_docstring. str_norm. simpl.
  rewrite until_pair_app by done.
  unfold nl. str_norm. simpl. by rewrite Hc.
Qed.






Example insert_twice_example :
  (insert_twice "theorem a := b" "first" "x" "second" "y" ex_world).1
  = "/--" +:+ nl +:+ "second" +:+ nl +:+ nl +:+ "first" +:+ nl +:+ "-/" +:+ nl
    +:+ "@[x, y]" +:+ nl +:+ "theorem a := b".
Proof. vm_compute. reflexivity. Qed.



(** The example of the specification: a declaration without docstring or
    attribute receives both in front, its body untouched. *)
Example insert_docstring_and_attribute_example :
  (insert_docstring_and_attribute ("theorem a := by" +:+ nl +:+ "  exact b")
     "Some statement." ("blueprint" +:+ nl +:+ "  (uses := [b])") ex_world).1
  = "/-- Some statement. -/" +:+ nl +:+ "@[blueprint" +:+ nl +:+ "  (uses := [b])]"
    +:+ nl +:+ "theorem a := by" +:+ nl +:+ "  exact b".
Proof. vm_compute. reflexivity. Qed.

(** Existing modifiers, docstring and attributes are merged. *)
Example insert_docstring_and_attribute_merge :
  (insert_docstring_and_attribute
     ("open Foo in" +:+ nl +:+ "/-- old -/" +:+ nl +:+ "@[simp] theorem a := b")
     "new" "blueprint" ex_world).1
  = "open Foo in" +:+ nl +:+ "/--" +:+ nl +:+ "new" +:+ nl +:+ nl +:+ "old" +:+ nl
    +:+ "-/" +:+ nl +:+ "@[simp, blueprint]" +:+ nl +:+ "theorem a := b".
Proof. vm_compute. reflexivity. Qed.

(** * Properties of the import line and of write_blueprint_attributes *)








Lemma elem_of_insert_desc x y l : y ∈ insert_desc x l ↔ y = x ∨ y ∈ l.
Proof.
  induction l as [|z l IH]; simpl.
  - rewrite list_elem_of_singleton. set_solver.
  - destruct (key_lt _ _); rewrite !elem_of_cons, ?IH; tauto.
Qed.

Lemma elem_of_sorted_by_location_reverse x l :
  x ∈ sorted_by_location_reverse l ↔ x ∈ l.
Proof.
  unfold sorted_by_location_reverse. induction l as [|y l IH]; simpl; [done|].
  rewrite elem_of_insert_desc, IH, elem_of_cons. done.
Qed.





(** * Properties of the include resolver *)

Lemma re_sub_with_go_ext {A S} (matcher : string → option (A * nat))
    (f1 f2 : A → S → outcome (string * S)) skip s st :
  (∀ g st, f1 g st = f2 g st) →
  re_sub_with_go matcher f1 skip s st = re_sub_with_go matcher f2 skip s st.
Proof.
  intros Hf. revert skip st. induction s as [|c s IH]; intros skip st; simpl; [done|].
  destruct skip; [|apply IH].
  destruct (matcher _) as [[g len]|].
  - rewrite Hf. destruct (f2 g st) as [[r st']| |]; simpl; [|done..].
    by rewrite IH.
  - by rewrite IH.
Qed.

(** A scan whose callback never runs out of fuel, and only lets the property
    [P] of the state grow, does not run out of fuel either. *)
Lemma re_sub_with_go_total {A S} (matcher : string → option (A * nat))
    (f : A → S → outcome (string * S)) (R : S → S → Prop) (P : S → Prop) :
  (∀ st, R st st) → (∀ a b c, R a b → R b c → R a c) →
  (∀ a b, P a → R a b → P b) →
  (∀ g st, P st → f g st ≠ OutOfFuel ∧
           ∀ r st', f g st = Done (r, st') → R st st') →
  ∀ skip s st, P st →
    re_sub_with_go matcher f skip s st ≠ OutOfFuel ∧
    ∀ r st', re_sub_with_go matcher f skip s st = Done (r, st') → R st st'.
Proof.
  intros Hrefl Htrans HP Hf skip s. revert skip.
  induction s as [|c s IH]; intros skip st Hst; simpl.
  - split; [done|]. by intros r st' [= _ <-].
  - destruct skip; [|by apply IH].
    destruct (matcher _) as [[g len]|].
    + destruct (Hf g st Hst) as [Hne Hmono].
      destruct (f g st) as [[r1 st1]| |]; simpl; [|done..].
      specialize (Hmono _ _ eq_refl).
      destruct (IH (len - 1) st1 (HP _ _ Hst Hmono)) as [Hne' Hmono'].
      destruct (re_sub_with_go matcher f (len - 1) s st1) as [[r2 st2]| |];
        simpl; [|done..].
      split; [done|]. intros r st' [= _ <-]. eauto.
    + destruct (IH 0 st Hst) as [Hne' Hmono'].
      destruct (re_sub_with_go matcher f 0 s st) as [[r2 st2]| |]; simpl; [|done..].
      split; [done|]. intros r st' [= _ <-]. eauto.
Qed.

(** A scan whose callback [f1] is refined by [f2] wherever [f1] does not run
    out of fuel. *)
Lemma re_sub_with_go_mono {A S} (matcher : string → option (A * nat))
    (f1 f2 : A → S → outcome (string * S)) :
  (∀ g st, f1 g st ≠ OutOfFuel → f2 g st = f1 g st) →
  ∀ skip s st, re_sub_with_go matcher f1 skip s st ≠ OutOfFuel →
    re_sub_with_go matcher f2 skip s st = re_sub_with_go matcher f1 skip s st.
Proof.
  intros Hf skip s. revert skip. induction s as [|c s IH]; intros skip st; simpl; [done|].
  destruct skip; [|apply IH].
  destruct (matcher _) as [[g len]|].
  - destruct (f1 g st) as [[r1 st1]| |] eqn:E1; simpl.
    + rewrite Hf, E1 by (rewrite E1; done). simpl. intros Hne.
      rewrite IH; [done|]. intros E. by rewrite E in Hne.
    + rewrite Hf, E1 by (rewrite E1; done). done.
    + done.
  - intros Hne. rewrite IH; [done|]. intros E. by rewrite E in Hne.
Qed.

Section include_facts.
Context {Path : Type} `{Countable Path}.
Context (parent : Path → Path) (joinpath : Path → string → Path).
Context (show_path : Path → string).

Local Abbreviation read := (_read joinpath show_path).

Lemma _read_S (files : gmap Path string) (root_dir : Path) fuel file st :
  read files root_dir (S fuel) file st =
  if decide (file ∈ seen st) then
    Done ("", mkReadState (seen st)
                (read_log st ++
                 ["Circular \input detected for file: " +:+ show_path file]))
  else
    match files !! file with
    | None => Raise (FileNotFoundError (show_path file))
    | Some text =>
      re_sub_with_go (match_command_argument "input")
        (λ group1 st,
           let input_path := strip group1 in
           let input_path :=
             if endswith input_path ".tex" then input_path
             else input_path +:+ ".tex" in
           let input_file := joinpath root_dir input_path in
           match files !! input_file with
           | None =>
             Done ("", mkReadState (seen st)
                         (read_log st ++
                          ["\input file not found: " +:+ show_path input_file]))
           | Some _ => read files root_dir fuel input_file st
           end)
        0 text (mkReadState ({[file]} ∪ seen st) (read_log st))
    end.
Proof. reflexivity. Qed.

(** Files that are never named by an inclusion have no influence. *)
Lemma _read_agree (files1 files2 : gmap Path string) (root_dir : Path) fuel :
  (∀ p, files1 !! joinpath root_dir p = files2 !! joinpath root_dir p) →
  ∀ file st, files1 !! file = files2 !! file →
    read files1 root_dir fuel file st = read files2 root_dir fuel file st.
Proof.
  intros Hdir. induction fuel as [|fuel IH]; intros file st Hfile; simpl; [done|].
  case_decide; [done|]. rewrite Hfile.
  destruct (files2 !! file) as [text|]; [|done].
  apply re_sub_with_go_ext. intros g st'. rewrite Hdir.
  destruct (files2 !! joinpath _ _) eqn:E; [|done]. apply IH. by rewrite Hdir.
Qed.

(** With fuel beyond the number of files not yet seen, [_read] does not run
    out of fuel; and it only adds to [seen]. *)
Lemma _read_total (files : gmap Path string) (root_dir : Path) fuel :
  ∀ file st, size (dom files ∖ seen st) < fuel →
    read files root_dir fuel file st ≠ OutOfFuel ∧
    ∀ r st', read files root_dir fuel file st = Done (r, st') →
      seen st ⊆ seen st'.
Proof.
  induction fuel as [|fuel IH]; intros file st Hsz; [lia|]. simpl.
  case_decide as Hseen.
  { split; [done|]. by intros r st' [= _ <-]. }
  destruct (files !! file) as [text|] eqn:Hfile; [|done].
  set (st1 := mkReadState ({[file]} ∪ seen st) (read_log st)).
  assert (size (dom files ∖ seen st1) < fuel) as Hsz1.
  { assert (dom files ∖ seen st1 ⊂ dom files ∖ seen st) as Hs.
    { simpl. apply strict_spec_alt. split; [set_solver|].
      assert (file ∈ dom files) by (apply elem_of_dom; eauto).
      intros E. assert (file ∈ dom files ∖ seen st) as Hx by set_solver.
      rewrite <- E in Hx. set_solver. }
    apply subset_size in Hs. lia. }
  match goal with
  | |- re_sub_with_go ?m ?f 0 text st1 ≠ _ ∧ _ =>
    destruct (re_sub_with_go_total m f (λ a b, seen a ⊆ seen b)
                (λ a, seen st1 ⊆ seen a)) with (skip := 0) (s := text) (st := st1)
      as [Hne Hmono]
  end.
  - done.
  - intros a b c ??. set_solver.
  - intros a b ??. set_solver.
  - intros g st' Hst'. destruct (files !! joinpath _ _).
    + apply IH.
      assert (dom files ∖ seen st' ⊆ dom files ∖ seen st1) as Hs by set_solver.
      apply subseteq_size in Hs. lia.
    + split; [done|]. by intros r st'' [= _ <-].
  - done.
  - split; [done|]. intros r st' Hr. specialize (Hmono _ _ Hr).
    simpl in Hmono. set_solver.
Qed.

(** More fuel does not change a result that did not run out of fuel. *)
Lemma _read_more_fuel (files : gmap Path string) (root_dir : Path) fuel :
  ∀ file st, read files root_dir fuel file st ≠ OutOfFuel →
    read files root_dir (S fuel) file st = read files root_dir fuel file st.
Proof.
  induction fuel as [|fuel IH]; intros file st Hne; [done|].
  revert Hne. rewrite (_read_S _ _ (S fuel)), (_read_S _ _ fuel).
  case_decide; [done|].
  destruct (files !! file) as [text|]; [|done].
  apply re_sub_with_go_mono. intros g st'. cbv beta zeta.
  destruct (files !! joinpath _ _); [|done]. apply IH.
Qed.

Lemma _read_fuel_le (files : gmap Path string) (root_dir : Path) fuel fuel' file st :
  fuel ≤ fuel' → read files root_dir fuel file st ≠ OutOfFuel →
  read files root_dir fuel' file st = read files root_dir fuel file st.
Proof.
  induction 1 as [|fuel' Hle IH]; [done|]. intros Hne.
  rewrite _read_more_fuel; [by apply IH|]. by rewrite IH.
Qed.

Lemma read_latex_file_enough_fuel (files : gmap Path string) (file : Path) fuel :
  size files < fuel →
  read_latex_file_fuel parent joinpath show_path fuel files file
  = read_latex_file parent joinpath show_path files file.
Proof.
  intros Hfuel. unfold read_latex_file, read_latex_file_fuel.
  rewrite (_read_fuel_le files (parent file) (S (size files)) fuel); [done | lia |].
  apply _read_total. simpl.
  assert (dom files ∖ (∅ : gset Path) ⊆ dom files) as Hs by set_solver.
  apply subseteq_size in Hs. rewrite size_dom in Hs. lia.
Qed.

End include_facts.

Section include_refinement.
Context {Path : Type} `{Countable Path}.
Context (parent : Path → Path) (joinpath : Path → string → Path).
Context (show_path : Path → string).

Lemma _read_expand_inputs (files : gmap Path string) (root_dir : Path) fuel :
  ∀ file st,
    _read joinpath show_path files root_dir fuel file st
    = expand_inputs show_path (λ _ p, joinpath root_dir p) files fuel file st.
Proof.
  induction fuel as [|fuel IH]; intros file st; simpl; [done|].
  case_decide; [done|]. destruct (files !! file) as [text|]; [|done].
  apply re_sub_with_go_ext. intros g st'. unfold default_tex.
  destruct (files !! joinpath _ _); [|done]. apply IH.
Qed.

(** [read_latex_file] is the include resolver in which the file named by a
    directive does not depend on the file that contains the directive. *)
Lemma read_latex_file_expand_document (files : gmap Path string) (file : Path) :
  read_latex_file parent joinpath show_path files file
  = expand_document show_path
      (λ (containing : Path) (input_path : string), joinpath (parent file) input_path)
      files file.
Proof.
  unfold read_latex_file, read_latex_file_fuel, expand_document.
  by rewrite _read_expand_inputs.
Qed.

(** Only the root document and files under paths joined to its directory
    are ever read. *)
Lemma read_latex_file_agree (files1 files2 : gmap Path string) (file : Path) :
  files1 !! file = files2 !! file →
  (∀ p, files1 !! joinpath (parent file) p = files2 !! joinpath (parent file) p) →
  read_latex_file parent joinpath show_path files1 file
  = read_latex_file parent joinpath show_path files2 file.
Proof.
  intros Hfile Hdir.
  rewrite <- (read_latex_file_enough_fuel parent joinpath show_path files1 file
                (S (size files1 `max` size files2))) by lia.
  rewrite <- (read_latex_file_enough_fuel parent joinpath show_path files2 file
                (S (size files1 `max` size files2))) by lia.
  unfold read_latex_file_fuel. by rewrite (_read_agree _ _ files1 files2).
Qed.
End include_refinement.

(** In a nested file of a sub-directory the path [part] names the file next
    to the root document; a resolver going by the containing file's directory
    would have read the other one. *)
Example read_latex_file_nested :
  read_latex_file ex_parent ex_join id (ex_nested "stray") "doc/web.tex"
    = Done ("<[root]>", []) ∧
  expand_document id (λ containing p, ex_join (ex_parent containing) p)
    (ex_nested "stray") "doc/web.tex"
    = Done ("<[stray]>", []).
Proof. split; vm_compute; reflexivity. Qed.

(** C6, on the code: a file included twice in a row, with no cycle anywhere, is
    inlined at the first occurrence only; the second yields the empty text
    and a warning that reports a circular inclusion. *)
Lemma read_latex_file_second_occurrence_empty :
  ex_files !! "doc/web.tex"
    = Some (String BACKSLASH "input{a}-" +:+ String BACKSLASH "input{a}") ∧
  ex_files !! "doc/a.tex" = Some "X" ∧
  read_latex_file ex_parent ex_join id ex_files "doc/web.tex"
    = Done ("X-", ["Circular " +:+ String BACKSLASH "input detected for file: doc/a.tex"]).
Proof. repeat split; vm_compute; reflexivity. Qed.

(** The callback of a scan is run on the captures that [re.findall] lists. *)
Lemma re_sub_with_go_invariant {A S} (matcher : string → option (A * nat))
    (f : A → S → outcome (string * S)) (I : S → Prop) skip s :
  (∀ g st r st', g ∈ re_findall_go matcher skip s → I st →
                 f g st = Done (r, st') → I st') →
  ∀ st out st', re_sub_with_go matcher f skip s st = Done (out, st') → I st → I st'.
Proof.
  revert skip. induction s as [|c s IH]; intros skip Hf st out st'; simpl.
  - by intros [= _ <-].
  - simpl in Hf. destruct skip as [|k]; [|by apply IH].
    destruct (matcher _) as [[g len]|].
    + intros Hrun Hst.
      destruct (f g st) as [[r1 st1]| |] eqn:E1; simpl in Hrun; [|done..].
      destruct (re_sub_with_go matcher f (len - 1) s st1) as [[r2 st2]| |] eqn:E2;
        simpl in Hrun; [|done..].
      injection Hrun as _ <-.
      eapply (IH (len - 1)); [|done|].
      * intros g' st0 r st0' Hg'. apply Hf. by right.
      * eapply Hf; [by left | done..].
    + intros Hrun Hst.
      destruct (re_sub_with_go matcher f 0 s st) as [[r2 st2]| |] eqn:E2;
        simpl in Hrun; [|done..].
      injection Hrun as _ <-. by eapply (IH 0).
Qed.

Section opened_facts.
Context {Path : Type} `{Countable Path}.
Context (joinpath : Path → string → Path) (show_path : Path → string).
Context (files : gmap Path string) (root root_dir : Path).

Local Abbreviation justified opened p :=
  (p = root ∨ named_from joinpath files root_dir opened p).

Lemma named_from_mono opened opened' p :
  opened ⊆ opened' →
  named_from joinpath files root_dir opened p →
  named_from joinpath files root_dir opened' p.
Proof.
  intros Hsub (cf & content & g & ? & ? & ? & ?). exists cf, content, g.
  split; [set_solver | done].
Qed.

Lemma _read_opened fuel :
  ∀ file st text st',
    _read joinpath show_path files root_dir fuel file st = Done (text, st') →
    (∀ p, p ∈ seen st → justified (seen st) p) →
    justified (seen st) file →
    seen st ⊆ seen st' ∧ ∀ p, p ∈ seen st' → justified (seen st') p.
Proof.
  induction fuel as [|fuel IH]; intros file st text st'; [done|].
  rewrite _read_S. case_decide as Hseen.
  { intros [= _ <-] HQ _. done. }
  destruct (files !! file) as [content|] eqn:Hfile; [|done].
  intros Hrun HQ Hjust.
  set (st1 := mkReadState ({[file]} ∪ seen st) (read_log st)) in *.
  pose (I := λ s : ReadState,
          seen st1 ⊆ seen s ∧ ∀ p, p ∈ seen s → justified (seen s) p).
  assert (I st') as [Hsub Hst'].
  { eapply (re_sub_with_go_invariant _ _ I); [|exact Hrun|].
    - intros g s r s' Hg [Hs1 HQs]. cbv beta zeta.
      destruct (files !! joinpath _ _) eqn:Hin.
      + intros Hread. destruct (IH _ _ _ _ Hread HQs) as [Hss HQ'].
        * right. exists file, content, g. split; [set_solver | done].
        * split; [set_solver | done].
      + intros [= _ <-]. done.
    - split; [done|]. simpl. intros p [->%elem_of_singleton | Hp]%elem_of_union.
      + destruct Hjust as [-> | Hn]; [by left|]. right.
        eapply named_from_mono; [|done]. set_solver.
      + destruct (HQ p Hp) as [-> | Hn]; [by left|]. right.
        eapply named_from_mono; [|done]. set_solver. }
  split; [|done]. simpl in Hsub. set_solver.
Qed.
End opened_facts.

(** A scan runs its callback on every capture that [re.findall] lists: what
    the callback establishes for a capture, and later callbacks preserve,
    holds at the end. *)
Lemma re_sub_with_go_post {A S} (matcher : string → option (A * nat))
    (f : A → S → outcome (string * S)) (R : S → S → Prop) (I : S → Prop)
    (Post : A → S → Prop) :
  (∀ st, R st st) → (∀ a b c, R a b → R b c → R a c) →
  (∀ g st st', Post g st → R st st' → Post g st') →
  ∀ skip s,
    (∀ g st r st', g ∈ re_findall_go matcher skip s → I st →
                   f g st = Done (r, st') → I st' ∧ R st st' ∧ Post g st') →
    ∀ st out st', re_sub_with_go matcher f skip s st = Done (out, st') → I st →
      I st' ∧ R st st' ∧ ∀ g, g ∈ re_findall_go matcher skip s → Post g st'.
Proof.
  intros Hrefl Htrans Hpost skip s. revert skip.
  induction s as [|c s IH]; intros skip Hf st out st'; simpl.
  - intros [= _ <-] Hst. split; [done|]. split; [done|]. by intros g ?%elem_of_nil.
  - simpl in Hf. destruct skip as [|k]; [|by apply IH].
    destruct (matcher _) as [[g len]|].
    + intros Hrun Hst.
      destruct (f g st) as [[r1 st1]| |] eqn:E1; simpl in Hrun; [|done..].
      destruct (re_sub_with_go matcher f (len - 1) s st1) as [[r2 st2]| |] eqn:E2;
        simpl in Hrun; [|done..].
      injection Hrun as _ <-.
      destruct (Hf g st r1 st1) as (HI1 & HR1 & HP1); [by left | done..|].
      destruct (IH (len - 1)) with (st := st1) (out := r2) (st' := st2)
        as (HI2 & HR2 & HP2); [|done..|].
      { intros g' st0 r st0' Hg'. apply Hf. by right. }
      split; [done|]. split; [by eapply Htrans|].
      intros g' [-> | Hg']%elem_of_cons; [by eapply Hpost | by apply HP2].
    + intros Hrun Hst.
      destruct (re_sub_with_go matcher f 0 s st) as [[r2 st2]| |] eqn:E2;
        simpl in Hrun; [|done..].
      injection Hrun as _ <-. by eapply (IH 0).
Qed.

Section resolved_facts.
Context {Path : Type} `{Countable Path}.
Context (joinpath : Path → string → Path) (show_path : Path → string).
Context (files : gmap Path string) (root_dir : Path).

Local Abbreviation directives_resolved :=
  (directives_resolved joinpath files root_dir).

Lemma _read_resolved fuel :
  ∀ file st text st',
    _read joinpath show_path files root_dir fuel file st = Done (text, st') →
    seen st ⊆ seen st' ∧ file ∈ seen st' ∧
    ∀ containing, containing ∈ seen st' → containing ∉ seen st →
      directives_resolved (seen st') containing.
Proof.
  induction fuel as [|fuel IH]; intros file st text st'; [done|].
  rewrite _read_S. case_decide as Hseen.
  { intros [= _ <-]. simpl. split; [done|]. split; [done|]. by intros ???. }
  destruct (files !! file) as [content|] eqn:Hfile; [|done].
  intros Hrun.
  set (st1 := mkReadState ({[file]} ∪ seen st) (read_log st)) in *.
  pose (I := λ s : ReadState,
          seen st1 ⊆ seen s ∧
          ∀ cf, cf ∈ seen s → cf ∉ seen st1 → directives_resolved (seen s) cf).
  pose (R := λ a b : @ReadState Path _ _, seen a ⊆ seen b).
  pose (Post := λ (g : string) (s : @ReadState Path _ _),
          is_Some (files !! joinpath root_dir (default_tex g)) →
          joinpath root_dir (default_tex g) ∈ seen s).
  assert (I st' ∧ R st1 st' ∧
          ∀ g, g ∈ re_findall_go (match_command_argument "input") 0 content → Post g st')
    as ((Hsub & Hnew) & _ & Hthis).
  { eapply (re_sub_with_go_post _ _ R I Post). 5: exact Hrun.
    - intros a. by unfold R.
    - intros a b c ??. unfold R in *. set_solver.
    - intros g a b Hp Hab Hex. unfold R in *. specialize (Hp Hex). set_solver.
    - intros g s r s' Hg [Hs1 Hres]. unfold I, R, Post. cbv beta zeta.
      fold (default_tex g).
      destruct (files !! joinpath root_dir (default_tex g)) eqn:Hin.
      + intros Hread. destruct (IH _ _ _ _ Hread) as (Hss & Hopen & Hnested).
        split; [|split; [done | by intros _]].
        split; [set_solver|]. intros cf Hcf Hcf1.
        destruct (decide (cf ∈ seen s)) as [Hold|Hfresh].
        * intros content' g' Hc' Hg' Hex'.
          specialize (Hres cf Hold Hcf1 _ _ Hc' Hg' Hex'). set_solver.
        * by apply Hnested.
      + intros [= _ <-]. simpl. split; [done|]. split; [done|].
        intros [? Hex]. congruence.
    - unfold I. split; [done|]. simpl. intros cf Hcf Hcf1. done. }
  unfold Post in Hthis.
  split; [simpl in Hsub; set_solver|]. split; [simpl in Hsub; set_solver|].
  intros cf Hcf Hcf0.
  destruct (decide (cf = file)) as [->|Hne].
  - intros content' g' Hc' Hg' Hex'. rewrite Hfile in Hc'. injection Hc' as <-.
    by apply Hthis.
  - apply Hnew; [done|]. simpl. set_solver.
Qed.
End resolved_facts.

(** C9. Every inclusion directive found in a file that [read_latex_file]
    opens, at any depth, is resolved to the directive's path joined to the
    directory of the root document, not to that of the file that contains it:
    that file, if it exists, is opened; and every opened file other than the
    root document is such a file. *)
Theorem read_latex_file_resolves_from_root
    {Path : Type} `{Countable Path}
    (parent : Path → Path) (joinpath : Path → string → Path)
    (show_path : Path → string) (files : gmap Path string) (file : Path)
    (text : string) (st' : ReadState) :
  _read joinpath show_path files (parent file) (S (size files)) file (mkReadState ∅ [])
    = Done (text, st') →
  read_latex_file parent joinpath show_path files file = Done (text, read_log st') ∧
  (∀ containing content group1,
     containing ∈ seen st' →
     files !! containing = Some content →
     group1 ∈ re_findall (match_command_argument "input") content →
     is_Some (files !! joinpath (parent file) (default_tex group1)) →
     joinpath (parent file) (default_tex group1) ∈ seen st') ∧
  (∀ p, p ∈ seen st' →
     p = file ∨ named_from joinpath files (parent file) (seen st') p).
Proof.
  intros Hrun. split; [|split].
  - unfold read_latex_file, read_latex_file_fuel. by rewrite Hrun.
  - intros containing content g Hc Hcontent Hg Hex.
    destruct (_read_resolved joinpath show_path files (parent file) _ _ _ _ _ Hrun)
      as (_ & _ & Hres).
    eapply Hres; [done | simpl; set_solver | done..].
  - eapply (_read_opened joinpath show_path files file (parent file)); [exact Hrun|..].
    + simpl. by intros p ?%elem_of_empty.
    + by left.
Qed.

Lemma read_latex_file_resolves_from_root_witness :
  read_latex_file ex_parent ex_join id (ex_nested "stray") "doc/web.tex"
    = Done ("<[root]>", read_log ex_nested_state) ∧
  (∀ containing content group1,
     containing ∈ seen ex_nested_state →
     ex_nested "stray" !! containing = Some content →
     group1 ∈ re_findall (match_command_argument "input") content →
     is_Some (ex_nested "stray" !! ex_join (ex_parent "doc/web.tex") (default_tex group1)) →
     ex_join (ex_parent "doc/web.tex") (default_tex group1) ∈ seen ex_nested_state) ∧
  (∀ p, p ∈ seen ex_nested_state →
     p = "doc/web.tex" ∨
     named_from ex_join (ex_nested "stray") (ex_parent "doc/web.tex")
       (seen ex_nested_state) p).
Proof.
  apply (read_latex_file_resolves_from_root ex_parent ex_join id (ex_nested "stray")
           "doc/web.tex" "<[root]>" ex_nested_state).
  vm_compute. reflexivity.
Defined.

(** * Properties of the directive extractor and of parse_nodes *)

(** The only warning of [find_and_remove_command_argument] is the one about
    several arguments; what it returns does not depend on the log. *)
Lemma find_and_remove_command_argument_log command source log :
  ∃ extra,
    find_and_remove_command_argument command source log
    = ((find_and_remove_command_argument command source []).1.1,
       (find_and_remove_command_argument command source []).1.2,
       log ++ extra) ∧
    Forall (λ m, startswith m "Multiple " = true) extra.
Proof.
  unfold find_and_remove_command_argument.
  destruct (find_and_remove_command_arguments command source 1) as [args src].
  case_decide.
  - eexists [_]. split; [done|]. by repeat constructor.
  - exists []. rewrite app_nil_r. split; [done | constructor].
Qed.




Example discussion_not_integer_example :
  parse_and_remove_blueprint_commands
    (String BACKSLASH "discussion{abc} Some text.") []
  = Done (mkSourceInfo None [] [] None false false false None None, "Some text.", []).
Proof. vm_compute. reflexivity. Qed.

Example discussion_integer_example :
  parse_and_remove_blueprint_commands
    (String BACKSLASH "discussion{ 12 } Some text.") []
  = Done (mkSourceInfo None [] [] None false false false None (Some 12%Z),
          "Some text.", []).
Proof. vm_compute. reflexivity. Qed.

(** C4, on the code: a proof whose [\proves] directive names a label that no
    statement carries makes [parse_nodes] raise [KeyError]; nothing is logged
    and no result is returned. *)
Lemma parse_nodes_unknown_proves_label
    (generate_new_lean_name : gset string → option string → string) :
  parse_nodes elements generate_new_lean_name default_thm_types false
    [ex_statement; ex_proof_unknown_label]
  = Raise (KeyError "thm:b").
Proof. vm_compute. reflexivity. Qed.

(** The sibling path: a proof without [\proves] and without a preceding
    statement is dropped with a warning, and parsing goes on. *)
Example parse_nodes_unattached_proof
    (generate_new_lean_name : gset string → option string → string) :
  parse_nodes elements generate_new_lean_name default_thm_types false
    [ex_proof_plain; ex_statement]
  = Done ([mkNode "foo" (mkNodePart false "Statement." ∅ ∅ "theorem") None false
             None None],
          {["foo" := ["(theorem block)"]]}, {["thm:a" := "foo"]},
          ["Cannot determine the statement proved by: Proof text."]).
Proof. vm_compute. reflexivity. Qed.

Example parse_nodes_attached_proof
    (generate_new_lean_name : gset string → option string → string) :
  parse_nodes elements generate_new_lean_name default_thm_types false
    [ex_statement; ex_proof_plain]
  = Done ([mkNode "foo" (mkNodePart false "Statement." ∅ ∅ "theorem")
             (Some (mkNodePart false "Proof text." ∅ ∅ "proof")) false None None],
          {["foo" := ["(theorem block)"; "(proof block)"]]}, {["thm:a" := "foo"]},
          []).
Proof. vm_compute. reflexivity. Qed.

(** The example of the specification: of two labels in one reference, the one
    that names a node becomes a verbatim marker, the other stays a reference. *)
Example convert_ref_to_verb_example :
  convert_ref_to_verb ("See " +:+ String BACKSLASH "ref{x,y}.") {["x" := "node_x"]}
  = "See " +:+ String BACKSLASH "verb|node_x|, " +:+ String BACKSLASH "ref{y}.".
Proof. vm_compute. reflexivity. Qed.

(** * Further properties of topological_sort *)

Lemma for_each_fixed {A S} (body : A → S → outcome S) l st :
  (∀ x, x ∈ l → body x st = Done st) → for_each body l st = Done st.
Proof.
  induction l as [|x l IH]; intros Hl; simpl; [done|].
  rewrite Hl by (by left). simpl. apply IH. intros y Hy. apply Hl. by right.
Qed.

Lemma for_each_cons {A S} (body : A → S → outcome S) x l st :
  for_each body (x :: l) st = obind (body x st) (for_each body l).
Proof. reflexivity. Qed.

(** On a list in which every known dependency of an entry stands earlier, the
    loop over the remaining entries appends them one by one. *)
Lemma sort_ordered_loop set_iter data fuel :
  (∀ s x, x ∈ set_iter s → x ∈ s) →
  NoDup (names data) → ordered (name_to_node_of data) data →
  ∀ rest l1, data = l1 ++ rest →
    for_each (λ (d : NodeWithPos * string) st,
                visit set_iter (name_to_node_of data) (S (S fuel)) (name d.1) st)
             rest (mkSortState (list_to_set (names l1)) l1)
    = Done (mkSortState (list_to_set (names data)) data).
Proof.
  intros Hiter Hnd Hord. induction rest as [|d rest IH]; intros l1 E.
  - rewrite app_nil_r in E. by subst.
  - rewrite for_each_cons, visit_S. cbv beta. simpl visited. simpl result.
    assert (name d.1 ∉ names l1) as Hfresh.
    { rewrite E, names_app in Hnd. apply NoDup_app in Hnd as (_ & Hd & _).
      intros Hin. apply (Hd _ Hin). simpl. by left. }
    rewrite decide_False by (by rewrite elem_of_list_to_set).
    rewrite (name_to_node_of_NoDup data d Hnd) by (rewrite E; set_solver).
    destruct d as [node value].
    rewrite for_each_fixed.
    + cbn [obind visited result].
      replace (mkSortState ({[name (node, value).1]} ∪ list_to_set (names l1))
                 (l1 ++ [(node, value)]))
        with (mkSortState (list_to_set (names (l1 ++ [(node, value)])))
                (l1 ++ [(node, value)])).
      * apply IH. by rewrite <- app_assoc.
      * f_equal. rewrite names_app, list_to_set_app_L. simpl. set_solver.
    + intros used Hused%Hiter. case_decide as Hk; [|done].
      assert (used ∈ names l1) as Hin by (by eapply (Hord l1 (node, value) rest)).
      rewrite visit_S. rewrite decide_True; [done|]. simpl. set_solver.
Qed.

Lemma topological_sort_ordered_id set_iter data :
  (∀ s x, x ∈ set_iter s → x ∈ s) →
  NoDup (names data) → ordered (name_to_node_of data) data →
  topological_sort set_iter data = Done data.
Proof.
  intros Hiter Hnd Hord. destruct data as [|d0 data0] eqn:Edata; [done|].
  rewrite <- Edata in *.
  assert (length data = S (length data0)) as Hlen by (by rewrite Edata).
  unfold topological_sort, topological_sort_fuel. rewrite Hlen.
  pose proof (sort_ordered_loop set_iter data (length data0) Hiter Hnd Hord data []
                eq_refl) as Hloop.
  change (mkSortState (list_to_set (names [])) []) with (mkSortState ∅ []) in Hloop.
  by rewrite Hloop.
Qed.

Lemma name_to_node_of_lookup_NoDup data k (d : NodeWithPos * string) :
  NoDup (names data) →
  name_to_node_of data !! k = Some d ↔ d ∈ data ∧ name d.1 = k.
Proof.
  intros Hnd. split; [apply name_to_node_of_Some|].
  intros [Hd <-]. by apply name_to_node_of_NoDup.
Qed.

Lemma name_to_node_of_perm data data' :
  NoDup (names data) → data ≡ₚ data' → name_to_node_of data' = name_to_node_of data.
Proof.
  intros Hnd Hp.
  assert (NoDup (names data')) as Hnd'.
  { unfold names in *. by rewrite <- Hp. }
  apply map_eq. intros k. apply option_eq. intros d.
  rewrite !name_to_node_of_lookup_NoDup by done. by rewrite Hp.
Qed.

(** X1. An input already in dependency order (every known dependency of a
    node stands before it, names unique) is returned unchanged; in particular
    nodes without known dependencies keep their first-occurrence order. *)
Theorem topological_sort_ordered_unchanged
    (set_iter : gset string → list string) (data : list (NodeWithPos * string)) :
  (∀ s x, x ∈ set_iter s ↔ x ∈ s) →
  NoDup (names data) →
  (∀ l1 (d : NodeWithPos * string) l2, data = l1 ++ d :: l2 →
     ∀ v, v ∈ node_uses d.1 → v ∈ names data → v ∈ names l1) →
  topological_sort set_iter data = Done data.
Proof.
  intros Hiter Hnd Hord. apply topological_sort_ordered_id; [by intros s x ?%Hiter | done |].
  intros l1 d l2 E v Hv Hk. eapply Hord; [done..|].
  by apply elem_of_dom_name_to_node_of.
Qed.

Lemma topological_sort_ordered_unchanged_witness :
  topological_sort elements (reverse ex_chain) = Done (reverse ex_chain).
Proof.
  apply (topological_sort_ordered_unchanged elements (reverse ex_chain)).
  - intros s x. apply elem_of_elements.
  - apply (bool_decide_unpack _). vm_compute. reflexivity.
  - intros l1 d l2 E v Hv Hk.
    destruct l1 as [|x1 l1]; [|destruct l1 as [|x2 l1]].
    + injection E as <- _. unfold node_uses in Hv. simpl in Hv. set_solver.
    + injection E as <- <- _. unfold node_uses in Hv. simpl in Hv.
      assert (v = "B") as -> by set_solver. vm_compute. by left.
    + apply (f_equal length) in E. simpl in E. rewrite length_app in E. simpl in E. lia.
Defined.

(** X2. On an acyclic graph with unique names the sort is idempotent: sorting
    its own output gives that output again. *)
Theorem topological_sort_idempotent
    (set_iter : gset string → list string) (data : list (NodeWithPos * string)) :
  (∀ s x, x ∈ set_iter s ↔ x ∈ s) →
  NoDup (names data) →
  acyclic data →
  ∃ res, topological_sort set_iter data = Done res ∧
         topological_sort set_iter res = Done res.
Proof.
  intros Hiter Hnd Hac.
  destruct (topological_sort_fuel_spec set_iter data (S (length data)))
    as (res & Hrun & Hres & Hlook & Hall & Hord); [lia|].
  exists res. split; [done|].
  assert (res ≡ₚ data) as Hperm.
  { apply NoDup_Permutation.
    - eapply NoDup_fmap_1. apply Hres.
    - eapply NoDup_fmap_1. apply Hnd.
    - intros d. split.
      + intros Hd. by apply (name_to_node_of_Some data (name d.1)), Hlook.
      + intros Hd.
        assert (name d.1 ∈ names res) as (d' & E & Hd')%list_elem_of_fmap.
        { apply Hall, list_elem_of_fmap. by exists d. }
        pose proof (Hlook d' Hd') as H1.
        pose proof (name_to_node_of_NoDup data d Hnd Hd) as H2.
        rewrite E in H2. congruence. }
  apply topological_sort_ordered_id; [by intros s x ?%Hiter | done |].
  rewrite (name_to_node_of_perm data res) by done. by apply Hord.
Qed.

Lemma topological_sort_idempotent_witness :
  ∃ res, topological_sort elements ex_chain = Done res ∧
         topological_sort elements res = Done res.
Proof.
  apply (topological_sort_idempotent elements ex_chain).
  - intros s x. apply elem_of_elements.
  - apply (bool_decide_unpack _). vm_compute. reflexivity.
  - apply (acyclic_by_rank ex_rank).
    intros d Hd v Hv _. unfold ex_chain in Hd.
    apply elem_of_cons in Hd as [-> | Hd].
    + simpl in *. unfold node_uses in Hv. simpl in Hv.
      assert (v = "B") as -> by set_solver. vm_compute. lia.
    + apply list_elem_of_singleton in Hd as ->.
      unfold node_uses in Hv. simpl in Hv. set_solver.
Defined.

(** * Further properties of the source splicer *)

Lemma str_take_drop n s : str_take n s +:+ str_drop n s = s.
Proof.
  revert n. induction s as [|c s IH]; intros [|n]; simpl; try done.
  str_norm. by rewrite IH.
Qed.

Lemma str_drop_drop n m s : str_drop m (str_drop n s) = str_drop (n + m) s.
Proof.
  revert n. induction s as [|c s IH]; intros [|n]; simpl; try done.
  by destruct m.
Qed.

Lemma sum_line_lengths_beyond lines n k :
  0 < n → length lines < k + n → sum_line_lengths lines (seq k n) = Raise IndexError.
Proof.
  revert k. induction n as [|n IH]; intros k Hn Hk; simpl; [lia|].
  destruct (lines !! k) as [l|] eqn:Hl; [|done].
  apply lookup_lt_Some in Hl. by rewrite IH by lia.
Qed.

Lemma offset_of_outcome lines p :
  if decide (Z.to_nat (line p - 1) ≤ length lines)
  then offset_of lines p
       = Done (Z.of_nat (sum_list (String.length <$> take (Z.to_nat (line p - 1)) lines))
               + column p)%Z
  else offset_of lines p = Raise IndexError.
Proof.
  unfold offset_of. case_decide as Hl.
  - rewrite sum_line_lengths_seq by (simpl; lia). simpl. by rewrite drop_0.
  - by rewrite sum_line_lengths_beyond by (simpl; lia).

Qed.

Lemma split_declaration_cases (source : string) (p q : Position) :
  if decide (Z.to_nat (line p - 1) ≤ length (splitlines_keepends source) ∧
             Z.to_nat (line q - 1) ≤ length (splitlines_keepends source))
  then ∃ parts, split_declaration source p q = Done parts
  else split_declaration source p q = Raise IndexError.
Proof.
  unfold split_declaration.
  pose proof (offset_of_outcome (splitlines_keepends source) p) as Hp.
  pose proof (offset_of_outcome (splitlines_keepends source) q) as Hq.
  destruct (decide (Z.to_nat (line p - 1) ≤ _)) as [Hlp|Hlp] in Hp;
    destruct (decide (Z.to_nat (line q - 1) ≤ _)) as [Hlq|Hlq] in Hq;
    rewrite Hp; simpl; try rewrite Hq; simpl.
  - rewrite decide_True by done. by eexists.
  - rewrite decide_False by tauto. done.
  - rewrite decide_False by tauto. done.
  - rewrite decide_False by tauto. done.
Qed.

(** X3. [split_declaration] fails exactly when the line of one of the two
    positions lies more than one line beyond the last line of the source, and
    then with [IndexError]; otherwise it returns the three parts, whatever the
    columns are. *)
Theorem split_declaration_outcome (source : string) (p q : Position) :
  if decide (Z.to_nat (line p - 1) ≤ length (splitlines_keepends source) ∧
             Z.to_nat (line q - 1) ≤ length (splitlines_keepends source))
  then ∃ parts, split_declaration source p q = Done parts
  else split_declaration source p q = Raise IndexError.
Proof. apply split_declaration_cases. Qed.

(** X4. When both positions are on lines of the source, with the start offset
    not after the end offset and columns not negative, the three parts of
    [split_declaration] put together are the source again. *)
Theorem split_declaration_partition (source : string) (p q : Position) :
  (0 ≤ column p)%Z → (0 ≤ column q)%Z →
  (line p - 1 ≤ Z.of_nat (length (splitlines_keepends source)))%Z →
  (line q - 1 ≤ Z.of_nat (length (splitlines_keepends source)))%Z →
  absolute_offset source p ≤ absolute_offset source q →
  ∃ pre decl post,
    split_declaration source p q = Done (pre, decl, post) ∧
    pre +:+ decl +:+ post = source ∧
    pre = str_take (absolute_offset source p) source ∧
    post = str_drop (absolute_offset source q) source.
Proof.
  intros Hcp Hcq Hlp Hlq Hle. unfold split_declaration.
  rewrite (offset_of_absolute _ _ Hcp Hlp), (offset_of_absolute _ _ Hcq Hlq). simpl.
  eexists _, _, _. split; [done|]. rewrite slice_to_nat, slice_from_nat.
  split; [|done].
  set (a := absolute_offset source p) in *. set (b := absolute_offset source q) in *.
  unfold slice, slice_bound. rewrite !decide_False by lia. rewrite !Nat2Z.id.
  rewrite <- (str_take_min a), <- (str_drop_min b).
  set (a' := a `min` String.length source). set (b' := b `min` String.length source).
  replace (str_drop b' source) with (str_drop (b' - a') (str_drop a' source))
    by (rewrite str_drop_drop; f_equal; lia).
  by rewrite !str_take_drop.
Qed.

Lemma split_declaration_partition_witness :
  ∃ pre decl post,
    split_declaration ex_source (pos (range ex_location)) (end_pos (range ex_location))
      = Done (pre, decl, post) ∧
    pre +:+ decl +:+ post = ex_source ∧
    pre = str_take (absolute_offset ex_source (pos (range ex_location))) ex_source ∧
    post = str_drop (absolute_offset ex_source (end_pos (range ex_location))) ex_source.
Proof.
  apply (split_declaration_partition ex_source (pos (range ex_location))
           (end_pos (range ex_location)));
    vm_compute; (discriminate || lia || reflexivity).
Defined.

Lemma insert_docstring_and_attribute_world decl d a w :
  (insert_docstring_and_attribute decl d a w).2 = w ∨
  (warned_to_additive w = false ∧
   (insert_docstring_and_attribute decl d a w).2
   = mkWorld (fs w) (log w ++ [to_additive_warning]) true).
Proof.
  unfold insert_docstring_and_attribute.
  repeat case_match; simpl; auto.
Qed.

Lemma modify_source_cases
    (set_iter : gset string → list string) (node : Node) (file : string)
    (loc : DeclarationLocation) (add_uses : bool) (prepend : option (list string))
    (w : World) :
  match modify_source set_iter node file loc add_uses prepend w with
  | Done w' => is_Some (fs w !! file) ∧ ∃ content, fs w' = <[file := content]> (fs w)
  | Raise e => (e = FileNotFoundError file ∧ fs w !! file = None) ∨
               (e = IndexError ∧ is_Some (fs w !! file))
  | OutOfFuel => False
  end.
Proof.
  unfold modify_source, read_text.
  destruct (fs w !! file) as [source|] eqn:Hfile; simpl; [|by left].
  pose proof (split_declaration_cases source (pos (range loc)) (end_pos (range loc)))
    as Hsplit.
  case_decide.
  - destruct Hsplit as ([[pre decl] post] & ->). simpl.
    destruct (insert_docstring_and_attribute _ _ _ w) as [decl' w1] eqn:Hins.
    simpl. split; [done|]. eexists.
    destruct (insert_docstring_and_attribute_world decl (text (statement node))
                (to_lean_attribute set_iter node false
                   (add_uses || negb (is_some (proof node)) && contains "sorry" decl)
                   (add_uses || negb (is_some (proof node)) && contains "sorry" decl
                    || set_truthy (uses_raw (statement node)))
                   true
                   (add_uses || negb (is_some (proof node)) && contains "sorry" decl
                    || is_some (proof node) && contains "sorry" decl)
                   (add_uses || negb (is_some (proof node)) && contains "sorry" decl
                    || match proof node with
                       | Some p => set_truthy (uses_raw p)
                       | None => false
                       end)) w) as [E | [_ E]];
      rewrite Hins in E; simpl in E; subst w1; done.
  - rewrite Hsplit. simpl. right. done.
Qed.

(** X5. [modify_source] never touches another file: it either returns with
    only the content of its file changed, or raises [FileNotFoundError] when
    the file does not exist, or [IndexError] (from [split_declaration]); it
    raises nothing else. *)
Theorem modify_source_outcomes
    (set_iter : gset string → list string) (node : Node) (file : string)
    (loc : DeclarationLocation) (add_uses : bool) (prepend : option (list string))
    (w : World) :
  match modify_source set_iter node file loc add_uses prepend w with
  | Done w' => is_Some (fs w !! file) ∧ ∃ content, fs w' = <[file := content]> (fs w)
  | Raise e => (e = FileNotFoundError file ∧ fs w !! file = None) ∨
               (e = IndexError ∧ is_Some (fs w !! file))
  | OutOfFuel => False
  end.
Proof. apply modify_source_cases. Qed.

(** X6. The warning about additive declarations is logged at most once: over
    any sequence of runs of the splicer the log grows by nothing, or by that
    one warning, and by nothing when the latch was already set; the files are
    never touched. *)
Theorem insert_many_warns_once (calls : list (string * string * string)) (w : World) :
  fs (insert_many calls w) = fs w ∧
  (log (insert_many calls w) = log w ∨
   (warned_to_additive w = false ∧
    log (insert_many calls w) = log w ++ [to_additive_warning])).
Proof.
  revert w. induction calls as [|[[decl d] a] calls IH]; intros w; simpl.
  - split; [done | by left].
  - destruct (IH (insert_docstring_and_attribute decl d a w).2) as [Hfs Hlog].
    destruct (insert_docstring_and_attribute_world decl d a w) as [E | [Hw E]];
      rewrite E in *; [done|].
    simpl in *. split; [done|]. right. split; [done|].
    destruct Hlog as [Hlog | [? _]]; done.
Qed.

(** * Further properties of the include resolver *)




Section include_outcomes.
Context {Path : Type} `{Countable Path}.
Context (parent : Path → Path) (joinpath : Path → string → Path).
Context (show_path : Path → string).



End include_outcomes.


(** * Further properties of the directive extractor and of parse_nodes *)

Lemma py_int_cases (s : string) : (∃ z, py_int s = Done z) ∨ py_int s = Raise ValueError.
Proof.
  unfold py_int.
  destruct (match strip s with "" => None | String c r => _ end) as [z|]; [|by right].
  case_decide; [left; by eexists | by right].
Qed.

Lemma try_int_total (o : option string) : ∃ r, try_int o = Done r.
Proof.
  destruct o as [s|]; simpl; [|by eexists].
  destruct (py_int_cases s) as [[z ->] | ->]; by eexists.
Qed.

Lemma parse_and_remove_blueprint_commands_total (source : string) (log : list string) :
  ∃ info rest extra,
    parse_and_remove_blueprint_commands source log = Done (info, rest, log ++ extra) ∧
    Forall (λ m, startswith m "Multiple " = true) extra.
Proof.
  unfold parse_and_remove_blueprint_commands.
  destruct (find_and_remove_command_argument_log "label" (remove_environments source) log)
    as (e1 & -> & He1).
  destruct (find_and_remove_command_argument "label" (remove_environments source) [])
    as [[label ?] ?]. cbv beta iota zeta delta [fst snd] in *.
  destruct (find_and_remove_command_arguments "uses" _ 0) as [uses src1].
  destruct (find_and_remove_command_arguments "alsoIn" _ 0) as [alsoIn src2].
  destruct (find_and_remove_command_argument_log "proves" src2 (log ++ e1))
    as (e2 & -> & He2).
  destruct (find_and_remove_command_argument "proves" src2 []) as [[proves src3] ?].
  cbv beta iota zeta delta [fst snd] in *.
  destruct (find_and_remove_command "leanok" src3) as [leanok src4].
  destruct (find_and_remove_command "notready" src4) as [notready src5].
  destruct (find_and_remove_command "mathlibok" src5) as [mathlibok src6].
  destruct (find_and_remove_command_argument_log "lean" src6 ((log ++ e1) ++ e2))
    as (e3 & -> & He3).
  destruct (find_and_remove_command_argument "lean" src6 []) as [[lean src7] ?].
  cbv beta iota zeta delta [fst snd] in *.
  destruct (find_and_remove_command_argument_log "discussion" src7
              (((log ++ e1) ++ e2) ++ e3)) as (e4 & -> & He4).
  destruct (find_and_remove_command_argument "discussion" src7 []) as [[disc src8] ?].
  cbv beta iota zeta delta [fst snd] in *.
  destruct (try_int_total disc) as [d ->]. simpl.
  eexists _, _, (e1 ++ e2 ++ e3 ++ e4). split.
  - by rewrite !app_assoc.
  - by rewrite !Forall_app.
Qed.

(** X9. [process_source] always returns: the conversion error of the
    discussion handle is caught and nothing else can fail.  It only adds to
    the log, and only warnings about a directive with several arguments. *)
Theorem process_source_returns (source : string) (log : list string) :
  ∃ info rest extra,
    process_source source log = Done (info, rest, log ++ extra) ∧
    Forall (λ m, startswith m "Multiple " = true) extra.
Proof. apply parse_and_remove_blueprint_commands_total. Qed.

(** The loop of the label resolver, over any list of raw uses. *)
Lemma resolve_loop_spec (l2n : gmap string string) (l : list string)
    (us raw : gset string) :
  let r := foldl (λ '(us, raw) use,
                    match l2n !! use with
                    | Some used => ({[used]} ∪ us, raw ∖ {[use]})
                    | None => (us, raw)
                    end) (us, raw) l in
  (∀ n, n ∈ r.1 ↔ n ∈ us ∨ ∃ x, x ∈ l ∧ l2n !! x = Some n) ∧
  (∀ x, x ∈ r.2 ↔ x ∈ raw ∧ ¬ (x ∈ l ∧ is_Some (l2n !! x))).
Proof.
  revert us raw. induction l as [|use l IH]; intros us raw; simpl.
  - split.
    + intros n. split; [by left|]. intros [? | (x & ?%elem_of_nil & _)]; done.
    + intros x. split; [|by intros [? _]]. intros ?. split; [done|].
      by intros [?%elem_of_nil _].
  - destruct (l2n !! use) as [used|] eqn:Huse.
    + destruct (IH ({[used]} ∪ us) (raw ∖ {[use]})) as [IH1 IH2]. split.
      * intros n. rewrite IH1. split.
        -- intros [[->%elem_of_singleton | ?]%elem_of_union | (x & Hx & Hn)].
           ++ right. exists use. split; [by left | done].
           ++ by left.
           ++ right. exists x. split; [by right | done].
        -- intros [? | (x & [-> | Hx]%elem_of_cons & Hn)].
           ++ left. set_solver.
           ++ left. rewrite Huse in Hn. set_solver.
           ++ right. eauto.
      * intros x. rewrite IH2. split.
        -- intros [[Hraw Hne]%elem_of_difference Hl]. split; [done|].
           intros [[-> | Hx]%elem_of_cons Hs]; [set_solver | tauto].
        -- intros [Hraw Hl]. split.
           ++ apply elem_of_difference. split; [done|].
              intros ->%elem_of_singleton. apply Hl. split; [by left | eauto].
           ++ intros [Hx Hs]. apply Hl. split; [by right | done].
    + destruct (IH us raw) as [IH1 IH2]. split.
      * intros n. rewrite IH1. split.
        -- intros [? | (x & Hx & Hn)]; [by left|]. right. exists x.
           split; [by right | done].
        -- intros [? | (x & [-> | Hx]%elem_of_cons & Hn)]; [by left | congruence |].
           right. eauto.
      * intros x. rewrite IH2. split.
        -- intros [Hraw Hl]. split; [done|].
           intros [[-> | Hx]%elem_of_cons Hs]; [|tauto].
           rewrite Huse in Hs. by destruct Hs.
        -- intros [Hraw Hl]. split; [done|]. intros [Hx Hs]. apply Hl.
           split; [by right | done].
Qed.

Lemma convert_latex_label_to_lean_name_uses
    (set_iter : gset string → list string) (np : NodePart) (l2n : gmap string string) :
  (∀ s x, x ∈ set_iter s ↔ x ∈ s) →
  let r := convert_latex_label_to_lean_name set_iter np l2n in
  (∀ n, n ∈ uses r ↔ n ∈ uses np ∨ ∃ l, l ∈ uses_raw np ∧ l2n !! l = Some n) ∧
  (∀ l, l ∈ uses_raw r ↔ l ∈ uses_raw np ∧ l2n !! l = None) ∧
  lean_ok r = lean_ok np ∧ latex_env r = latex_env np.
Proof.
  intros Hiter. unfold convert_latex_label_to_lean_name.
  pose proof (resolve_loop_spec l2n (set_iter (uses_raw np)) (uses np) (uses_raw np))
    as Hloop. cbv zeta in Hloop.
  destruct (foldl _ _ _) as [us raw]. simpl in *. destruct Hloop as [H1 H2].
  split; [|split; [|done]].
  - intros n. rewrite H1. by setoid_rewrite Hiter.
  - intros l. rewrite H2. rewrite Hiter. split.
    + intros [Hraw Hl]. split; [done|].
      destruct (l2n !! l) eqn:E; [|done]. exfalso. apply Hl. eauto.
    + intros [Hraw Hl]. split; [done|]. rewrite Hl. by intros [_ [? ?]].
Qed.

(** X10. Whatever the order in which the set of raw uses is traversed, the
    label resolver moves exactly the raw uses that are known labels: the uses
    gain the names these labels stand for, the raw uses keep the unknown
    labels, and nothing else of the node part but its text changes. *)
Theorem convert_latex_label_to_lean_name_spec
    (set_iter : gset string → list string) (np : NodePart) (l2n : gmap string string) :
  (∀ s x, x ∈ set_iter s ↔ x ∈ s) →
  (∀ n, n ∈ uses (convert_latex_label_to_lean_name set_iter np l2n) ↔
        n ∈ uses np ∨ ∃ l, l ∈ uses_raw np ∧ l2n !! l = Some n) ∧
  (∀ l, l ∈ uses_raw (convert_latex_label_to_lean_name set_iter np l2n) ↔
        l ∈ uses_raw np ∧ l2n !! l = None) ∧
  lean_ok (convert_latex_label_to_lean_name set_iter np l2n) = lean_ok np ∧
  latex_env (convert_latex_label_to_lean_name set_iter np l2n) = latex_env np.
Proof. apply convert_latex_label_to_lean_name_uses. Qed.

Lemma convert_latex_label_to_lean_name_spec_witness :
  let np := mkNodePart true "" ∅ {["thm:a"; "b"]} "lemma" in
  let l2n : gmap string string := {["thm:a" := "A"]} in
  (∀ n, n ∈ uses (convert_latex_label_to_lean_name elements np l2n) ↔
        n ∈ uses np ∨ ∃ l, l ∈ uses_raw np ∧ l2n !! l = Some n) ∧
  (∀ l, l ∈ uses_raw (convert_latex_label_to_lean_name elements np l2n) ↔
        l ∈ uses_raw np ∧ l2n !! l = None) ∧
  lean_ok (convert_latex_label_to_lean_name elements np l2n) = lean_ok np ∧
  latex_env (convert_latex_label_to_lean_name elements np l2n) = latex_env np.
Proof.
  apply (convert_latex_label_to_lean_name_spec elements).
  intros s x. apply elem_of_elements.
Defined.

Lemma parse_inv_log st log :
  parse_inv st →
  parse_inv (mkParseState (nodes st) (name_to_node st) (label_to_node st)
               (match_idx_to_node st) (name_to_raw_sources st) log).
Proof. done. Qed.

Lemma parse_inv_skip st i log :
  parse_inv st →
  parse_inv (mkParseState (nodes st) (name_to_node st) (label_to_node st)
               (<[i := None]> (match_idx_to_node st)) (name_to_raw_sources st) log).
Proof.
  intros (H1 & H2 & H3 & H4 & H5 & H6).
  split; [done|]. split; [done|]. split; [done|]. split; [done|]. split; [|done].
  simpl. intros j nm. destruct (decide (i = j)) as [->|].
  - by rewrite lookup_insert_eq.
  - rewrite lookup_insert_ne by done. apply H5.
Qed.

Lemma parse_inv_known st nm (lbl : option string) i raws log :
  parse_inv st → is_Some (name_to_node st !! nm) →
  parse_inv (mkParseState (nodes st) (name_to_node st)
               (match lbl with
                | Some l => <[l := nm]> (label_to_node st)
                | None => label_to_node st
                end)
               (<[i := Some nm]> (match_idx_to_node st))
               (<[nm := raws]> (name_to_raw_sources st)) log).
Proof.
  intros (H1 & H2 & H3 & H4 & H5 & H6) Hnm.
  split; [done|]. split; [done|]. split; [done|]. simpl. split; [|split].
  - intros l nm'. destruct lbl as [l0|]; [|apply H4].
    destruct (decide (l0 = l)) as [->|].
    + rewrite lookup_insert_eq. intros [= <-]. by apply H2.
    + rewrite lookup_insert_ne by done. apply H4.
  - intros j nm'. destruct (decide (i = j)) as [->|].
    + rewrite lookup_insert_eq. intros [= <-]. by apply H2.
    + rewrite lookup_insert_ne by done. apply H5.
  - intros nm' Hin. destruct (decide (nm = nm')) as [->|].
    + rewrite lookup_insert_eq. eauto.
    + rewrite lookup_insert_ne by done. by apply H6.
Qed.

Lemma parse_inv_new st nm (lbl : option string) i raws log (node : Node) :
  parse_inv st → name_to_node st !! nm = None →
  name node = nm → uses (statement node) = ∅ → proof node = None →
  parse_inv (mkParseState (nodes st ++ [nm]) (<[nm := node]> (name_to_node st))
               (match lbl with
                | Some l => <[l := nm]> (label_to_node st)
                | None => label_to_node st
                end)
               (<[i := Some nm]> (match_idx_to_node st))
               (<[nm := raws]> (name_to_raw_sources st)) log).
Proof.
  intros (H1 & H2 & H3 & H4 & H5 & H6) Hnm Hname Huses Hproof.
  assert (nm ∉ nodes st) as Hnotin.
  { intros Hin%H2. rewrite Hnm in Hin. by destruct Hin. }
  split; [|split; [|split; [|split; [|split]]]]; simpl.
  - apply NoDup_app. split; [done|]. split; [|apply NoDup_singleton].
    intros x Hx ->%list_elem_of_singleton. done.
  - intros nm'. rewrite elem_of_app, list_elem_of_singleton.
    destruct (decide (nm = nm')) as [->|].
    + rewrite lookup_insert_eq. split; [eauto | by right].
    + rewrite lookup_insert_ne by done. rewrite H2. split; [|by left].
      intros [? | ->]; done.
  - intros nm' n. destruct (decide (nm = nm')) as [->|].
    + rewrite lookup_insert_eq. intros [= <-]. split; [done|]. split; [done|].
      intros p. by rewrite Hproof.
    + rewrite lookup_insert_ne by done. apply H3.
  - intros l nm'. rewrite elem_of_app, list_elem_of_singleton.
    destruct lbl as [l0|]; [|intros ?%H4; by left].
    destruct (decide (l0 = l)) as [->|].
    + rewrite lookup_insert_eq. intros [= <-]. by right.
    + rewrite lookup_insert_ne by done. intros ?%H4. by left.
  - intros j nm'. rewrite elem_of_app, list_elem_of_singleton.
    destruct (decide (i = j)) as [->|].
    + rewrite lookup_insert_eq. intros [= <-]. by right.
    + rewrite lookup_insert_ne by done. intros ?%H5. by left.
  - intros nm'. rewrite elem_of_app, list_elem_of_singleton.
    destruct (decide (nm = nm')) as [->|].
    + rewrite lookup_insert_eq. eauto.
    + rewrite lookup_insert_ne by done. intros [? | ->]; [by apply H6 | done].
Qed.

Section parse_facts.
Context (set_iter : gset string → list string).
Context (generate_new_lean_name : gset string → option string → string).
Context (depgraph_thm_types : list string) (convert_informal : bool).

Lemma parse_statement_inv i m st :
  parse_inv st →
  ∃ st', parse_statement generate_new_lean_name depgraph_thm_types convert_informal
           i m st = Done st' ∧ parse_inv st'.
Proof.
  intros Hinv. unfold parse_statement.
  destruct (negb _); [by eexists|]. destruct (commented_out m); [by eexists|].
  unfold process_source.
  destruct (parse_and_remove_blueprint_commands_total
              (remove_nonbreaking_spaces (m_content m)) (parse_log st))
    as (info & src & extra & -> & _). simpl.
  destruct (match info_lean info with Some nm => _ | None => _ end) as [[nm log]|].
  - destruct (name_to_node st !! nm) as [n|] eqn:Hnm.
    + eexists. split; [done|]. apply parse_inv_known; eauto.
    + eexists. split; [done|]. by apply parse_inv_new.
  - eexists. split; [done|]. by apply parse_inv_skip.
Qed.

Lemma parse_inv_attach st proved (node node' : Node) raws log :
  parse_inv st → name_to_node st !! proved = Some node →
  name node' = name node → statement node' = statement node →
  (∀ p, proof node' = Some p → uses p = ∅) →
  parse_inv (mkParseState (nodes st) (<[proved := node']> (name_to_node st))
               (label_to_node st) (match_idx_to_node st)
               (<[proved := raws]> (name_to_raw_sources st)) log).
Proof.
  intros (H1 & H2 & H3 & H4 & H5 & H6) Hnode Hname Hstmt Hproof.
  split; [done|]. split; [|split; [|split; [done|split; [done|]]]]; simpl.
  - intros nm. rewrite H2. destruct (decide (proved = nm)) as [->|].
    + rewrite lookup_insert_eq, Hnode. split; eauto.
    + by rewrite lookup_insert_ne.
  - intros nm n. destruct (decide (proved = nm)) as [->|].
    + rewrite lookup_insert_eq. intros [= <-].
      destruct (H3 _ _ Hnode) as (? & ? & ?). rewrite Hname, Hstmt. done.
    + rewrite lookup_insert_ne by done. apply H3.
  - intros nm Hin. destruct (decide (proved = nm)) as [->|].
    + rewrite lookup_insert_eq. eauto.
    + rewrite lookup_insert_ne by done. by apply H6.
Qed.

Lemma parse_proof_inv i m st :
  parse_inv st →
  match parse_proof i m st with
  | Done st' =>
    parse_inv st' ∧ label_to_node st' = label_to_node st ∧ nodes st' = nodes st
  | Raise e =>
    ∃ l info rest log',
      e = KeyError l ∧ label_to_node st !! l = None ∧ m_env m = "proof" ∧
      process_source (m_content m) (parse_log st) = Done (info, rest, log') ∧
      info_proves info = Some l
  | OutOfFuel => False
  end.
Proof.
  intros Hinv. unfold parse_proof.
  destruct (bool_decide (m_env m = "proof")) eqn:Henv; simpl; [|done].
  apply bool_decide_eq_true in Henv.
  destruct (commented_out m); [done|].
  destruct (parse_and_remove_blueprint_commands_total
              (remove_nonbreaking_spaces (m_content m)) (parse_log st))
    as (info & src & extra & Hrun & _).
  unfold process_source at 1. rewrite Hrun. cbn [obind].
  set (st0 := mkParseState (nodes st) (name_to_node st) (label_to_node st)
                (match_idx_to_node st) (name_to_raw_sources st) (parse_log st ++ extra)).
  assert (parse_inv st0) as Hinv0 by done.
  assert (∀ proved, proved ∈ nodes st →
            match
              match name_to_node st0 !! proved, name_to_raw_sources st0 !! proved with
              | Some node, Some raws =>
                Done (mkParseState (nodes st0)
                        (<[proved := mkNode (name node) (statement node)
                                       (Some (mkNodePart (info_leanok info) src ∅
                                                (list_to_set (info_uses info)) (m_env m)))
                                       (not_ready node) (discussion node) (title node)]>
                           (name_to_node st0))
                        (label_to_node st0) (match_idx_to_node st0)
                        (<[proved := raws ++ [m_group0 m]]> (name_to_raw_sources st0))
                        (parse_log st0))
              | _, _ => Raise (KeyError proved)
              end
            with
            | Done st' =>
              parse_inv st' ∧ label_to_node st' = label_to_node st ∧ nodes st' = nodes st
            | Raise e =>
              ∃ l info rest log',
                e = KeyError l ∧ label_to_node st !! l = None ∧ m_env m = "proof" ∧
                process_source (m_content m) (parse_log st) = Done (info, rest, log') ∧
                info_proves info = Some l
            | OutOfFuel => False
            end) as Hattach.
  { intros proved Hin. destruct Hinv as (H1 & H2 & H3 & H4 & H5 & H6).
    destruct (proj1 (H2 proved) Hin) as [node Hnode].
    destruct (H6 proved Hin) as [raws Hraws].
    simpl. rewrite Hnode, Hraws. split; [|done].
    apply (parse_inv_attach st0 proved node); try done.
    simpl. by intros p [= <-]. }
  destruct (info_proves info) as [proves|] eqn:Hproves.
  - change (label_to_node st0) with (label_to_node st).
    destruct (label_to_node st !! proves) as [proved|] eqn:Hlabel.
    + apply Hattach. destruct Hinv as (_ & _ & _ & H4 & _). by eapply H4.
    + exists proves, info, src, (parse_log st ++ extra). by rewrite <- Hproves.
  - change (match_idx_to_node st0) with (match_idx_to_node st).
    destruct (match_idx_to_node st !! (i - 1)%Z) as [[proved|]|] eqn:Hidx.
    + apply Hattach. destruct Hinv as (_ & _ & _ & _ & H5 & _). by eapply H5.
    + done.
    + done.
Qed.
End parse_facts.

Lemma for_enumerate_inv (body : Z → EnvMatch → ParseState → outcome ParseState)
    (I : ParseState → Prop) (E : exn → Prop) (matches : list EnvMatch) :
  (∀ i m st, m ∈ matches → I st →
     match body i m st with
     | Done st' => I st'
     | Raise e => E e
     | OutOfFuel => False
     end) →
  ∀ i st, I st →
    match for_enumerate body i matches st with
    | Done st' => I st'
    | Raise e => E e
    | OutOfFuel => False
    end.
Proof.
  induction matches as [|m matches IH]; intros Hbody i st Hst; simpl; [done|].
  pose proof (Hbody i m st ltac:(by left) Hst) as Hm.
  destruct (body i m st) as [st'| |]; simpl; [|done..].
  apply IH; [|done]. intros j m' st0 Hm'. apply Hbody. by right.
Qed.

Lemma parse_inv_init : parse_inv (mkParseState [] ∅ ∅ ∅ ∅ []).
Proof.
  split; [constructor|]. split; [|split; [|split; [|split]]]; simpl.
  - intros nm. rewrite lookup_empty. split; [by intros ?%elem_of_nil | by intros [? ?]].
  - intros nm n. by rewrite lookup_empty.
  - intros l nm. by rewrite lookup_empty.
  - intros i nm. by rewrite lookup_empty.
  - by intros nm ?%elem_of_nil.
Qed.

Section parse_nodes_facts.
Context (set_iter : gset string → list string).
Context (generate_new_lean_name : gset string → option string → string).
Context (depgraph_thm_types : list string) (convert_informal : bool).

Local Abbreviation run_statements matches :=
  (for_enumerate
     (parse_statement generate_new_lean_name depgraph_thm_types convert_informal)
     0 matches (mkParseState [] ∅ ∅ ∅ ∅ [])).

Lemma run_statements_inv (matches : list EnvMatch) :
  ∃ st1, run_statements matches = Done st1 ∧ parse_inv st1.
Proof.
  pose proof (for_enumerate_inv
                (parse_statement generate_new_lean_name depgraph_thm_types convert_informal)
                parse_inv (λ _, False) matches) as H1.
  assert (match run_statements matches with
          | Done st' => parse_inv st'
          | Raise _ => False
          | OutOfFuel => False
          end) as Hrun.
  { apply H1; [|apply parse_inv_init]. intros i m st _ Hst.
    destruct (parse_statement_inv generate_new_lean_name depgraph_thm_types
                convert_informal i m st Hst) as (st' & -> & ?). done. }
  destruct (run_statements matches) as [st1| |]; [by exists st1 | done..].
Qed.

Lemma parse_nodes_cases (matches : list EnvMatch) :
  match parse_nodes set_iter generate_new_lean_name depgraph_thm_types convert_informal
          matches with
  | Done r =>
    ∃ st, parse_inv st ∧
      r = (omap (λ nm, (resolve_node set_iter (label_to_node st) <$> name_to_node st) !! nm)
             (nodes st),
           name_to_raw_sources st, label_to_node st, parse_log st)
  | Raise e =>
    ∃ l, e = KeyError l ∧ proves_label matches l ∧
         ∃ st1, run_statements matches = Done st1 ∧ label_to_node st1 !! l = None
  | OutOfFuel => False
  end.
Proof.
  unfold parse_nodes.
  destruct (run_statements_inv matches) as (st1 & Hrun1 & Hinv1).
  rewrite Hrun1. cbn [obind].
  pose proof (for_enumerate_inv parse_proof
                (λ st, parse_inv st ∧ label_to_node st = label_to_node st1)
                (λ e, ∃ l, e = KeyError l ∧ proves_label matches l ∧
                           label_to_node st1 !! l = None) matches) as H2.
  assert (match for_enumerate parse_proof 0 matches st1 with
          | Done st' => parse_inv st' ∧ label_to_node st' = label_to_node st1
          | Raise e => ∃ l, e = KeyError l ∧ proves_label matches l ∧
                            label_to_node st1 !! l = None
          | OutOfFuel => False
          end) as Hrun2.
  { apply H2; [|done]. intros i m st Hm [Hst Hl].
    pose proof (parse_proof_inv i m st Hst) as Hp.
    destruct (parse_proof i m st) as [st'| |]; [| |done].
    - destruct Hp as (? & ? & ?). split; [done | congruence].
    - destruct Hp as (l & info & rest & log' & -> & ? & ? & ? & ?).
      exists l. split; [done|]. split; [|congruence].
      by exists m, (parse_log st), info, rest, log'. }
  destruct (for_enumerate parse_proof 0 matches st1) as [st2| |]; simpl.
  - exists st2. split; [apply Hrun2 | done].
  - destruct Hrun2 as (l & -> & ? & ?). exists l. split; [done|]. split; [done|]. eauto.
  - done.
Qed.

Lemma resolved_names (st : ParseState) (L : gmap string string) :
  parse_inv st →
  name <$> omap (λ nm, (resolve_node set_iter L <$> name_to_node st) !! nm) (nodes st)
  = nodes st.
Proof.
  intros (_ & H2 & H3 & _).
  assert (∀ nm, nm ∈ nodes st → ∃ n, name_to_node st !! nm = Some n ∧ name n = nm) as Hall.
  { intros nm [n Hn]%H2. exists n. split; [done|]. by apply H3 in Hn as [? _]. }
  clear H2 H3. induction (nodes st) as [|nm l IH]; simpl; [done|].
  destruct (Hall nm ltac:(by left)) as (n & Hn & Hname).
  rewrite lookup_fmap, Hn. simpl. rewrite Hname. f_equal.
  apply IH. intros nm' ?. apply Hall. by right.
Qed.

Lemma resolved_elem (st : ParseState) (L : gmap string string) (n : Node) :
  n ∈ omap (λ nm, (resolve_node set_iter L <$> name_to_node st) !! nm) (nodes st) →
  ∃ nm n0, name_to_node st !! nm = Some n0 ∧ n = resolve_node set_iter L n0.
Proof.
  intros (nm & _ & Hn)%list_elem_of_omap. rewrite lookup_fmap in Hn.
  destruct (name_to_node st !! nm) as [n0|] eqn:E; [|done].
  injection Hn as <-. eauto.
Qed.


(** X12. When the traversal of a set lists its elements, the nodes that
    [parse_nodes] returns are closed under their resolved uses: every use of a
    statement or of a proof is the name of a returned node, and no raw use
    left is a known label. *)
Theorem parse_nodes_uses_closed (matches : list EnvMatch) :
  (∀ s x, x ∈ set_iter s ↔ x ∈ s) →
  match parse_nodes set_iter generate_new_lean_name depgraph_thm_types convert_informal
          matches with
  | Done (ns, raw, labels, log) =>
    ∀ n part, n ∈ ns → part = statement n ∨ proof n = Some part →
      (∀ u, u ∈ uses part → u ∈ name <$> ns) ∧
      (∀ l, l ∈ uses_raw part → labels !! l = None)
  | _ => True
  end.
Proof.
  intros Hiter. pose proof (parse_nodes_cases matches) as Hcases.
  destruct (parse_nodes _ _ _ _ _) as [[[[ns raw] labels] log]| |]; [|done..].
  destruct Hcases as (st & Hinv & [= -> -> -> ->]).
  rewrite (resolved_names st _ Hinv).
  intros n part Hn Hpart.
  apply resolved_elem in Hn as (nm & n0 & Hn0 & ->).
  destruct Hinv as (H1 & H2 & H3 & H4 & H5 & H6).
  destruct (H3 _ _ Hn0) as (_ & Hus & Hup).
  assert (∃ part0, part = convert_latex_label_to_lean_name set_iter part0 (label_to_node st)
                   ∧ uses part0 = ∅) as (part0 & -> & Hempty).
  { destruct Hpart as [-> | Hp]; simpl in *; [by eexists|].
    destruct (proof n0) as [p|]; [|done]. injection Hp as <-. eexists. split; [done|].
    by apply Hup. }
  destruct (convert_latex_label_to_lean_name_uses set_iter part0 (label_to_node st) Hiter)
    as (Hu & Hr & _).
  split.
  - intros u [Hin | (l & _ & Hl)]%Hu; [rewrite Hempty in Hin; set_solver|].
    by eapply H4.
  - by intros l [_ ?]%Hr.
Qed.
End parse_nodes_facts.

Lemma parse_nodes_uses_closed_witness :
  match parse_nodes elements (λ _ _, "n") default_thm_types false
          [ex_statement; ex_using] with
  | Done (ns, raw, labels, log) =>
    ∀ n part, n ∈ ns → part = statement n ∨ proof n = Some part →
      (∀ u, u ∈ uses part → u ∈ name <$> ns) ∧
      (∀ l, l ∈ uses_raw part → labels !! l = None)
  | _ => True
  end.
Proof.
  apply (parse_nodes_uses_closed elements (λ _ _, "n") default_thm_types false
           [ex_statement; ex_using]).
  intros s x. apply elem_of_elements.
Defined.

(** On the document above, the lemma uses the theorem by its name and
    keeps the unknown label as a raw use. *)
Example parse_nodes_uses_example :
  parse_nodes elements (λ _ _, "n") default_thm_types false [ex_statement; ex_using]
  = Done ([mkNode "foo" (mkNodePart false "Statement." ∅ ∅ "theorem") None false
             None None;
           mkNode "bar" (mkNodePart false "Uses." {["foo"]} {["other"]} "lemma") None
             false None None],
          {["foo" := ["(theorem block)"]; "bar" := ["(lemma block)"]]},
          {["thm:a" := "foo"; "lem:b" := "bar"]}, []).
Proof. vm_compute. reflexivity. Qed.

(** * Further properties of write_blueprint_attributes *)

Lemma for_each_prefix {A S} (body : A → S → outcome S) (I : list A → S → Prop)
    (l : list A) :
  (∀ l1 x l2 st, l = l1 ++ x :: l2 → I l1 st →
     ∃ st', body x st = Done st' ∧ I (l1 ++ [x]) st') →
  ∀ st, I [] st → ∃ st', for_each body l st = Done st' ∧ I l st'.
Proof.
  intros Hbody.
  assert (∀ rest l1 st, l = l1 ++ rest → I l1 st →
            ∃ st', for_each body rest st = Done st' ∧ I l st') as Hgen.
  { induction rest as [|x rest IH]; intros l1 st Hl Hst; simpl.
    - rewrite app_nil_r in Hl. subst l1. by exists st.
    - destruct (Hbody l1 x rest st Hl Hst) as (st1 & -> & Hst1). simpl.
      apply (IH (l1 ++ [x])); [|done]. by rewrite <- app_assoc. }
  intros st Hst. by apply (Hgen l []).
Qed.

Lemma for_each_outcomes {A S} (body : A → S → outcome S) (I : S → Prop)
    (E : exn → Prop) (l : list A) :
  (∀ x st, x ∈ l → I st →
     match body x st with
     | Done st' => I st'
     | Raise e => E e
     | OutOfFuel => False
     end) →
  ∀ st, I st →
    match for_each body l st with
    | Done st' => I st'
    | Raise e => E e
    | OutOfFuel => False
    end.
Proof.
  induction l as [|x l IH]; intros Hbody st Hst; simpl; [done|].
  pose proof (Hbody x st ltac:(by left) Hst) as Hx.
  destruct (body x st) as [st'| |]; simpl; [|done..].
  apply IH; [|done]. intros y st0 Hy. apply Hbody. by right.
Qed.

Lemma from_index_elem (x : NodeWithPos) (l : list NodeWithPos) :
  x ∈ l → ∃ rest, from_index x l = Done rest ∧ ∀ y, y ∈ rest → y ∈ l.
Proof.
  induction l as [|y l IH]; [by intros ?%elem_of_nil|]. simpl.
  case_decide as Hy.
  - intros _. by exists (y :: l).
  - intros [-> | Hx]%elem_of_cons; [done|].
    destruct (IH Hx) as (rest & -> & Hrest). exists rest. split; [done|].
    intros z ?. right. by apply Hrest.
Qed.

Lemma initial_prepends (nodes : list NodeWithPos) (m0 : gmap string (list string)) :
  (∀ k v, m0 !! k = Some v → v = []) →
  let m := foldl (λ m (n : NodeWithPos), <[name n := []]> m) m0 nodes in
  (∀ k v, m !! k = Some v → v = []) ∧
  (∀ n : NodeWithPos, n ∈ nodes → is_Some (m !! name n)) ∧
  (∀ k, is_Some (m0 !! k) → is_Some (m !! k)).
Proof.
  revert m0. induction nodes as [|n nodes IH]; intros m0 H0; simpl.
  - split; [done|]. split; [by intros ? ?%elem_of_nil | done].
  - destruct (IH (<[name n := []]> m0)) as (H1 & H2 & H3).
    { intros k v. destruct (decide (name n = k)) as [<-|].
      - rewrite lookup_insert_eq. by intros [= <-].
      - rewrite lookup_insert_ne by done. apply H0. }
    split; [done|]. split.
    + intros n' [-> | Hn']%elem_of_cons; [|by apply H2].
      apply H3. rewrite lookup_insert_eq. eauto.
    + intros k Hk. apply H3. destruct (decide (name n = k)) as [<-|].
      * rewrite lookup_insert_eq. eauto.
      * by rewrite lookup_insert_ne.
Qed.

Lemma mjoin_all_nil (m : gmap string (list string)) :
  (∀ k v, m !! k = Some v → v = []) → mjoin ((map_to_list m).*2) = [].
Proof.
  intros Hm.
  assert (Forall (λ kv, kv.2 = []) (map_to_list m)) as Hall.
  { apply Forall_forall. intros [k v] Hkv%elem_of_map_to_list. by eapply Hm. }
  induction Hall as [|kv l Hv _ IH]; [done|].
  change (mjoin ((kv :: l).*2)) with (kv.2 ++ mjoin (l.*2)).
  by rewrite Hv, IH.
Qed.

Lemma mjoin_insert_snoc (m : gmap string (list string)) k ps s :
  m !! k = Some ps →
  mjoin ((map_to_list (<[k := ps ++ [s]]> m)).*2) ≡ₚ mjoin ((map_to_list m).*2) ++ [s].
Proof.
  intros Hk. rewrite <- insert_delete_eq.
  rewrite map_to_list_insert by apply lookup_delete_eq.
  rewrite <- (map_to_list_delete m k ps Hk). simpl.
  rewrite <- !app_assoc. apply Permutation_app_head. apply Permutation_app_comm.
Qed.

Section plan_facts.
Context (set_iter : gset string → list string).

Local Abbreviation upstream modules :=
  (λ n : NodeWithPos, is_upstream_or_informal modules n = true).

Lemma plan_prepends_spec (modules : list string) (nodes topo : list NodeWithPos) :
  (∀ n, n ∈ topo → n ∈ nodes) →
  ∃ pl, plan_prepends set_iter modules nodes topo = Done pl ∧
    (∀ n : NodeWithPos, n ∈ nodes → is_Some (prepends pl !! name n)) ∧
    planned_stubs pl ≡ₚ
      upstream_or_informal_to_lean set_iter <$> filter (upstream modules) topo.
Proof.
  intros Hsub. unfold plan_prepends.
  destruct (initial_prepends nodes ∅) as (Hnil & Hkeys & _).
  { intros k v. by rewrite lookup_empty. }
  cbv zeta in Hnil, Hkeys.
  apply (for_each_prefix (plan_node set_iter modules topo)
           (λ l1 pl,
              (∀ n : NodeWithPos, n ∈ nodes → is_Some (prepends pl !! name n)) ∧
              planned_stubs pl ≡ₚ
                upstream_or_informal_to_lean set_iter <$> filter (upstream modules) l1)).
  - intros l1 x l2 pl Htopo [Hk Hp]. unfold plan_node. rewrite filter_app, fmap_app.
    destruct (is_upstream_or_informal modules x) eqn:Hup.
    + rewrite filter_cons_True by done. rewrite filter_nil. simpl.
      assert (x ∈ topo) as Hx by (rewrite Htopo; set_solver).
      destruct (from_index_elem x topo Hx) as (rest & -> & Hrest). simpl.
      destruct (find _ rest) as [normal|] eqn:Hfind.
      * apply find_some in Hfind as [Hnormal%list_elem_of_In _].
        destruct (Hk normal (Hsub _ (Hrest _ Hnormal))) as [ps Hps].
        rewrite Hps. eexists. split; [done|]. simpl. split.
        -- intros n Hn. destruct (decide (name normal = name n)) as [->|].
           ++ rewrite lookup_insert_eq. eauto.
           ++ rewrite lookup_insert_ne by done. by apply Hk.
        -- unfold planned_stubs in *. simpl.
           rewrite (mjoin_insert_snoc _ _ _ _ Hps).
           by rewrite app_assoc, Hp.
      * eexists. split; [done|]. simpl. split; [done|].
        unfold planned_stubs in *. simpl. rewrite <- Hp.
        rewrite <- !app_assoc. apply Permutation_app_head. apply Permutation_app_comm.
    + rewrite filter_cons_False by (rewrite Hup; done). rewrite filter_nil.
      exists pl. split; [done|]. split; [done|]. by rewrite app_nil_r.
  - split; [done|]. unfold planned_stubs. simpl. by rewrite mjoin_all_nil.
Qed.

(** X13. When the nodes of the topological order are among the given nodes,
    the planning loop raises nothing, and no placeholder is lost or doubled:
    the placeholders of the plan, prepended or overflowing, are exactly those
    of the upstream and informal nodes, one for each. *)
Theorem plan_prepends_places_every_stub
    (modules : list string) (nodes topo : list NodeWithPos) :
  (∀ n, n ∈ topo → n ∈ nodes) →
  ∃ pl, plan_prepends set_iter modules nodes topo = Done pl ∧
    planned_stubs pl ≡ₚ
      upstream_or_informal_to_lean set_iter <$> filter (upstream modules) topo.
Proof.
  intros Hsub. destruct (plan_prepends_spec modules nodes topo Hsub) as (pl & ? & _ & ?).
  by exists pl.
Qed.

(** X24. Where the planning loop puts a placeholder: one that is prepended to
    a node belongs to an upstream or informal node that this node, a node of
    the given modules at or after it in the topological order, uses; one that
    overflows belongs to an upstream or informal node that no node of the
    given modules at or after it uses. *)
Theorem plan_prepends_targets (modules : list string) (nodes topo : list NodeWithPos) :
  (∀ n, n ∈ topo → n ∈ nodes) →
  ∃ pl, plan_prepends set_iter modules nodes topo = Done pl ∧
    (∀ nm ps s, prepends pl !! nm = Some ps → s ∈ ps →
                stub_target set_iter modules topo nm s) ∧
    (∀ s, s ∈ extra_nodes pl → stub_overflow set_iter modules topo s).
Proof.
  intros Hsub. unfold plan_prepends.
  destruct (initial_prepends nodes ∅) as (Hnil & Hkeys & _).
  { intros k v. by rewrite lookup_empty. }
  cbv zeta in Hnil, Hkeys.
  destruct (for_each_prefix (plan_node set_iter modules topo)
              (λ (_ : list NodeWithPos) pl,
                 (∀ n : NodeWithPos, n ∈ nodes → is_Some (prepends pl !! name n)) ∧
                 (∀ nm ps s, prepends pl !! nm = Some ps → s ∈ ps →
                             stub_target set_iter modules topo nm s) ∧
                 (∀ s, s ∈ extra_nodes pl → stub_overflow set_iter modules topo s))
              topo) with (st := mkPlan (foldl (λ m (n : NodeWithPos), <[name n := []]> m)
                                          ∅ nodes) [])
    as (pl & Hrun & _ & Ht & Ho).
  - intros l1 x l2 pl Htopo (Hk & Ht & Ho). unfold plan_node.
    destruct (is_upstream_or_informal modules x) eqn:Hup; [|by exists pl].
    assert (x ∈ topo) as Hx by (rewrite Htopo; set_solver).
    destruct (from_index_elem x topo Hx) as (rest & Hfrom & Hrest). rewrite Hfrom. simpl.
    destruct (find _ rest) as [normal|] eqn:Hfind.
    + apply find_some in Hfind as [Hnormal%list_elem_of_In Hpred].
      apply andb_true_iff in Hpred as [Hlocal%negb_true_iff Huses%bool_decide_eq_true].
      destruct (Hk normal (Hsub _ (Hrest _ Hnormal))) as [ps Hps].
      rewrite Hps. eexists. split; [done|]. simpl. split; [|split; [|done]].
      * intros n Hn. destruct (decide (name normal = name n)) as [->|].
        -- rewrite lookup_insert_eq. eauto.
        -- rewrite lookup_insert_ne by done. by apply Hk.
      * intros nm ps' s. destruct (decide (name normal = nm)) as [<-|].
        -- rewrite lookup_insert_eq. intros [= <-] [Hs | ->%list_elem_of_singleton]%elem_of_app.
           ++ by eapply Ht.
           ++ by exists x, normal, rest.
        -- rewrite lookup_insert_ne by done. apply Ht.
    + eexists. split; [done|]. simpl. split; [done|]. split; [done|].
      intros s [Hs | ->%list_elem_of_singleton]%elem_of_app; [by apply Ho|].
      exists x, rest. split; [done|]. split; [done|]. split; [done|].
      intros normal Hnormal%list_elem_of_In Hlocal Huses.
      apply (find_none _ _ Hfind) in Hnormal. rewrite Hlocal in Hnormal. simpl in Hnormal.
      by apply bool_decide_eq_false in Hnormal.
  - split; [done|]. split.
    + intros nm ps s Hps Hs. simpl in Hps. apply Hnil in Hps. subst ps.
      by apply elem_of_nil in Hs.
    + by intros s ?%elem_of_nil.
  - by exists pl.
Qed.
End plan_facts.

Lemma plan_prepends_places_every_stub_witness :
  ∃ pl, plan_prepends elements ["Proj"] ex_plan_nodes ex_plan_nodes = Done pl ∧
    planned_stubs pl ≡ₚ
      upstream_or_informal_to_lean elements <$>
        filter (λ n : NodeWithPos, is_upstream_or_informal ["Proj"] n = true) ex_plan_nodes.
Proof.
  apply (plan_prepends_places_every_stub elements ["Proj"] ex_plan_nodes ex_plan_nodes).
  intros n Hn. exact Hn.
Defined.

(** The plan for the example nodes: the placeholder of the used informal node is
    prepended to its user, that of the unused one overflows. *)
Example plan_prepends_example :
  plan_prepends elements ["Proj"] ex_plan_nodes ex_plan_nodes
  = Done (mkPlan {["i" := []; "j" := [];
                   "a" := [upstream_or_informal_to_lean elements (ex_informal "i")]]}
                 [upstream_or_informal_to_lean elements (ex_informal "j")]).
Proof. vm_compute. reflexivity. Qed.

Lemma write_extra_nodes_frame root_file extra w path :
  path ≠ root_file → fs (write_extra_nodes root_file extra w) !! path = fs w !! path.
Proof.
  intros Hne. unfold write_extra_nodes. destruct extra; [done|].
  simpl. by rewrite lookup_insert_ne.
Qed.

Section write_outcomes.
Context (set_iter : gset string → list string).

Local Abbreviation local_file modules nodes f :=
  (∃ n : NodeWithPos,
     n ∈ (nodes : list NodeWithPos) ∧ is_upstream_or_informal modules n = false ∧
     file n = Some f).

Local Abbreviation write_error e :=
  (e = AssertionError ∨ e = IndexError ∨ ∃ f, e = FileNotFoundError f).

Lemma splice_loop_outcomes modules add_uses pl (nodes l : list NodeWithPos) w :
  (∀ n, n ∈ l → n ∈ nodes) →
  (∀ n : NodeWithPos, n ∈ nodes → is_Some (prepends pl !! name n)) →
  match splice_loop set_iter modules add_uses pl l w with
  | Done (m, w') =>
    (∀ path, ¬ local_file modules nodes path → fs w' !! path = fs w !! path) ∧
    (∀ f, f ∈ m → local_file modules nodes f)
  | Raise e => write_error e
  | OutOfFuel => False
  end.
Proof.
  intros Hsub Hkeys. unfold splice_loop.
  pose proof (for_each_outcomes (splice_node set_iter modules add_uses pl)
                (λ st : gset string * World,
                   (∀ path, ¬ local_file modules nodes path →
                            fs st.2 !! path = fs w !! path) ∧
                   (∀ f, f ∈ st.1 → local_file modules nodes f))
                (λ e, write_error e) l) as Hloop.
  assert (match for_each (splice_node set_iter modules add_uses pl) l (∅, w) with
          | Done st =>
            (∀ path, ¬ local_file modules nodes path → fs st.2 !! path = fs w !! path) ∧
            (∀ f, f ∈ st.1 → local_file modules nodes f)
          | Raise e => write_error e
          | OutOfFuel => False
          end) as Hrun.
  { apply Hloop; [|split; [done | set_solver]].
    intros x [m w1] Hx [Hframe Hm]. unfold splice_node.
    destruct (is_upstream_or_informal modules x) eqn:Hup; [done|].
    destruct (has_lean x); [|by left].
    destruct (file x) as [f|] eqn:Hfile; [|by left].
    destruct (location x) as [loc|]; [|by left].
    destruct (Hkeys x (Hsub x Hx)) as [ps ->]. simpl.
    pose proof (modify_source_cases set_iter x f loc add_uses (Some ps) w1) as Hmod.
    destruct (modify_source _ _ _ _ _ _ _) as [w2| |]; simpl; [| |done].
    - destruct Hmod as [_ [content Hfs]]. split.
      + intros path Hpath. rewrite Hfs. rewrite lookup_insert_ne; [by apply Hframe|].
        intros <-. apply Hpath. exists x. eauto.
      + intros f' [->%elem_of_singleton | ?]%elem_of_union; [|by apply Hm].
        exists x. eauto.
    - destruct Hmod as [[-> _] | [-> _]]; [right; right; eauto | right; by left]. }
  destruct (for_each _ l _) as [[m w']| |]; done.
Qed.

Lemma import_loop_outcomes (l : list string) (w : World) :
  match for_each add_blueprint_gen_import l w with
  | Done w' => ∀ path, path ∉ l → fs w' !! path = fs w !! path
  | Raise e => ∃ f, e = FileNotFoundError f
  | OutOfFuel => False
  end.
Proof.
  apply (for_each_outcomes add_blueprint_gen_import
           (λ w', ∀ path, path ∉ l → fs w' !! path = fs w !! path)
           (λ e, ∃ f, e = FileNotFoundError f)); [|done].
  intros f w1 Hf Hframe. unfold add_blueprint_gen_import, read_text.
  destruct (fs w1 !! f) as [src|]; simpl; [|eauto].
  intros path Hpath. rewrite lookup_insert_ne; [by apply Hframe|].
  intros <-. done.
Qed.

Lemma write_blueprint_attributes_cases
    (nodes : list NodeWithPos) (modules : list string) (root_file : string)
    (convert_informal add_uses : bool) (w : World) :
  (∀ s x, x ∈ set_iter s → x ∈ s) →
  match write_blueprint_attributes set_iter nodes modules root_file
          convert_informal add_uses w with
  | Done w' =>
    ∀ path, path ≠ root_file → ¬ local_file modules nodes path →
            fs w' !! path = fs w !! path
  | Raise e => write_error e
  | OutOfFuel => False
  end.
Proof.
  intros Hiter. unfold write_blueprint_attributes.
  set (data := (λ n : NodeWithPos, (n, "")) <$> nodes).
  destruct (topological_sort_fuel_spec set_iter data (S (length data)))
    as (sorted & Hsort & _ & Hlook & _); [lia|].
  unfold topological_sort. rewrite Hsort. cbn [obind].
  destruct (plan_prepends_spec set_iter modules nodes (sorted.*1)) as (pl & -> & Hkeys & _).
  { intros n (d & -> & Hd)%list_elem_of_fmap.
    apply Hlook, name_to_node_of_Some in Hd as [Hd _].
    apply list_elem_of_fmap in Hd as (n' & -> & Hn'). done. }
  cbn [obind].
  assert (∀ n, n ∈ sorted_by_location_reverse nodes → n ∈ nodes) as Hsub.
  { intros n. by rewrite elem_of_sorted_by_location_reverse. }
  pose proof (splice_loop_outcomes modules add_uses pl nodes
                (sorted_by_location_reverse nodes) w Hsub Hkeys) as Hsplice.
  destruct (splice_loop _ _ _ _ _ _) as [[m w1]| |]; simpl.
  - destruct Hsplice as [Hframe Hm].
    unfold import_loop.
    pose proof (import_loop_outcomes (set_iter m) w1) as Himport.
    destruct (for_each add_blueprint_gen_import _ _) as [w2| |]; simpl.
    + intros path Hroot Hpath. rewrite write_extra_nodes_frame by done.
      rewrite Himport; [by apply Hframe|].
      intros Hin%Hiter. by apply Hpath, Hm.
    + destruct Himport as [f ->]. right. right. eauto.
    + done.
  - done.
  - done.
Qed.

(** X14. [write_blueprint_attributes] writes only to files of nodes of the
    given modules and to the overflow file, and it can only fail by the
    assertion on such a node, by a missing file or by a line out of range:
    the sort, the planning loop and the lookups of the plan raise nothing. *)
Theorem write_blueprint_attributes_outcomes
    (nodes : list NodeWithPos) (modules : list string) (root_file : string)
    (convert_informal add_uses : bool) (w : World) :
  (∀ s x, x ∈ set_iter s → x ∈ s) →
  match write_blueprint_attributes set_iter nodes modules root_file
          convert_informal add_uses w with
  | Done w' =>
    ∀ path, path ≠ root_file →
      (∀ n : NodeWithPos, n ∈ nodes → is_upstream_or_informal modules n = false →
                          file n ≠ Some path) →
      fs w' !! path = fs w !! path
  | Raise e => e = AssertionError ∨ e = IndexError ∨ ∃ f, e = FileNotFoundError f
  | OutOfFuel => False
  end.
Proof.
  intros Hiter.
  pose proof (write_blueprint_attributes_cases nodes modules root_file convert_informal
                add_uses w Hiter) as Hcases.
  destruct (write_blueprint_attributes _ _ _ _ _ _ _) as [w'| |]; [|done..].
  intros path Hroot Hpath. apply Hcases; [done|].
  intros (n & Hn & Hup & Hfile). by eapply Hpath.
Qed.
End write_outcomes.

Lemma write_blueprint_attributes_outcomes_witness :
  match write_blueprint_attributes elements ex_plan_nodes ["Proj"] "Proj.lean"
          true false ex_two_world with
  | Done w' =>
    ∀ path, path ≠ "Proj.lean" →
      (∀ n : NodeWithPos, n ∈ ex_plan_nodes → is_upstream_or_informal ["Proj"] n = false →
                          file n ≠ Some path) →
      fs w' !! path = fs ex_two_world !! path
  | Raise e => e = AssertionError ∨ e = IndexError ∨ ∃ f, e = FileNotFoundError f
  | OutOfFuel => False
  end.
Proof.
  apply (write_blueprint_attributes_outcomes elements ex_plan_nodes ["Proj"] "Proj.lean"
           true false ex_two_world).
  intros s x. apply elem_of_elements.
Defined.

Lemma plan_prepends_targets_witness :
  ∃ pl, plan_prepends elements ["Proj"] ex_plan_nodes ex_plan_nodes = Done pl ∧
    (∀ nm ps s, prepends pl !! nm = Some ps → s ∈ ps →
                stub_target elements ["Proj"] ex_plan_nodes nm s) ∧
    (∀ s, s ∈ extra_nodes pl → stub_overflow elements ["Proj"] ex_plan_nodes s).
Proof.
  apply (plan_prepends_targets elements ["Proj"] ex_plan_nodes ex_plan_nodes).
  intros n Hn. exact Hn.
Defined.

(** * Splicing two declarations of one file, the later one first *)

Lemma str_length_app (a b : string) :
  String.length (a +:+ b) = String.length a + String.length b.
Proof. induction a as [|c a IH]; str_norm; simpl; [done | by rewrite IH]. Qed.

Lemma str_take_length n s : String.length (str_take n s) = n `min` String.length s.
Proof.
  revert n. induction s as [|c s IH]; intros [|n]; simpl; try done. by rewrite IH.
Qed.

Lemma str_drop_length n s : String.length (str_drop n s) = String.length s - n.
Proof. revert n. induction s as [|c s IH]; intros [|n]; simpl; try done. Qed.

Lemma str_take_app_le n (a b : string) :
  n ≤ String.length a → str_take n (a +:+ b) = str_take n a.
Proof.
  revert n. induction a as [|c a IH]; intros n Hn; str_norm; simpl in *.
  - assert (n = 0) as -> by lia. by destruct b.
  - destruct n as [|n]; [done|]. simpl. rewrite IH by lia. done.
Qed.

Lemma str_drop_app_le n (a b : string) :
  n ≤ String.length a → str_drop n (a +:+ b) = str_drop n a +:+ b.
Proof.
  revert n. induction a as [|c a IH]; intros n Hn; str_norm; simpl in *.
  - assert (n = 0) as -> by lia. by destruct b.
  - destruct n as [|n]; [by str_norm|]. simpl. apply IH. lia.
Qed.

Lemma str_take_take n m s : n ≤ m → str_take n (str_take m s) = str_take n s.
Proof.
  revert n m. induction s as [|c s IH]; intros [|n] [|m] Hnm; simpl; try done; [lia|].
  rewrite IH by lia. done.
Qed.

Lemma str_drop_take n m s : str_drop n (str_take m s) = str_take (m - n) (str_drop n s).
Proof.
  revert n m. induction s as [|c s IH]; intros [|n] [|m]; simpl; try done.
  all: try (by destruct (m - n)). all: try apply IH.
Qed.

Lemma slice_nat s a b :
  slice s (Z.of_nat a) (Z.of_nat b) = str_take (b - a) (str_drop a s).
Proof.
  unfold slice, slice_bound. rewrite !decide_False by lia. rewrite !Nat2Z.id.
  rewrite str_drop_min.
  assert (String.length (str_drop a s) = String.length s - a) as Hlen.
  { clear b. revert a. induction s as [|c s IH]; intros [|a]; simpl; try done. }
  rewrite <- (str_take_min (b - a)), <- (str_take_min (_ `min` _ - _)).
  f_equal. rewrite Hlen. lia.
Qed.

Lemma insert_docstring_and_attribute_text decl d a w w0 :
  (insert_docstring_and_attribute decl d a w).1
  = (insert_docstring_and_attribute decl d a w0).1.
Proof. unfold insert_docstring_and_attribute. by repeat case_match. Qed.

(** [modify_source] on valid positions: the declaration text between the two
    offsets is replaced by its modified text. *)
Lemma modify_source_spec (set_iter : gset string → list string) (node : Node)
    (file : string) (loc : DeclarationLocation) (add_uses : bool)
    (prepend : option (list string)) (w : World) (source : string) :
  fs w !! file = Some source →
  position_in source (pos (range loc)) →
  position_in source (end_pos (range loc)) →
  ∃ w',
    modify_source set_iter node file loc add_uses prepend w = Done w' ∧
    fs w' = <[file :=
               str_take (absolute_offset source (pos (range loc))) source
               +:+ modified_declaration set_iter node add_uses prepend
                     (str_take (absolute_offset source (end_pos (range loc))
                                - absolute_offset source (pos (range loc)))
                        (str_drop (absolute_offset source (pos (range loc))) source))
               +:+ str_drop (absolute_offset source (end_pos (range loc))) source]>
            (fs w).
Proof.
  intros Hfile [Hcp Hlp] [Hcq Hlq]. unfold modify_source, read_text. rewrite Hfile.
  cbn [obind]. unfold split_declaration.
  rewrite (offset_of_absolute _ _ Hcp Hlp), (offset_of_absolute _ _ Hcq Hlq).
  cbn [obind]. rewrite slice_to_nat, slice_from_nat, slice_nat.
  set (decl := str_take _ (str_drop _ source)).
  destruct (insert_docstring_and_attribute decl _ _ w) as [decl' w1] eqn:Hins.
  eexists. split; [done|]. simpl.
  assert (fs w1 = fs w) as ->.
  { destruct (insert_docstring_and_attribute_world decl (text (statement node))
                (to_lean_attribute set_iter node false
                   (add_uses || negb (is_some (proof node)) && contains "sorry" decl)
                   (add_uses || negb (is_some (proof node)) && contains "sorry" decl
                    || set_truthy (uses_raw (statement node)))
                   true
                   (add_uses || negb (is_some (proof node)) && contains "sorry" decl
                    || is_some (proof node) && contains "sorry" decl)
                   (add_uses || negb (is_some (proof node)) && contains "sorry" decl
                    || match proof node with
                       | Some p => set_truthy (uses_raw p)
                       | None => false
                       end)) w) as [E | [_ E]];
      rewrite Hins in E; simpl in E; by subst w1. }
  f_equal. f_equal. f_equal. unfold modified_declaration. cbv zeta. fold decl.
  rewrite (insert_docstring_and_attribute_text decl _ _ (mkWorld ∅ [] false) w).
  rewrite Hins. done.
Qed.

Lemma contains_CR_cons c s :
  contains CR (String c s) = false → c ≠ "013"%char ∧ contains CR s = false.
Proof.
  unfold CR. simpl. intros [Hc Hs]%orb_false_iff. split; [|done].
  intros ->. by rewrite decide_True in Hc.
Qed.

Lemma splitlines_go_cons cur c s :
  splitlines_go cur (String c s)
  = if is_linebreak c && negb (bool_decide (c = "013"%char) && startswith s nl)
    then (cur +:+ String c "") :: splitlines_go "" s
    else splitlines_go (cur +:+ String c "") s.
Proof. reflexivity. Qed.

Lemma splitlines_go_first cur s l ls :
  splitlines_go cur s = l :: ls → String.length cur ≤ String.length l.
Proof.
  revert cur. induction s as [|c s IH]; intros cur; simpl.
  - destruct cur; [done|]. by intros [= <- _].
  - destruct (is_linebreak c && _).
    + intros [= <- _]. rewrite str_length_app. simpl. lia.
    + intros Hl%IH. rewrite str_length_app in Hl. simpl in Hl. lia.
Qed.

(** The first [k] lines of a text without carriage return are not changed
    when the text is cut at or after their end and continued in another way. *)
Lemma splitlines_go_prefix (s : string) :
  ∀ cur k t X,
    contains CR s = false →
    k < length (splitlines_go cur s) →
    (k = 0 ∨ sum_list (String.length <$> take k (splitlines_go cur s))
             ≤ String.length cur + t) →
    take k (splitlines_go cur (str_take t s +:+ X)) = take k (splitlines_go cur s).
Proof.
  induction s as [|c s IH]; intros cur k t X Hcr Hk Ht.
  - simpl in Hk. destruct k as [|k]; [done|]. destruct cur; simpl in Hk; lia.
  - destruct k as [|k]; [done|]. destruct Ht as [Ht | Ht]; [done|].
    apply contains_CR_cons in Hcr as [Hc Hcr].
    assert (∀ s', (is_linebreak c && negb (bool_decide (c = "013"%char) && startswith s' nl))
                  = is_linebreak c) as Hbreak.
    { intros s'. rewrite bool_decide_eq_false_2 by done. simpl. apply andb_true_r. }
    assert (splitlines_go cur (String c s)
            = if is_linebreak c then (cur +:+ String c "") :: splitlines_go "" s
              else splitlines_go (cur +:+ String c "") s) as Hgo.
    { by rewrite splitlines_go_cons, Hbreak. }
    rewrite Hgo in Hk, Ht |- *.
    assert (0 < t) as Hpos.
    { destruct (is_linebreak c).
      - simpl in Ht. rewrite str_length_app in Ht. simpl in Ht. lia.
      - destruct (splitlines_go (cur +:+ String c "") s) as [|l ls] eqn:E;
          [simpl in Hk; lia|].
        apply splitlines_go_first in E. rewrite str_length_app in E.
        simpl in Ht, E. lia. }
    destruct t as [|t]; [lia|].
    change (str_take (S t) (String c s)) with (String c (str_take t s)).
    rewrite str_app_cons.
    assert (splitlines_go cur (String c (str_take t s +:+ X))
            = if is_linebreak c
              then (cur +:+ String c "") :: splitlines_go "" (str_take t s +:+ X)
              else splitlines_go (cur +:+ String c "") (str_take t s +:+ X)) as ->.
    { by rewrite splitlines_go_cons, Hbreak. }
    destruct (is_linebreak c).
    + change (take (S k) ((cur +:+ String c "") :: ?l))
        with ((cur +:+ String c "") :: take k l) in Ht |- *.
      change (take (S k) ((cur +:+ String c "") :: ?l))
        with ((cur +:+ String c "") :: take k l).
      rewrite fmap_cons in Ht.
      change (sum_list (?a :: ?l)) with (a + sum_list l) in Ht.
      rewrite str_length_app in Ht.
      change (String.length (String c "")) with 1 in Ht.
      change (length (?a :: ?l)) with (S (length l)) in Hk.
      f_equal. apply IH; [done | lia |]. right.
      change (String.length "") with 0. lia.
    + apply IH; [done | done |]. right. rewrite str_length_app.
      change (String.length (String c "")) with 1. lia.
Qed.

Lemma absolute_offset_prefix (source X : string) (t : nat) (p : Position) :
  contains CR source = false →
  position_on_line source p →
  absolute_offset source p ≤ t →
  position_in (str_take t source +:+ X) p ∧
  absolute_offset (str_take t source +:+ X) p = absolute_offset source p.
Proof.
  intros Hcr [Hc Hl] Ht. unfold absolute_offset, position_in, splitlines_keepends in *.
  set (k := Z.to_nat (line p - 1)) in *.
  assert (take k (splitlines_go "" (str_take t source +:+ X))
          = take k (splitlines_go "" source)) as Htake.
  { destruct (decide (k = 0)) as [-> | Hk]; [done|].
    apply splitlines_go_prefix; [done | unfold k in *; lia |]. right.
    change (String.length "") with 0. lia. }
  rewrite Htake. split; [|done]. split; [done|].
  apply (f_equal length) in Htake. rewrite !length_take in Htake.
  unfold k in *. lia.
Qed.

(** X15. Two declarations of one file, the first ending before the second
    starts, in a file without carriage returns: splicing the later one first
    leaves the coordinates of the earlier one valid, and the two runs of
    [modify_source] replace each declaration text by its modified text and
    keep the text before, between and after them. *)
Theorem modify_source_later_first
    (set_iter : gset string → list string) (node1 node2 : Node) (file : string)
    (loc1 loc2 : DeclarationLocation) (add_uses : bool)
    (prepend1 prepend2 : option (list string)) (w : World) (source : string) :
  fs w !! file = Some source →
  contains CR source = false →
  position_on_line source (pos (range loc1)) →
  position_on_line source (end_pos (range loc1)) →
  position_in source (pos (range loc2)) →
  position_in source (end_pos (range loc2)) →
  absolute_offset source (pos (range loc1)) ≤ absolute_offset source (end_pos (range loc1)) →
  absolute_offset source (end_pos (range loc1)) ≤ absolute_offset source (pos (range loc2)) →
  absolute_offset source (pos (range loc2)) ≤ absolute_offset source (end_pos (range loc2)) →
  absolute_offset source (end_pos (range loc2)) ≤ String.length source →
  ∃ w2 w1,
    modify_source set_iter node2 file loc2 add_uses prepend2 w = Done w2 ∧
    modify_source set_iter node1 file loc1 add_uses prepend1 w2 = Done w1 ∧
    fs w1 =
      <[file :=
          str_take (absolute_offset source (pos (range loc1))) source
          +:+ modified_declaration set_iter node1 add_uses prepend1
                (str_take (absolute_offset source (end_pos (range loc1))
                           - absolute_offset source (pos (range loc1)))
                   (str_drop (absolute_offset source (pos (range loc1))) source))
          +:+ str_take (absolute_offset source (pos (range loc2))
                        - absolute_offset source (end_pos (range loc1)))
                (str_drop (absolute_offset source (end_pos (range loc1))) source)
          +:+ modified_declaration set_iter node2 add_uses prepend2
                (str_take (absolute_offset source (end_pos (range loc2))
                           - absolute_offset source (pos (range loc2)))
                   (str_drop (absolute_offset source (pos (range loc2))) source))
          +:+ str_drop (absolute_offset source (end_pos (range loc2))) source]>
        (fs w).
Proof.
  intros Hfile Hcr Hp1 Hq1 Hp2 Hq2 H1 H12 H2 Hlen.
  destruct (modify_source_spec set_iter node2 file loc2 add_uses prepend2 w source
              Hfile Hp2 Hq2) as (w2 & Hrun2 & Hfs2).
  set (s1 := absolute_offset source (pos (range loc1))) in *.
  set (e1 := absolute_offset source (end_pos (range loc1))) in *.
  set (s2 := absolute_offset source (pos (range loc2))) in *.
  set (e2 := absolute_offset source (end_pos (range loc2))) in *.
  set (new2 := modified_declaration set_iter node2 add_uses prepend2 _) in *.
  set (X := new2 +:+ str_drop e2 source) in *.
  destruct (absolute_offset_prefix source X s2 (pos (range loc1)) Hcr Hp1)
    as [Hp1' Hs1]; [fold s1; lia|].
  destruct (absolute_offset_prefix source X s2 (end_pos (range loc1)) Hcr Hq1)
    as [Hq1' He1]; [fold e1; lia|].
  assert (fs w2 !! file = Some (str_take s2 source +:+ X)) as Hfile2.
  { rewrite Hfs2. by rewrite lookup_insert_eq. }
  destruct (modify_source_spec set_iter node1 file loc1 add_uses prepend1 w2
              (str_take s2 source +:+ X) Hfile2 Hp1' Hq1') as (w1 & Hrun1 & Hfs1).
  exists w2, w1. split; [done|]. split; [done|].
  rewrite Hfs1, Hfs2, insert_insert_eq. rewrite Hs1, He1. fold s1 e1.
  assert (String.length (str_take s2 source) = s2) as Hlen2.
  { rewrite str_take_length. lia. }
  f_equal.
  rewrite (str_take_app_le s1) by lia. rewrite (str_take_take s1 s2) by lia.
  rewrite (str_drop_app_le s1) by lia. rewrite (str_drop_app_le e1) by lia.
  rewrite !str_drop_take.
  rewrite (str_take_app_le (e1 - s1))
    by (rewrite str_take_length, str_drop_length; lia).
  rewrite (str_take_take (e1 - s1) (s2 - s1)) by lia.
  unfold X. done.
Qed.

Lemma modify_source_later_first_witness :
  ∃ w2 w1,
    modify_source elements (ex_decl "b" 6 7) "Proj/Basic.lean"
      (mkLocation "Proj.Basic" (mkRange (mkPosition 6 0) (mkPosition 7 9)))
      false None ex_two_world = Done w2 ∧
    modify_source elements (ex_decl "a" 3 4) "Proj/Basic.lean"
      (mkLocation "Proj.Basic" (mkRange (mkPosition 3 0) (mkPosition 4 9)))
      false None w2 = Done w1 ∧
    fs w1 = <["Proj/Basic.lean" := ex_two_spliced]> (fs ex_two_world).
Proof.
  destruct (modify_source_later_first elements (ex_decl "a" 3 4) (ex_decl "b" 6 7)
              "Proj/Basic.lean"
              (mkLocation "Proj.Basic" (mkRange (mkPosition 3 0) (mkPosition 4 9)))
              (mkLocation "Proj.Basic" (mkRange (mkPosition 6 0) (mkPosition 7 9)))
              false None None ex_two_world ex_two_source)
    as (w2 & w1 & H2 & H1 & Hfs).
  - reflexivity.
  - vm_compute. reflexivity.
  - split; vm_compute; [discriminate | reflexivity].
  - split; vm_compute; [discriminate | reflexivity].
  - split; vm_compute; discriminate.
  - split; vm_compute; discriminate.
  - vm_compute. lia.
  - vm_compute. lia.
  - vm_compute. lia.
  - vm_compute. lia.
  - exists w2, w1. split; [exact H2|]. split; [exact H1|].
    rewrite Hfs. f_equal; vm_compute; reflexivity.
Defined.

(** * Properties of generate_new_lean_name *)

Lemma str_forall_app P (a b : string) :
  str_forall P (a +:+ b) = str_forall P a && str_forall P b.
Proof.
  induction a as [|c a IH]; str_norm; simpl; [done|]. by rewrite IH, andb_assoc.
Qed.

Lemma str_forall_impl (P Q : ascii → bool) s :
  (∀ c, P c = true → Q c = true) →
  str_forall P s = true → str_forall Q s = true.
Proof.
  intros HPQ. induction s as [|c s IH]; simpl; [done|].
  intros [Hc Hs]%andb_true_iff. by rewrite (HPQ _ Hc), IH.
Qed.

Lemma hex_digit_plain n : Naming.plain_char (hex_digit n) = true.
Proof. do 16 (destruct n as [|n]; [done|]). done. Qed.

Lemma hex_digits_plain n x acc :
  str_forall Naming.plain_char acc = true →
  str_forall Naming.plain_char (Naming.hex_digits n x acc) = true.
Proof.
  revert x acc. induction n as [|n IH]; intros x acc Hacc; simpl; [done|].
  apply IH. simpl. by rewrite hex_digit_plain.
Qed.

Lemma hex_digits_length n x acc :
  String.length (Naming.hex_digits n x acc) = n + String.length acc.
Proof.
  revert x acc. induction n as [|n IH]; intros x acc; simpl; [done|].
  rewrite IH. simpl. lia.
Qed.

Lemma uuid4_hex_plain x : str_forall Naming.plain_char (Naming.uuid4_hex x) = true.
Proof. by apply hex_digits_plain. Qed.

Lemma uuid4_hex_length x : String.length (Naming.uuid4_hex x) = 32.
Proof. unfold Naming.uuid4_hex. by rewrite hex_digits_length. Qed.

Lemma str_forall_cons P c s :
  str_forall P (String c s) = P c && str_forall P s.
Proof. reflexivity. Qed.

(** Replacing one character by another, character by character. *)
Lemma replace_char_cons (a b c : ascii) s :
  replace (String a "") (String b "") (String c s)
  = String (if decide (a = c) then b else c) (replace (String a "") (String b "") s).
Proof.
  unfold replace. simpl. destruct (decide (a = c)); [by str_norm | done].
Qed.

Lemma replace_char_forall (P : ascii → bool) (a b : ascii) s :
  P b = true →
  str_forall (λ c, P c || bool_decide (c = a)) s = true →
  str_forall P (replace (String a "") (String b "") s) = true.
Proof.
  intros Hb. induction s as [|c s IH]; [done|].
  rewrite replace_char_cons, !str_forall_cons. intros [Hc Hs]%andb_true_iff.
  rewrite IH by done. destruct (decide (a = c)) as [->|Hne].
  - by rewrite Hb.
  - apply orb_true_iff in Hc as [-> | Hc%bool_decide_eq_true]; [done | congruence].
Qed.

Lemma replace_char_id (a b : ascii) s :
  str_forall (λ c, negb (bool_decide (c = a))) s = true →
  replace (String a "") (String b "") s = s.
Proof.
  induction s as [|c s IH]; [done|]. rewrite replace_char_cons, str_forall_cons.
  intros [Hc Hs]%andb_true_iff. rewrite IH by done.
  apply negb_true_iff, bool_decide_eq_false in Hc.
  by rewrite decide_False by congruence.
Qed.

Lemma split_char_go_cons sep cur c s :
  split_char_go sep cur (String c s)
  = if decide (c = sep) then cur :: split_char_go sep "" s
    else split_char_go sep (cur +:+ String c "") s.
Proof. reflexivity. Qed.

Lemma split_char_go_last sep cur s :
  str_forall (λ c, negb (bool_decide (c = sep))) cur = true →
  ∃ l, last (split_char_go sep cur s) = Some l ∧
       str_forall (λ c, negb (bool_decide (c = sep))) l = true.
Proof.
  revert cur. induction s as [|c s IH]; intros cur Hcur.
  - by exists cur.
  - rewrite split_char_go_cons. case_decide as Hc.
    + destruct (IH "" eq_refl) as (l & Hl & ?). exists l. split; [|done].
      rewrite last_cons, Hl. done.
    + apply IH. rewrite str_forall_app, Hcur. simpl.
      by rewrite bool_decide_eq_false_2.
Qed.

Lemma split_char_go_none sep cur s :
  str_forall (λ c, negb (bool_decide (c = sep))) s = true →
  split_char_go sep cur s = [cur +:+ s].
Proof.
  revert cur. induction s as [|c s IH]; intros cur.
  - intros _. simpl. by rewrite str_app_nil_r.
  - rewrite split_char_go_cons, str_forall_cons. intros [Hc Hs]%andb_true_iff.
    apply negb_true_iff, bool_decide_eq_false in Hc.
    rewrite decide_False by done. rewrite IH by done. by str_eq.
Qed.

Lemma plain_char_split c :
  Naming.plain_char c
  = negb (bool_decide (c = ":"%char)) && negb (bool_decide (c = "-"%char))
    && negb (bool_decide (c = " "%char)).
Proof. reflexivity. Qed.

Lemma sanitize_well_formed base : Naming.well_formed (Naming.sanitize base) = true.
Proof.
  unfold Naming.sanitize, split_char.
  destruct (split_char_go_last ":" "" base eq_refl) as (l & -> & Hl). simpl default.
  set (r1 := replace "-" "_" l).
  assert (str_forall
            (λ c, negb (bool_decide (c = ":"%char)) && negb (bool_decide (c = "-"%char)))
            r1 = true) as H1.
  { apply replace_char_forall; [done|].
    revert Hl. apply str_forall_impl. intros c ->. simpl.
    by destruct (bool_decide (c = "-"%char)). }
  set (r2 := replace " " "_" r1).
  assert (str_forall Naming.plain_char r2 = true) as H2.
  { apply replace_char_forall; [done|].
    revert H1. apply str_forall_impl. intros c Hc. rewrite plain_char_split, Hc. simpl.
    by destruct (bool_decide (c = " "%char)). }
  destruct r2 as [|c r2]; [done|].
  destruct (Naming.isdigit c) eqn:Hd.
  - unfold Naming.well_formed. str_norm. rewrite str_forall_cons. by rewrite H2.
  - unfold Naming.well_formed. by rewrite H2, Hd.
Qed.

Lemma sanitize_id s : Naming.well_formed s = true → Naming.sanitize s = s.
Proof.
  unfold Naming.well_formed. intros [Hs Hd]%andb_true_iff.
  unfold Naming.sanitize, split_char.
  rewrite split_char_go_none; last first.
  { revert Hs. apply str_forall_impl. intros c. rewrite plain_char_split.
    by intros [[-> _]%andb_true_iff _]%andb_true_iff. }
  str_norm. simpl default.
  rewrite (replace_char_id "-"); last first.
  { revert Hs. apply str_forall_impl. intros c. rewrite plain_char_split.
    by intros [[_ ->]%andb_true_iff _]%andb_true_iff. }
  rewrite (replace_char_id " "); last first.
  { revert Hs. apply str_forall_impl. intros c. rewrite plain_char_split.
    by intros [_ ->]%andb_true_iff. }
  destruct s as [|c s]; [done|]. apply negb_true_iff in Hd. by rewrite Hd.
Qed.

Lemma well_formed_extend c x :
  Naming.well_formed c = true →
  Naming.well_formed (c +:+ "_" +:+ Naming.uuid4_hex x) = true.
Proof.
  unfold Naming.well_formed. intros [Hs Hd]%andb_true_iff.
  rewrite !str_forall_app, Hs, uuid4_hex_plain. simpl.
  destruct c as [|a c]; [done|]. by str_norm.
Qed.

Lemma well_formed_node x :
  Naming.well_formed ("node_" +:+ Naming.uuid4_hex x) = true.
Proof.
  unfold Naming.well_formed. rewrite str_forall_app, uuid4_hex_plain. done.
Qed.

Lemma generate_new_lean_name_S fuel rand (V : gset string) base k :
  Naming.generate_new_lean_name (S fuel) rand V base k
  = let '(base, k) :=
      match base with
      | None => ("node_" +:+ Naming.uuid4_hex (rand k), S k)
      | Some base => (Naming.sanitize base, k)
      end in
    if decide (base ∈ V) then
      Naming.generate_new_lean_name fuel rand V
        (Some (base +:+ "_" +:+ Naming.uuid4_hex (rand k))) (S k)
    else Done (base, k).
Proof. reflexivity. Qed.

(** Every further candidate is longer than the one before, so each failed
    attempt rules out one more of the visited names. *)
Lemma generate_from_well_formed rand (V : gset string) fuel :
  ∀ c k,
    Naming.well_formed c = true →
    size (filter (λ v, String.length c ≤ String.length v) V) < fuel →
    ∃ nm k',
      Naming.generate_new_lean_name fuel rand V (Some c) k = Done (nm, k') ∧
      (nm ∉ V) ∧ Naming.well_formed nm = true ∧ k ≤ k' ∧ k' < k + fuel.
Proof.
  induction fuel as [|fuel IH]; intros c k Hc Hsz; [lia|].
  rewrite generate_new_lean_name_S, (sanitize_id c Hc).
  case_decide as Hin; [|exists c, k; repeat split; (done || lia)].
  set (c1 := c +:+ "_" +:+ Naming.uuid4_hex (rand k)).
  assert (String.length c1 = String.length c + 33) as Hlen.
  { unfold c1. rewrite !str_length_app, uuid4_hex_length. simpl. lia. }
  destruct (IH c1 (S k)) as (nm & k' & Hrun & ? & ? & ? & ?).
  - by apply well_formed_extend.
  - assert (filter (λ v, String.length c1 ≤ String.length v) V
            ⊂ filter (λ v, String.length c ≤ String.length v) V) as Hsub.
    { apply strict_spec_alt. split.
      - intros v [Hv ?]%elem_of_filter. apply elem_of_filter. split; [lia | done].
      - intros E.
        assert (c ∈ filter (λ v, String.length c ≤ String.length v) V) as Hc'
          by (apply elem_of_filter; split; [lia | done]).
        rewrite <- E in Hc'. apply elem_of_filter in Hc' as [Hc' _]. lia. }
    apply subset_size in Hsub. lia.
  - exists nm, k'. repeat split; (done || lia).
Qed.

Lemma generate_more_fuel rand (V : gset string) fuel extra :
  ∀ base k r,
    Naming.generate_new_lean_name fuel rand V base k = Done r →
    Naming.generate_new_lean_name (fuel + extra) rand V base k = Done r.
Proof.
  induction fuel as [|fuel IH]; intros base k r; [done|].
  change (S fuel + extra) with (S (fuel + extra)).
  rewrite !generate_new_lean_name_S.
  destruct (match base with Some _ => _ | None => _ end) as [c k0].
  case_decide; [apply IH | done].
Qed.

(** X16. [generate_new_lean_name] needs no luck: whatever the random draws
    are, it returns after at most one attempt more than there are visited
    names, since every further candidate is longer than the one before.  The
    name returned is not a visited one, has no colon, hyphen or space, and
    does not start with a digit. *)
Theorem generate_new_lean_name_fresh
    (rand : nat → N) (visited_names : gset string) (base : option string) (k : nat) :
  ∃ nm k',
    (∀ extra,
       Naming.generate_new_lean_name (S (size visited_names) + extra) rand
         visited_names base k = Done (nm, k')) ∧
    (nm ∉ visited_names) ∧
    Naming.well_formed nm = true ∧
    k ≤ k' ∧ k' ≤ k + S (size visited_names).
Proof.
  set (V := visited_names).
  assert (∀ c, size (filter (λ v, String.length c ≤ String.length v) V) < S (size V))
    as Hsz.
  { intros c.
    assert (filter (λ v, String.length c ≤ String.length v) V ⊆ V) as Hsub
      by (intros v [_ ?]%elem_of_filter; done).
    apply subseteq_size in Hsub. lia. }
  destruct base as [b|].
  - destruct (generate_from_well_formed rand V (S (size V)) (Naming.sanitize b) k)
      as (nm & k' & Hrun & ? & ? & ? & ?); [apply sanitize_well_formed | apply Hsz |].
    exists nm, k'. split; [|repeat split; (done || lia)].
    intros extra. apply generate_more_fuel.
    rewrite generate_new_lean_name_S in Hrun |- *.
    by rewrite sanitize_id in Hrun by apply sanitize_well_formed.
  - destruct (generate_from_well_formed rand V (S (size V))
                ("node_" +:+ Naming.uuid4_hex (rand k)) (S k))
      as (nm & k' & Hrun & ? & ? & ? & ?); [apply well_formed_node | apply Hsz |].
    exists nm, k'. split; [|repeat split; (done || lia)].
    intros extra. apply generate_more_fuel.
    rewrite generate_new_lean_name_S in Hrun |- *.
    by rewrite sanitize_id in Hrun by apply well_formed_node.
Qed.

(** A clash with a visited name: the second candidate carries the identifier
    drawn. *)
Example generate_new_lean_name_clash :
  Naming.generate_new_lean_name 2 (λ _, 10%N) {["x_1"]} (Some "thm:x-1") 0
  = Done ("x_1_0000000000000000000000000000000a", 1).
Proof. vm_compute. reflexivity. Qed.

(** * Properties of quoting, of the text filters and of the location order *)







(** ** The location order *)

Lemma ascii_compare_trans a b c :
  Ascii.compare a b = Lt → Ascii.compare b c = Lt → Ascii.compare a c = Lt.
Proof. unfold Ascii.compare. rewrite !N.compare_lt_iff. lia. Qed.

Lemma string_compare_refl a : String.compare a a = Eq.
Proof.
  induction a as [|c a IH]; simpl; [done|].
  unfold Ascii.compare. by rewrite N.compare_refl.
Qed.

Lemma string_compare_trans a b c :
  String.compare a b = Lt → String.compare b c = Lt → String.compare a c = Lt.
Proof.
  revert b c. induction a as [|x a IH]; intros [|y b] [|z c]; simpl; try done.
  destruct (Ascii.compare x y) eqn:Hxy; [|clear IH|done].
  - apply Ascii.compare_eq_iff in Hxy as ->.
    destruct (Ascii.compare y z); [apply IH | done..].
  - destruct (Ascii.compare y z) eqn:Hyz; [| |done].
    + apply Ascii.compare_eq_iff in Hyz as <-. by rewrite Hxy.
    + by rewrite (ascii_compare_trans _ _ _ Hxy Hyz).
Qed.

Lemma key_lt_asym a b : key_lt a b = true → key_lt b a = false.
Proof.
  unfold key_lt. rewrite (String.compare_antisym b.1 a.1).
  destruct (String.compare a.1 b.1); simpl; [|done..].
  intros ?%Z.ltb_lt. apply Z.ltb_ge. lia.
Qed.

Lemma key_lt_trans a b c : key_lt a b = true → key_lt b c = true → key_lt a c = true.
Proof.
  unfold key_lt.
  destruct (String.compare a.1 b.1) eqn:Hab; [| |done];
    destruct (String.compare b.1 c.1) eqn:Hbc; try done.
  - apply String.compare_eq_iff in Hab, Hbc. rewrite Hab, Hbc, string_compare_refl.
    intros ?%Z.ltb_lt ?%Z.ltb_lt. apply Z.ltb_lt. lia.
  - apply String.compare_eq_iff in Hab. by rewrite Hab, Hbc.
  - apply String.compare_eq_iff in Hbc. by rewrite <- Hbc, Hab.
  - by rewrite (string_compare_trans _ _ _ Hab Hbc).
Qed.

Lemma key_lt_total a b : key_lt a b = false → key_lt b a = false → a = b.
Proof.
  unfold key_lt. rewrite (String.compare_antisym b.1 a.1).
  destruct (String.compare a.1 b.1) eqn:Hab; simpl; try done.
  apply String.compare_eq_iff in Hab.
  intros ?%Z.ltb_ge ?%Z.ltb_ge. destruct a, b; simpl in *. f_equal; [done | lia].
Qed.

Lemma key_ge_trans x y z : key_ge x y → key_ge y z → key_ge x z.
Proof.
  unfold key_ge. intros Hxy Hyz.
  destruct (key_lt (location_key x) (location_key z)) eqn:Hxz; [|done].
  destruct (key_lt (location_key y) (location_key z)) eqn:Hyz'; [done|].
  destruct (key_lt (location_key z) (location_key y)) eqn:Hzy.
  - by rewrite (key_lt_trans _ _ _ Hxz Hzy) in Hxy.
  - rewrite (key_lt_total _ _ Hyz' Hzy) in Hxy. congruence.
Qed.

Lemma insert_desc_sorted x l :
  StronglySorted key_ge l → StronglySorted key_ge (insert_desc x l).
Proof.
  induction 1 as [|y l Hl IH Hy]; simpl; [repeat constructor|].
  destruct (key_lt (location_key x) (location_key y)) eqn:Hxy.
  - constructor; [done|]. apply Forall_forall. intros z Hz.
    apply elem_of_insert_desc in Hz as [-> | Hz].
    + by apply key_lt_asym.
    + rewrite Forall_forall in Hy. by apply Hy.
  - constructor; [by constructor|]. constructor; [done|].
    eapply Forall_impl; [done|]. intros z Hz. by eapply key_ge_trans.
Qed.

Lemma insert_desc_perm x l : insert_desc x l ≡ₚ x :: l.
Proof.
  induction l as [|y l IH]; simpl; [done|].
  destruct (key_lt _ _); [|done]. rewrite IH. apply Permutation_swap.
Qed.

(** X19. The location order of [write_blueprint_attributes] lists the given
    nodes, each as often as given, by module and line from the last to the
    first: no node stands before one with a greater key. *)
Theorem sorted_by_location_reverse_sorted (nodes : list NodeWithPos) :
  sorted_by_location_reverse nodes ≡ₚ nodes ∧
  StronglySorted key_ge (sorted_by_location_reverse nodes).
Proof.
  unfold sorted_by_location_reverse. induction nodes as [|x l [IHp IHs]]; simpl.
  - split; [done | constructor].
  - split; [by rewrite insert_desc_perm, IHp | by apply insert_desc_sorted].
Qed.

(** ** Stripping *)

Lemma str_forall_lstrip P s : str_forall P s = true → str_forall P (lstrip s) = true.
Proof.
  induction s as [|c s IH]; [done|]. intros Hs. simpl.
  destruct (is_space c); [|done]. apply IH.
  rewrite str_forall_cons in Hs. by apply andb_true_iff in Hs as [_ ?].
Qed.

Lemma str_forall_rstrip P s : str_forall P s = true → str_forall P (rstrip s) = true.
Proof.
  intros Hs. destruct (rstrip_prefix s) as [t Ht]. rewrite Ht, str_forall_app in Hs.
  by apply andb_true_iff in Hs as [? _].
Qed.

Lemma str_forall_strip P s : str_forall P s = true → str_forall P (strip s) = true.
Proof. intros Hs. by apply str_forall_rstrip, str_forall_lstrip. Qed.

Lemma rstrip_cons c s :
  rstrip (String c s)
  = match rstrip s with
    | "" => if is_space c then "" else String c ""
    | r => String c r
    end.
Proof. reflexivity. Qed.

Lemma rstrip_rstrip s : rstrip (rstrip s) = rstrip s.
Proof.
  induction s as [|c s IH]; [done|]. rewrite rstrip_cons.
  destruct (rstrip s) as [|d r] eqn:E.
  - destruct (is_space c) eqn:Hc; [done|]. rewrite rstrip_cons. simpl. by rewrite Hc.
  - rewrite rstrip_cons, IH. done.
Qed.

Lemma strip_strip s : strip (strip s) = strip s.
Proof.
  unfold strip.
  assert (lstrip (rstrip (lstrip s)) = rstrip (lstrip s)) as ->; [|apply rstrip_rstrip].
  destruct (lstrip_head s) as [-> | (c & r & -> & Hc)]; [done|].
  rewrite rstrip_cons. destruct (rstrip r); rewrite ?Hc; simpl; by rewrite Hc.
Qed.

(** ** remove_nonbreaking_spaces *)

Lemma replace_tildes_cons b c s :
  replace_tildes b (String c s)
  = String (if bool_decide (c = "~"%char) && negb b then " "%char else c)
      (replace_tildes (bool_decide (c = BACKSLASH)) s).
Proof. reflexivity. Qed.

Lemma tildes_escaped_cons b c s :
  tildes_escaped b (String c s)
  = (negb (bool_decide (c = "~"%char)) || b)
    && tildes_escaped (bool_decide (c = BACKSLASH)) s.
Proof. reflexivity. Qed.

Lemma tildes_escaped_replace_tildes b s :
  tildes_escaped b (replace_tildes b s) = true.
Proof.
  revert b. induction s as [|c s IH]; intros b; [done|].
  rewrite replace_tildes_cons, tildes_escaped_cons.
  destruct (bool_decide (c = "~"%char)) eqn:Hc; simpl.
  - apply bool_decide_eq_true in Hc as ->. destruct b; simpl; apply IH.
  - rewrite Hc. simpl. apply IH.
Qed.

Lemma tildes_escaped_lstrip s :
  tildes_escaped false s = true → tildes_escaped false (lstrip s) = true.
Proof.
  induction s as [|c s IH]; [done|]. intros Hs. simpl lstrip.
  destruct (is_space c) eqn:Hc; [|done]. apply IH.
  rewrite tildes_escaped_cons in Hs. apply andb_true_iff in Hs as [_ Hs].
  rewrite bool_decide_eq_false_2 in Hs; [done|]. by intros ->.
Qed.

Lemma tildes_escaped_rstrip b s :
  tildes_escaped b s = true → tildes_escaped b (rstrip s) = true.
Proof.
  revert b. induction s as [|c s IH]; intros b; [done|].
  rewrite tildes_escaped_cons, rstrip_cons. intros [Hc Hs]%andb_true_iff.
  apply IH in Hs. destruct (rstrip s) as [|d r].
  - destruct (is_space c); [done|]. rewrite tildes_escaped_cons, Hc. done.
  - by rewrite tildes_escaped_cons, Hc, Hs.
Qed.

Lemma replace_tildes_none b s :
  str_forall (λ c, negb (bool_decide (c = "~"%char))) s = true →
  replace_tildes b s = s.
Proof.
  revert b. induction s as [|c s IH]; intros b; [done|].
  rewrite str_forall_cons, replace_tildes_cons. intros [Hc Hs]%andb_true_iff.
  apply negb_true_iff in Hc. rewrite Hc, IH by done. done.
Qed.

(** X20. In the text that [remove_nonbreaking_spaces] returns every tilde
    left follows a backslash, and the text has no whitespace at its ends;
    a text without tildes is only stripped. *)
Theorem remove_nonbreaking_spaces_spec (source : string) :
  tildes_escaped false (remove_nonbreaking_spaces source) = true ∧
  strip (remove_nonbreaking_spaces source) = remove_nonbreaking_spaces source ∧
  (if str_forall (λ c, negb (bool_decide (c = "~"%char))) source
   then remove_nonbreaking_spaces source = strip source else True).
Proof.
  unfold remove_nonbreaking_spaces. split; [|split].
  - unfold strip. apply tildes_escaped_rstrip, tildes_escaped_lstrip,
      tildes_escaped_replace_tildes.
  - apply strip_strip.
  - destruct (str_forall _ source) eqn:Hs; [|done]. by rewrite replace_tildes_none.
Qed.

(** ** The values of a directive *)

Lemma re_findall_go_captures {A} (matcher : string → option (A * nat)) skip s g :
  g ∈ re_findall_go matcher skip s → ∃ s' len, matcher s' = Some (g, len).
Proof.
  revert skip. induction s as [|c s IH]; intros skip; simpl; [by intros ?%elem_of_nil|].
  destruct skip; [|apply IH].
  destruct (matcher (String c s)) as [[g' len]|] eqn:E; [|apply IH].
  intros [-> | Hg]%elem_of_cons; [eauto | by eapply IH].
Qed.

Lemma until_char_body a s body rest :
  until_char a s = Some (body, rest) →
  str_forall (λ c, negb (bool_decide (c = a))) body = true.
Proof.
  revert body. induction s as [|c s IH]; intros body; simpl; [done|].
  case_decide as Hc; [by intros [= <- _]|].
  destruct (until_char a s) as [[b r]|]; [|done]. intros [= <- <-].
  rewrite str_forall_cons, (IH b eq_refl). by rewrite bool_decide_eq_false_2.
Qed.

Lemma match_command_argument_capture command s g len :
  match_command_argument command s = Some (g, len) →
  str_forall (λ c, negb (bool_decide (c = "}"%char))) g = true.
Proof.
  unfold match_command_argument. destruct (startswith s _); [|done].
  destruct (str_drop (String.length (leading_space _)) _) as [|c r]; [done|].
  case_decide; [|done].
  destruct (until_char "}" r) as [[arg rest]|] eqn:E; [|done].
  intros [= <- _]. by eapply until_char_body.
Qed.

Lemma split_char_go_pieces (P : ascii → bool) sep cur s :
  str_forall (λ c, P c && negb (bool_decide (c = sep))) cur = true →
  str_forall P s = true →
  Forall (λ piece, str_forall (λ c, P c && negb (bool_decide (c = sep))) piece = true)
    (split_char_go sep cur s).
Proof.
  revert cur. induction s as [|c s IH]; intros cur Hcur Hs.
  - by repeat constructor.
  - rewrite str_forall_cons in Hs. apply andb_true_iff in Hs as [Hc Hs].
    rewrite split_char_go_cons. case_decide as Hsep.
    + constructor; [done|]. by apply IH.
    + apply IH; [|done]. rewrite str_forall_app, Hcur. simpl.
      by rewrite Hc, bool_decide_eq_false_2.
Qed.

(** X21. Every value that [find_and_remove_command_arguments] returns has no
    comma and no closing brace, and no whitespace at its ends. *)
Theorem find_and_remove_command_arguments_values
    (command source : string) (sub_count : nat) :
  Forall (λ v,
            strip v = v ∧
            str_forall (λ c, negb (bool_decide (c = "}"%char))
                             && negb (bool_decide (c = ","%char))) v = true)
    (find_and_remove_command_arguments command source sub_count).1.
Proof.
  unfold find_and_remove_command_arguments. simpl.
  apply Forall_forall. intros v Hv.
  apply list_elem_of_join in Hv as (vs & Hv & Hvs).
  apply list_elem_of_fmap in Hvs as (m & -> & Hm).
  apply list_elem_of_fmap in Hv as (piece & -> & Hpiece).
  split; [apply strip_strip|]. apply str_forall_strip.
  apply re_findall_go_captures in Hm as (s' & len & Hm).
  apply match_command_argument_capture in Hm.
  pose proof (split_char_go_pieces (λ c, negb (bool_decide (c = "}"%char))) "," "" m
                eq_refl Hm) as Hall.
  rewrite Forall_forall in Hall. by apply Hall.
Qed.

(** The values of a directive with two labels and blanks around them. *)
Example find_and_remove_command_arguments_example :
  find_and_remove_command_arguments "uses"
    ("A " +:+ String BACKSLASH "uses{ thm:a , lem:b } B") 0
  = (["thm:a"; "lem:b"], "A  B").
Proof. vm_compute. reflexivity. Qed.

(** ** Reading back a docstring *)

Lemma rstrip_app_space x b : is_space b = true → rstrip (x +:+ String b "") = rstrip x.
Proof.
  intros Hb. induction x as [|c x IH]; str_norm.
  - simpl. by rewrite Hb.
  - by rewrite !rstrip_cons, IH.
Qed.

Lemma strip_padded a b t :
  is_space a = true → is_space b = true →
  strip (String a (strip t +:+ String b "")) = strip t.
Proof.
  intros Ha Hb. unfold strip at 1. simpl lstrip. rewrite Ha.
  destruct (lstrip_head (strip t +:+ String b "")) as [E | (c & r & E & Hc)].
  - rewrite E. destruct (strip t) as [|c r] eqn:Et; [done|].
    revert E. str_norm. unfold strip in Et.
    destruct (lstrip_head t) as [El | (c' & r' & El & Hc')].
    + rewrite El in Et. done.
    + rewrite El, rstrip_cons in Et. simpl.
      assert (c = c') as -> by (destruct (rstrip r'); [destruct (is_space c')|]; congruence).
      by rewrite Hc'.
  - assert (lstrip (strip t +:+ String b "") = strip t +:+ String b "") as ->.
    { destruct (strip t) as [|c0 r0] eqn:Et.
      - revert E. str_norm. simpl. by rewrite Hb.
      - revert E. str_norm. unfold strip in Et.
        destruct (lstrip_head t) as [El | (c' & r' & El & Hc')].
        + rewrite El in Et. done.
        + rewrite El, rstrip_cons in Et.
          assert (c0 = c') as -> by (destruct (rstrip r'); [destruct (is_space c')|];
                                      congruence).
          simpl. by rewrite Hc'. }
    rewrite rstrip_app_space by done. unfold strip. apply rstrip_rstrip.
Qed.

(** X22. What [make_docstring] writes, the docstring pattern of
    [insert_docstring_and_attribute] reads back: for a text without a comment
    terminator, the pattern matches the whole doc comment with the line feed
    after it, and the body it captures strips to the stripped text. *)
Theorem make_docstring_read_back (text : string) (c : ascii) (rest : string) :
  contains "-/" text = false →
  is_space c = false →
  ∃ body,
    match_docstring (make_docstring text 0 +:+ nl +:+ String c rest)
    = Some (make_docstring text 0 +:+ nl, body) ∧
    strip body = strip text.
Proof.
  intros Htext Hc. exists (docstring_body text 0). split.
  - rewrite make_docstring_body.
    replace (("/--" +:+ docstring_body text 0 +:+ "-/") +:+ nl +:+ String c rest)
      with ("/--" +:+ docstring_body text 0 +:+ "-/" +:+ nl +:+ String c rest) by str_eq.
    rewrite match_docstring_existing by (by apply contains_close_body || done).
    f_equal. f_equal. str_eq.
  - unfold docstring_body. rewrite replace_nl_id.
    destruct (contains nl (strip text)); simpl repeat_char.
    + replace (nl +:+ "" +:+ strip text +:+ nl +:+ "")
        with (String NL (strip text +:+ String NL "")) by (unfold nl; str_eq).
      by apply strip_padded.
    + replace (" " +:+ strip text +:+ " ")
        with (String " " (strip text +:+ String " " "")) by str_eq.
      by apply strip_padded.
Qed.

Lemma make_docstring_read_back_witness :
  ∃ body,
    match_docstring (make_docstring (" A lemma." +:+ nl) 0 +:+ nl +:+ "theorem a : True")
    = Some (make_docstring (" A lemma." +:+ nl) 0 +:+ nl, body) ∧
    strip body = strip (" A lemma." +:+ nl).
Proof.
  apply (make_docstring_read_back (" A lemma." +:+ nl) "t" "heorem a : True");
    vm_compute; reflexivity.
Defined.

(** ** A marker that does not occur *)

Lemma re_sub_go_no_match {A} (matcher : string → option (A * nat)) (repl : A → string)
    (limit : option nat) (s : string) :
  re_findall_go matcher 0 s = [] → re_sub_go matcher repl limit 0 s = s.
Proof.
  revert limit. induction s as [|c s IH]; intros limit; simpl; [by destruct limit as [[|]|]|].
  destruct (matcher (String c s)) as [[g len]|]; [done|].
  intros Hs. destruct limit as [[|n]|]; [done | by rewrite IH | by rewrite IH].
Qed.

(** X23. When [find_and_remove_command] does not find the marker, it returns
    the source unchanged. *)
Theorem find_and_remove_command_absent (command source : string) :
  (find_and_remove_command command source).1 = false →
  (find_and_remove_command command source).2 = source.
Proof.
  unfold find_and_remove_command, re_findall, re_sub. simpl.
  destruct (re_findall_go (match_command command) 0 source) eqn:E; [|done].
  intros _. by apply re_sub_go_no_match.
Qed.

Lemma find_and_remove_command_absent_witness :
  (find_and_remove_command "leanok" (String BACKSLASH "leanokay text")).2
  = String BACKSLASH "leanokay text".
Proof.
  apply (find_and_remove_command_absent "leanok" (String BACKSLASH "leanokay text")).
  vm_compute. reflexivity.
Defined.
